(** * mlpack ANN layers: MeanPooling and RecurrentAttention

    A shallow embedding of
      src/mlpack/methods/ann/layer/mean_pooling_impl.hpp
      src/mlpack/methods/ann/layer/recurrent_attention_impl.hpp
    and the properties of the two layers that the specification states.
    The last modules state further properties that the code shows: edge
    cases, invariants of the objects, and how the calls compose.

    Conventions.
    - [size_t] values are [N].  The products of sizes that
      [MeanPoolingType::Forward] computes, the divisor of line 59 and the
      slice count, wrap around at 2^64 ([size_mul]), and so do the unsigned
      subtractions of the source ([size_sub]).  The offsets into a memory
      that the tensor substrate computes are taken in [N]: they are bounded
      by the length of a memory that exists.
    - The [double] arithmetic on sizes in [MeanPoolingType::Forward] is
      binary64: every conversion and operation rounds its exact result to 53
      bits, ties to even ([Binary64.round64]).  On values of [size_t] no
      operation overflows and no nonzero result is subnormal, so that the
      exponent needs no bound.
    - The element type of the tensors ([elem_type], a template parameter of
      the layers) is instantiated with the exact rationals [Qc]: the
      arithmetic of the substrate is idealised, its rounding is not modelled.
    - A dense column-major Armadillo matrix is a record of its two dimensions
      and its memory; a cube is the same with a slice count.  A view on
      foreign memory that is only read is a value, and has no result where it
      reaches past that memory.  The one view that the source writes through
      after it was bound, a sub-module's [Gradient()] that
      [RecurrentAttention::Backward] binds to the memory of
      [intermediateGradient], is a value too: [IntermediateGradient] writes
      both, while the assignments of [RecurrentAttention::Gradient] are
      modelled on the sub-modules' gradients only, so that what the model
      shows of [intermediateGradient] after a [Gradient] is what the buffer
      held before the call.
    - Memory is not bounded: an allocation succeeds.
    - Armadillo checks bounds and sizes (its default configuration) and
      throws; the members of the object keep what was written before the
      throw.  [RecurrentAttention]'s methods are therefore computations
      [State -> outcome T * State].
    - The two sub-modules of [RecurrentAttention] are any two
      implementations of the layer interface.  The layer records the calls it
      makes to them in a history that no code reads; the properties of the
      data flow relate that history to the results of the sub-modules and to
      the members of the object.
    - mean_pooling.hpp and recurrent_attention.hpp are not among the sources:
      [Pooling], [Unpooling] and [IntermediateGradient], which they declare,
      are modelled from the specification.
    - [serialize] hands named members to a cereal archive.  An archive is the
      list of these name-value pairs in the order of the calls; the
      sub-object of the base class, which belongs to the layer interface, is
      left out. *)

From Stdlib Require Import List NArith ZArith QArith Qcanon Qround Qpower.
From Stdlib Require Import Lia Lqa Bool.
From Stdlib Require String.
Import ListNotations.

Set Implicit Arguments.

(* ===================================================================== *)
(** * The dense tensor substrate *)
(* ===================================================================== *)

Module Arma.

(** Modulus of [size_t] arithmetic. *)
Definition SIZE_MOD : N := 2 ^ 64.

(** [a - b] on [size_t]: wraps around below zero. *)
Definition size_sub (a b : N) : N := ((a + SIZE_MOD - b) mod SIZE_MOD)%N.

(** [a * b] on [size_t]: wraps around at 2^64. *)
Definition size_mul (a b : N) : N := ((a * b) mod SIZE_MOD)%N.

(** The indices [0, 1, ..., n-1] of a counted [for] loop. *)
Definition range (n : N) : list N := map N.of_nat (seq 0 (N.to_nat n)).

(** The indices [lo, lo+1, ..., hi-1] of an Armadillo [span(lo, hi-1)]. *)
Definition span (lo hi : N) : list N := map (fun k => (lo + k)%N) (range (hi - lo)).

(** [for (i = 0; i < n; ++i) acc = body(i, acc)]. *)
Definition for_ {A : Type} (n : N) (body : N -> A -> A) (init : A) : A :=
  fold_left (fun acc i => body i acc) (range n) init.

Definition sum (l : list Qc) : Qc := fold_right Qcplus 0%Qc l.

Definition of_count (n : nat) : Qc := Q2Qc (inject_Z (Z.of_nat n)).

(** [arma::Mat]: column-major, element (r, c) at offset [r + c * n_rows]. *)
Record mat : Type := Mat { n_rows : N; n_cols : N; mem : list Qc }.

Definition n_elem (m : mat) : N := (n_rows m * n_cols m)%N.

Definition is_empty (m : mat) : bool := (n_elem m =? 0)%N.

Definition zeros (r c : N) : mat := Mat r c (repeat 0%Qc (N.to_nat (r * c))).

(** The memory of a matrix holds exactly its elements. *)
Definition wf (m : mat) : Prop := length (mem m) = N.to_nat (n_elem m).

(** Element read by linear offset; an offset past the memory reads zero. *)
Definition get (l : list Qc) (k : N) : Qc := nth (N.to_nat k) l 0%Qc.

Definition at_ (m : mat) (r c : N) : Qc := get (mem m) (r + c * n_rows m).

(** [mapi f l]: the list [f 0 l0, f 1 l1, ...] (an in-place sweep). *)
Fixpoint mapi_from (k : N) (f : N -> Qc -> Qc) (l : list Qc) : list Qc :=
  match l with
  | [] => []
  | x :: l' => f k x :: mapi_from (N.succ k) f l'
  end.

Definition mapi := mapi_from 0%N.

(** [arma::Cube]: slices of [c_rows * c_cols] elements stored one after the
    other. *)
Record cube : Type :=
  Cube { c_rows : N; c_cols : N; c_slices : N; cmem : list Qc }.

Definition c_elem (q : cube) : N := (c_rows q * c_cols q * c_slices q)%N.

Definition slice_elem (q : cube) : N := (c_rows q * c_cols q)%N.

(** [Cube(ptr, r, c, s, false, false)]: a view of the first [r*c*s] elements
    of foreign memory. *)
Definition cube_view (m : list Qc) (r c s : N) : cube :=
  Cube r c s (firstn (N.to_nat (r * c * s)) m).

Definition zeros_cube (r c s : N) : cube :=
  Cube r c s (repeat 0%Qc (N.to_nat (r * c * s))).

(** Do the first [n] elements that a view covers lie in the memory [m]? *)
Definition within (m : list Qc) (n : N) : bool :=
  (n <=? N.of_nat (length m))%N.

(** [q.slice(s)] read as a matrix. *)
Definition slice (q : cube) (s : N) : mat :=
  Mat (c_rows q) (c_cols q)
      (firstn (N.to_nat (slice_elem q))
              (skipn (N.to_nat (s * slice_elem q)) (cmem q))).

(** Writing a matrix back through the reference [q.slice(s)]. *)
Definition set_slice (q : cube) (s : N) (m : mat) : cube :=
  Cube (c_rows q) (c_cols q) (c_slices q)
       (firstn (N.to_nat (s * slice_elem q)) (cmem q)
        ++ mem m
        ++ skipn (N.to_nat ((s + 1) * slice_elem q)) (cmem q)).

(** [Mat(ptr, r, c)]: a matrix that copies [r*c] elements of memory. *)
Definition mat_of_mem (m : list Qc) (r c : N) : mat :=
  Mat r c (firstn (N.to_nat (r * c)) m).

(** [for (s = 0; s < n; ++s) F(s, q.slice(s))], where [F] writes its result
    through the reference to the slice. *)
Definition sweep (F : N -> mat -> mat) (n : N) (q0 : cube) : cube :=
  for_ n (fun s q => set_slice q s (F s (slice q s))) q0.

(** The inner product of two memories, over their common length. *)
Definition dot (a b : list Qc) : Qc :=
  sum (map (fun p => (fst p * snd p)%Qc) (combine a b)).

(** A column-major memory given element by element. *)
Definition grid (f : N -> N -> Qc) (R C : N) : list Qc :=
  flat_map (fun j => map (fun i => f i j) (range R)) (range C).

End Arma.

Import Arma.

(* ===================================================================== *)
(** * The [double] values of sizes *)
(* ===================================================================== *)

Module Binary64.

Local Open Scope Q_scope.

(** Round to the nearest integer, ties to even. *)
Definition rne (x : Q) : Z :=
  let f := Qfloor x in
  match Qcompare (x - inject_Z f) (1 # 2) with
  | Lt => f
  | Gt => (f + 1)%Z
  | Eq => if Z.even f then f else (f + 1)%Z
  end.

(** The exponent [e] with [2^e <= x < 2^(e+1)], for a positive [x]. *)
Definition binade (x : Q) : Z :=
  let e0 := (Z.log2 (Qnum x) - Z.log2 (Zpos (Qden x)))%Z in
  if Qle_bool (2 ^ e0) x then e0 else (e0 - 1)%Z.

(** The nearest multiple of the unit in the last place of a positive [x]:
    the significand has 53 bits. *)
Definition round_pos (x : Q) : Q :=
  let u := 2 ^ (binade x - 52) in
  inject_Z (rne (x / u)) * u.

(** The binary64 value that an exact result [x] is rounded to. *)
Definition round64 (x : Q) : Q :=
  match Qcompare x 0 with
  | Eq => 0
  | Gt => round_pos x
  | Lt => - round_pos (- x)
  end.

End Binary64.

(* ===================================================================== *)
(** * MeanPooling *)
(* ===================================================================== *)

Module MeanPooling.

(** The members of [MeanPoolingType]. *)
Record State : Type := MkState {
  kernelWidth : N;
  kernelHeight : N;
  strideWidth : N;
  strideHeight : N;
  floor : bool;
  inSize : N;
  outSize : N;
  inputWidth : N;
  inputHeight : N;
  outputWidth : N;
  outputHeight : N;
  reset : bool;
  deterministic : bool;
  offset : N;
  batchSize : N;
  inputTemp : cube;
  outputTemp : cube;
  gTemp : cube
}.

Definition empty_cube : cube := Cube 0 0 0 [].

(** The five-argument constructor. *)
Definition MeanPoolingType (kW kH sW sH : N) (fl : bool) : State :=
  MkState kW kH sW sH fl 0 0 0 0 0 0 false false 0 0
          empty_cube empty_cube empty_cube.

(** The setters [InputWidth()] and [InputHeight()] of the header. *)
Definition set_input_dims (st : State) (w h : N) : State :=
  MkState (kernelWidth st) (kernelHeight st) (strideWidth st) (strideHeight st)
          (floor st) (inSize st) (outSize st) w h
          (outputWidth st) (outputHeight st) (reset st) (deterministic st)
          (offset st) (batchSize st) (inputTemp st) (outputTemp st) (gTemp st).

(** ** Pooling and Unpooling *)

Section Kernels.

Variable st : State.

(** Rows covered by the window of output row [i], clipped to the input. *)
Definition window_rows (input : mat) (i : N) : list N :=
  span (i * strideWidth st)
       (N.min (i * strideWidth st + kernelWidth st) (n_rows input)).

Definition window_cols (input : mat) (j : N) : list N :=
  span (j * strideHeight st)
       (N.min (j * strideHeight st + kernelHeight st) (n_cols input)).

(** The in-bounds cells of the window of output cell (i, j). *)
Definition window (input : mat) (i j : N) : list (N * N) :=
  flat_map (fun c => map (fun r => (r, c)) (window_rows input i))
           (window_cols input j).

Definition window_count (input : mat) (i j : N) : Qc :=
  of_count (length (window input i j)).

Definition window_mean (input : mat) (i j : N) : Qc :=
  (sum (map (fun rc => at_ input (fst rc) (snd rc)) (window input i j))
   / window_count input i j)%Qc.

(** Modelled from the spec: [Pooling] is declared in mean_pooling.hpp, which
    is not among the sources.  Each output cell (i, j) is the
    arithmetic mean of the input cells covered by the window placed at
    (i * strideWidth, j * strideHeight) of size kernelWidth x kernelHeight;
    only in-bounds cells contribute and the divisor is their count. *)
Definition Pooling (input output : mat) : mat :=
  Mat (n_rows output) (n_cols output)
      (flat_map (fun j => map (fun i => window_mean input i j)
                              (range (n_rows output)))
                (range (n_cols output))).

(** Does the window of output cell (i, j) cover input cell (r, c)? *)
Definition covers (input : mat) (i j r c : N) : bool :=
  ((i * strideWidth st <=? r)
   && (r <? N.min (i * strideWidth st + kernelWidth st) (n_rows input))
   && (j * strideHeight st <=? c)
   && (c <? N.min (j * strideHeight st + kernelHeight st) (n_cols input)))%N.

(** [output(window) += v]: one sweep over the memory of [output]. *)
Definition add_window (input : mat) (i j : N) (v : Qc) (output : mat) : mat :=
  Mat (n_rows output) (n_cols output)
      (mapi (fun k x =>
               if covers input i j (k mod n_rows output) (k / n_rows output)
               then (x + v)%Qc else x)
            (mem output)).

(** Modelled from the spec: [Unpooling] is declared in mean_pooling.hpp, which
    is not among the sources.  For every window, each contributing
    input cell receives error(i, j) divided by that window's contributing-cell
    count, added across all windows that cover it. *)
Definition Unpooling (input error output : mat) : mat :=
  for_ (n_cols error) (fun j =>
    for_ (n_rows error) (fun i =>
      add_window input i j (at_ error i j / window_count input i j)%Qc))
    output.

End Kernels.

(** ** Forward *)

(** Conversion of a [double] with an integral value to [size_t]; a value out
    of the range of [size_t] has no defined result. *)
Definition to_size_t (z : Z) : option N :=
  if ((0 <=? z) && (z <? Z.of_N SIZE_MOD))%Z then Some (Z.to_N z) else None.

(** [(double) n]. *)
Definition to_double (n : N) : Q := Binary64.round64 (inject_Z (Z.of_N n)).

(** [(inW - (double) k) / (double) s + 1]: [inW] is converted for the
    subtraction, and each of the three operations rounds. *)
Definition out_extent (inW k s : N) : Q :=
  Binary64.round64
    (Binary64.round64
       (Binary64.round64 (to_double inW - to_double k) / to_double s) + 1)%Q.

(** [std::floor] or [std::ceil] of the extent, stored into a [size_t].  A zero
    stride makes the quotient infinite or NaN. *)
Definition out_dim (fl : bool) (inW k s : N) : option N :=
  if (s =? 0)%N then None
  else to_size_t (if fl then Qfloor (out_extent inW k s)
                  else Qceiling (out_extent inW k s)).

(** [for (s = 0; s < inputTemp.n_slices; s++)
      Pooling(inputTemp.slice(s), outputTemp.slice(s));] *)
Definition pool_slices (st : State) (inT outT : cube) : cube :=
  sweep (fun s out => Pooling st (slice inT s) out) (c_slices inT) outT.

(** [Forward(input, output)]: the new state and [output].  [None] where the
    source has no defined behaviour, a division by zero or an extent that is
    no [size_t], and where the view [inputTemp] reaches past the memory of
    [input]: [Pooling] is handed the slices of that view, and the sources do
    not fix what it reads of them.  The element count of an Armadillo matrix
    is a [size_t]: a record with 2^64 elements or more is no input. *)
Definition Forward (st : State) (input : mat) : option (State * mat) :=
  let batchSize' := n_cols input in
  let d := size_mul (size_mul (inputWidth st) (inputHeight st)) batchSize' in
  if (SIZE_MOD <=? n_elem input)%N then None else
  if (d =? 0)%N then None else
  let inSize' := (n_elem input / d)%N in
  let slices := size_mul batchSize' inSize' in
  if negb (within (mem input) (inputWidth st * inputHeight st * slices))
  then None else
  let inputTemp' :=
    cube_view (mem input) (inputWidth st) (inputHeight st) slices in
  match out_dim (floor st) (inputWidth st) (kernelWidth st) (strideWidth st),
        out_dim (floor st) (inputHeight st) (kernelHeight st) (strideHeight st)
  with
  | Some oW, Some oH =>
      let offset' := if floor st then 0%N else 1%N in
      let zero := zeros_cube oW oH slices in
      let outputTemp' := pool_slices st inputTemp' zero in
      let output :=
        mat_of_mem (cmem outputTemp') (c_elem outputTemp' / batchSize')
                   batchSize' in
      Some (MkState (kernelWidth st) (kernelHeight st)
                    (strideWidth st) (strideHeight st) (floor st)
                    inSize' slices
                    (inputWidth st) (inputHeight st)
                    (c_rows outputTemp') (c_cols outputTemp')
                    (reset st) (deterministic st) offset' batchSize'
                    inputTemp' outputTemp' (gTemp st),
            output)
  | _, _ => None
  end.

(** ** Backward *)

(** [for (s = 0; s < mappedError.n_slices; s++)
      Unpooling(inputTemp.slice(s), mappedError.slice(s), gTemp.slice(s));] *)
Definition unpool_slices (st : State) (inT errT gT : cube) : cube :=
  sweep (fun s g => Unpooling st (slice inT s) (slice errT s) g)
        (c_slices errT) gT.

(** [Backward(input, gy, g)]: the new state and [g].  [None] where the view
    [mappedError] reaches past the memory of [gy], where a slice index leaves
    the cube, or where the batch size is zero. *)
Definition Backward (st : State) (input gy : mat) : option (State * mat) :=
  let mappedError :=
    cube_view (mem gy) (outputWidth st) (outputHeight st) (outSize st) in
  let zero := zeros_cube (c_rows (inputTemp st)) (c_cols (inputTemp st))
                         (c_slices (inputTemp st)) in
  if negb (within (mem gy) (outputWidth st * outputHeight st * outSize st))
  then None
  else if (c_slices (inputTemp st) <? c_slices mappedError)%N then None
  else if (batchSize st =? 0)%N then None
  else
    let gTemp' := unpool_slices st (inputTemp st) mappedError zero in
    let g := mat_of_mem (cmem gTemp') (c_elem gTemp' / batchSize st)
                        (batchSize st) in
    Some (MkState (kernelWidth st) (kernelHeight st)
                  (strideWidth st) (strideHeight st) (floor st)
                  (inSize st) (outSize st)
                  (inputWidth st) (inputHeight st)
                  (outputWidth st) (outputHeight st)
                  (reset st) (deterministic st) (offset st) (batchSize st)
                  (inputTemp st) (outputTemp st) gTemp',
          g).

(** ** Vocabulary of the properties *)

(** What the windows of [error] hand to input cell (r, c): every window that
    covers the cell contributes its error divided by its cell count. *)
Definition contribution (st : State) (input error : mat) (r c : N) : Qc :=
  sum (map (fun j =>
         sum (map (fun i =>
                if covers st input i j r c
                then (at_ error i j / window_count st input i j)%Qc
                else 0%Qc)
              (range (n_rows error))))
       (range (n_cols error))).

(** The extent in exact arithmetic, as the specification writes it:
    (inputWidth - kernelWidth) / strideWidth + 1. *)
Definition exact_extent (inW k s : N) : Q :=
  ((inject_Z (Z.of_N inW) - inject_Z (Z.of_N k)) / inject_Z (Z.of_N s) + 1)%Q.

(** Below this bound the [double] arithmetic of the extent is exact: the
    input dimensions, the kernel and the strides have at most 50 bits. *)
Definition EXACT : N := 2 ^ 50.

Definition exact_sizes (st : State) : Prop :=
  (inputWidth st < EXACT)%N /\ (inputHeight st < EXACT)%N
  /\ (kernelWidth st < EXACT)%N /\ (kernelHeight st < EXACT)%N
  /\ (strideWidth st < EXACT)%N /\ (strideHeight st < EXACT)%N.

(** The state that a [Forward] leaves behind for the matching [Backward]. *)
Definition ready (st : State) : Prop :=
  c_rows (inputTemp st) = inputWidth st /\
  c_cols (inputTemp st) = inputHeight st /\
  c_slices (inputTemp st) = outSize st /\
  outSize st = (batchSize st * inSize st)%N /\
  batchSize st <> 0%N /\
  length (cmem (inputTemp st)) = N.to_nat (c_elem (inputTemp st)).

(** [upd] adds [w R k] to the element at offset [k] of a matrix of [R] rows
    and keeps its shape. *)
Definition adds (upd : mat -> mat) (w : N -> N -> Qc) : Prop :=
  forall m : mat,
    n_rows (upd m) = n_rows m /\ n_cols (upd m) = n_cols m
    /\ length (mem (upd m)) = length (mem m)
    /\ forall k, (N.to_nat k < length (mem m))%nat ->
         get (mem (upd m)) k = (get (mem m) k + w (n_rows m) k)%Qc.

(** A matrix filled with one value. *)
Definition filled (v : Qc) (r c : N) : mat :=
  Mat r c (repeat v (N.to_nat (r * c))).

(** ** Concrete layers and tensors *)

Definition q (a : Z) (b : positive) : Qc := Q2Qc (a # b).

(** Kernel 2 x 2, stride 2, floor mode, on a 4 x 4 input. *)
Definition pool_2x2_on_4x4 : State :=
  set_input_dims (MeanPoolingType 2 2 2 2 true) 4 4.

(** Kernel 1 x 1, stride 1, on a 2 x 3 input. *)
Definition pool_1x1_on_2x3 : State :=
  set_input_dims (MeanPoolingType 1 1 1 1 true) 2 3.

(** Kernel 2 x 2, stride 1, floor mode, on a 3 x 3 input: the four windows
    overlap. *)
Definition pool_2x2_stride1_on_3x3 : State :=
  set_input_dims (MeanPoolingType 2 2 1 1 true) 3 3.

(** Two samples of one 3 x 3 channel each, and an output gradient for them. *)
Definition sample_9x2 : mat :=
  Mat 9 2 [q 1 1; q 2 1; q 3 1; q 4 1; q 5 1; q 6 1; q 7 1; q 8 1; q 9 1;
           q 1 2; q 1 3; q 1 4; q 1 5; q 1 6; q 1 7; q 1 8; q 1 9; q 2 3].

Definition grad_4x2 : mat :=
  Mat 4 2 [q 1 1; q (-1) 2; q 2 1; q 0 1; q 3 4; q 1 1; q (-2) 1; q 5 1].

(** The layer above after a [Forward], and after the [Backward] that
    follows it. *)
Definition after_forward : State :=
  match Forward pool_2x2_stride1_on_3x3 sample_9x2 with
  | Some (st, _) => st
  | None => pool_2x2_stride1_on_3x3
  end.

Definition after_backward : State :=
  match Backward after_forward sample_9x2 grad_4x2 with
  | Some (st, _) => st
  | None => after_forward
  end.

(** Two samples of one 2 x 3 channel each. *)
Definition sample_6x2 : mat :=
  Mat 6 2 [q 1 1; q 2 1; q 3 1; q 4 1; q 5 1; q 6 1;
           q 1 2; q 1 3; q 1 4; q 1 5; q 1 6; q 1 7].

End MeanPooling.

(* ===================================================================== *)
(** * RecurrentAttention *)
(* ===================================================================== *)

Module RecurrentAttention.

(** ** Checked matrix operations

    Armadillo checks bounds and sizes and throws; [std::vector::back] on an
    empty vector has no defined behaviour. *)

Inductive error : Type :=
| index_out_of_bounds
| incompatible_dimensions
| undefined_behaviour
| out_of_fuel.

Inductive outcome (A : Type) : Type :=
| Ok (a : A)
| Throw (e : error).

Arguments Ok {A} a.
Arguments Throw {A} e.

(** [m.submat(r1, c1, r2, c2)] read as a matrix. *)
Definition submat (m : mat) (r1 c1 r2 c2 : N) : outcome mat :=
  if ((r2 <? r1) || (c2 <? c1) || (n_rows m <=? r2) || (n_cols m <=? c2))%N
  then Throw index_out_of_bounds
  else
    let h := (r2 - r1 + 1)%N in
    let w := (c2 - c1 + 1)%N in
    Ok (Mat h w (flat_map (fun c => map (fun r => at_ m (r1 + r) (c1 + c))
                                        (range h))
                          (range w))).

(** [m.submat(r1, c1, r2, c2) = x]. *)
Definition set_submat (m : mat) (r1 c1 r2 c2 : N) (x : mat) : outcome mat :=
  if ((r2 <? r1) || (c2 <? c1) || (n_rows m <=? r2) || (n_cols m <=? c2))%N
  then Throw index_out_of_bounds
  else if negb ((n_rows x =? r2 - r1 + 1) && (n_cols x =? c2 - c1 + 1))%N
  then Throw incompatible_dimensions
  else
    Ok (Mat (n_rows m) (n_cols m)
            (mapi (fun k v =>
                     let r := (k mod n_rows m)%N in
                     let c := (k / n_rows m)%N in
                     if ((r1 <=? r) && (r <=? r2) && (c1 <=? c) && (c <=? c2))%N
                     then at_ x (r - r1) (c - c1) else v)
                  (mem m))).

(** [m.col(c)] read as a matrix. *)
Definition col (m : mat) (c : N) : outcome mat :=
  if (n_cols m <=? c)%N then Throw index_out_of_bounds
  else Ok (Mat (n_rows m) 1
               (map (fun r => at_ m r c) (range (n_rows m)))).

(** [m.col(c) = x]. *)
Definition set_col (m : mat) (c : N) (x : mat) : outcome mat :=
  if (n_cols m <=? c)%N then Throw index_out_of_bounds
  else if negb ((n_rows x =? n_rows m) && (n_cols x =? 1))%N
  then Throw incompatible_dimensions
  else
    Ok (Mat (n_rows m) (n_cols m)
            (mapi (fun k v => if (k / n_rows m =? c)%N
                              then get (mem x) (k mod n_rows m) else v)
                  (mem m))).

(** Element-wise sum of two memories of the same length. *)
Definition mem_add (a b : list Qc) : list Qc :=
  mapi (fun k v => (v + get b k)%Qc) a.

(** [g += x]. *)
Definition add_assign (g x : mat) : outcome mat :=
  if negb ((n_rows g =? n_rows x) && (n_cols g =? n_cols x))%N
  then Throw incompatible_dimensions
  else Ok (Mat (n_rows g) (n_cols g) (mem_add (mem g) (mem x))).

(** ** The layer interface of the two sub-modules *)

Class Layer (S : Type) : Type := {
  layer_forward : S -> mat -> S * mat;
  layer_backward : S -> mat -> mat -> S * mat;
  layer_gradient : S -> mat -> mat -> S * mat;
  layer_parameters : S -> mat
}.

(** A sub-module: its own state, its output parameter and its gradient. *)
Record SubLayer (S : Type) : Type := MkSub {
  core : S;
  outputParameter : mat;
  gradient : mat
}.

Definition sub_new {S : Type} (s : S) : SubLayer S :=
  MkSub s (Mat 0 0 []) (Mat 0 0 []).

Definition Parameters {S : Type} `{Layer S} (l : SubLayer S) : mat :=
  layer_parameters (core l).

Inductive which : Type := Rnn | Action.

(** A call of a sub-module: ghost data, that no code reads. *)
Inductive event : Type :=
| EvForward (w : which) (input output : mat)
| EvBackward (w : which) (input gy g : mat).

Section Core.

Context {R A : Type} `{LR : Layer R} `{LA : Layer A}.

(** The members of [RecurrentAttention], and the history of the calls of the
    two sub-modules. *)
Record State : Type := MkState {
  outSize : N;
  rnnModule : SubLayer R;
  actionModule : SubLayer A;
  rho : N;
  forwardStep : N;
  backwardStep : N;
  deterministic : bool;
  initialInput : mat;
  moduleOutputParameter : list mat;
  intermediateGradient : mat;
  attentionGradient : mat;
  actionError : mat;
  recurrentError : mat;
  actionDelta : mat;
  rnnDelta : mat;
  history : list event
}.

Definition empty_mat : mat := Mat 0 0 [].

(** The four-argument constructor; [network] is [rnnModule; actionModule]. *)
Definition RecurrentAttention_new (outSize' : N) (rnn : R) (action : A)
    (rho' : N) : State :=
  MkState outSize' (sub_new rnn) (sub_new action) rho' 0 0 false
          empty_mat [] empty_mat empty_mat empty_mat empty_mat empty_mat
          empty_mat [].

Definition network_size : N := 2.

Definition set_rnnModule (v : SubLayer R) (s : State) : State :=
  MkState (outSize s) v (actionModule s) (rho s) (forwardStep s)
    (backwardStep s) (deterministic s) (initialInput s)
    (moduleOutputParameter s) (intermediateGradient s) (attentionGradient s)
    (actionError s) (recurrentError s) (actionDelta s) (rnnDelta s)
    (history s).

Definition set_actionModule (v : SubLayer A) (s : State) : State :=
  MkState (outSize s) (rnnModule s) v (rho s) (forwardStep s)
    (backwardStep s) (deterministic s) (initialInput s)
    (moduleOutputParameter s) (intermediateGradient s) (attentionGradient s)
    (actionError s) (recurrentError s) (actionDelta s) (rnnDelta s)
    (history s).

Definition set_forwardStep (v : N) (s : State) : State :=
  MkState (outSize s) (rnnModule s) (actionModule s) (rho s) v
    (backwardStep s) (deterministic s) (initialInput s)
    (moduleOutputParameter s) (intermediateGradient s) (attentionGradient s)
    (actionError s) (recurrentError s) (actionDelta s) (rnnDelta s)
    (history s).

Definition set_backwardStep (v : N) (s : State) : State :=
  MkState (outSize s) (rnnModule s) (actionModule s) (rho s) (forwardStep s)
    v (deterministic s) (initialInput s)
    (moduleOutputParameter s) (intermediateGradient s) (attentionGradient s)
    (actionError s) (recurrentError s) (actionDelta s) (rnnDelta s)
    (history s).

Definition set_initialInput (v : mat) (s : State) : State :=
  MkState (outSize s) (rnnModule s) (actionModule s) (rho s) (forwardStep s)
    (backwardStep s) (deterministic s) v
    (moduleOutputParameter s) (intermediateGradient s) (attentionGradient s)
    (actionError s) (recurrentError s) (actionDelta s) (rnnDelta s)
    (history s).

Definition set_moduleOutputParameter (v : list mat) (s : State) : State :=
  MkState (outSize s) (rnnModule s) (actionModule s) (rho s) (forwardStep s)
    (backwardStep s) (deterministic s) (initialInput s)
    v (intermediateGradient s) (attentionGradient s)
    (actionError s) (recurrentError s) (actionDelta s) (rnnDelta s)
    (history s).

Definition set_intermediateGradient (v : mat) (s : State) : State :=
  MkState (outSize s) (rnnModule s) (actionModule s) (rho s) (forwardStep s)
    (backwardStep s) (deterministic s) (initialInput s)
    (moduleOutputParameter s) v (attentionGradient s)
    (actionError s) (recurrentError s) (actionDelta s) (rnnDelta s)
    (history s).

Definition set_attentionGradient (v : mat) (s : State) : State :=
  MkState (outSize s) (rnnModule s) (actionModule s) (rho s) (forwardStep s)
    (backwardStep s) (deterministic s) (initialInput s)
    (moduleOutputParameter s) (intermediateGradient s) v
    (actionError s) (recurrentError s) (actionDelta s) (rnnDelta s)
    (history s).

Definition set_actionError (v : mat) (s : State) : State :=
  MkState (outSize s) (rnnModule s) (actionModule s) (rho s) (forwardStep s)
    (backwardStep s) (deterministic s) (initialInput s)
    (moduleOutputParameter s) (intermediateGradient s) (attentionGradient s)
    v (recurrentError s) (actionDelta s) (rnnDelta s)
    (history s).

Definition set_recurrentError (v : mat) (s : State) : State :=
  MkState (outSize s) (rnnModule s) (actionModule s) (rho s) (forwardStep s)
    (backwardStep s) (deterministic s) (initialInput s)
    (moduleOutputParameter s) (intermediateGradient s) (attentionGradient s)
    (actionError s) v (actionDelta s) (rnnDelta s)
    (history s).

Definition set_actionDelta (v : mat) (s : State) : State :=
  MkState (outSize s) (rnnModule s) (actionModule s) (rho s) (forwardStep s)
    (backwardStep s) (deterministic s) (initialInput s)
    (moduleOutputParameter s) (intermediateGradient s) (attentionGradient s)
    (actionError s) (recurrentError s) v (rnnDelta s)
    (history s).

Definition set_rnnDelta (v : mat) (s : State) : State :=
  MkState (outSize s) (rnnModule s) (actionModule s) (rho s) (forwardStep s)
    (backwardStep s) (deterministic s) (initialInput s)
    (moduleOutputParameter s) (intermediateGradient s) (attentionGradient s)
    (actionError s) (recurrentError s) (actionDelta s) v
    (history s).

Definition log (e : event) (s : State) : State :=
  MkState (outSize s) (rnnModule s) (actionModule s) (rho s) (forwardStep s)
    (backwardStep s) (deterministic s) (initialInput s)
    (moduleOutputParameter s) (intermediateGradient s) (attentionGradient s)
    (actionError s) (recurrentError s) (actionDelta s) (rnnDelta s)
    (history s ++ [e]).

(** ** Computations on the object: the state survives a throw *)

Definition M (T : Type) : Type := State -> outcome T * State.

Definition ret {T : Type} (x : T) : M T := fun s => (Ok x, s).

Definition bind {T U : Type} (m : M T) (f : T -> M U) : M U :=
  fun s => match m s with
           | (Ok x, s') => f x s'
           | (Throw e, s') => (Throw e, s')
           end.

Definition get_state : M State := fun s => (Ok s, s).

Definition modify (f : State -> State) : M unit := fun s => (Ok tt, f s).

Definition lift {T : Type} (o : outcome T) : M T := fun s => (o, s).

Definition when (b : bool) (m : M unit) : M unit := if b then m else ret tt.

End Core.

Arguments State R A : clear implicits.

Declare Scope ra_scope.
Delimit Scope ra_scope with ra.
Notation "x <- m ;; k" := (bind m (fun x => k))
  (at level 61, m at next level, right associativity) : ra_scope.
Notation "m ;; k" := (bind m (fun _ => k))
  (at level 61, right associativity) : ra_scope.
Local Open Scope ra_scope.

Section Methods.

Context {R A : Type} `{LR : Layer R} `{LA : Layer A}.

#[local] Abbreviation State := (State R A).
#[local] Abbreviation M := (@M R A).

(** [for (; cond; ) body], with the number of iterations bounded by [fuel]. *)
Fixpoint while (fuel : nat) (cond : State -> bool) (body : M unit) : M unit :=
  fun s =>
    if cond s then
      match fuel with
      | O => (Throw out_of_fuel, s)
      | S fuel' => (body ;; while fuel' cond body) s
      end
    else (Ok tt, s).

(** [for (size_t l = 0; l < n; ++l) body(l)]. *)
Fixpoint for_each (ls : list N) (body : N -> M unit) : M unit :=
  match ls with
  | [] => ret tt
  | l :: ls' => body l ;; for_each ls' body
  end.

(** [actionModule->Forward(input, actionModule->OutputParameter())]. *)
Definition action_Forward (input : mat) : M unit :=
  modify (fun s =>
    let a := actionModule s in
    let (c, out) := layer_forward (core a) input in
    log (EvForward Action input out)
        (set_actionModule (MkSub c out (gradient a)) s)).

(** [rnnModule->Forward(input, rnnModule->OutputParameter())]. *)
Definition rnn_Forward (input : mat) : M unit :=
  modify (fun s =>
    let r := rnnModule s in
    let (c, out) := layer_forward (core r) input in
    log (EvForward Rnn input out)
        (set_rnnModule (MkSub c out (gradient r)) s)).

(** [actionModule->Backward(input, actionError, actionDelta)]. *)
Definition action_Backward (input : mat) : M unit :=
  modify (fun s =>
    let a := actionModule s in
    let (c, g) := layer_backward (core a) input (actionError s) in
    log (EvBackward Action input (actionError s) g)
        (set_actionDelta g
           (set_actionModule (MkSub c (outputParameter a) (gradient a)) s))).

(** [rnnModule->Backward(input, recurrentError, rnnDelta)]. *)
Definition rnn_Backward (input : mat) : M unit :=
  modify (fun s =>
    let r := rnnModule s in
    let (c, g) := layer_backward (core r) input (recurrentError s) in
    log (EvBackward Rnn input (recurrentError s) g)
        (set_rnnDelta g
           (set_rnnModule (MkSub c (outputParameter r) (gradient r)) s))).

(** [network[l]->OutputParameter()]; an index past the two modules has no
    defined behaviour. *)
Definition network_OutputParameter (l : N) : M mat :=
  fun s =>
    if (l =? 0)%N then (Ok (outputParameter (rnnModule s)), s)
    else if (l =? 1)%N then (Ok (outputParameter (actionModule s)), s)
    else (Throw undefined_behaviour, s).

(** The output parameter of [network[l]] is loaded from [m].  The source
    writes [network[...] = moduleOutputParameter.back()]; the element of
    [network] is a layer, and the assignment is read as the load of its output
    parameter (load_output_parameter_visitor.hpp is included for it). *)
Definition network_load (l : N) (m : mat) : M unit :=
  fun s =>
    if (l =? 0)%N then
      let r := rnnModule s in
      (Ok tt, set_rnnModule (MkSub (core r) m (gradient r)) s)
    else if (l =? 1)%N then
      let a := actionModule s in
      (Ok tt, set_actionModule (MkSub (core a) m (gradient a)) s)
    else (Throw undefined_behaviour, s).

(** [moduleOutputParameter.push_back(m)]. *)
Definition push_back (m : mat) : M unit :=
  modify (fun s =>
    set_moduleOutputParameter (moduleOutputParameter s ++ [m]) s).

(** [moduleOutputParameter.back()]. *)
Definition back : M mat :=
  fun s =>
    match moduleOutputParameter s with
    | [] => (Throw undefined_behaviour, s)
    | x :: l => (Ok (last l x), s)
    end.

(** [moduleOutputParameter.pop_back()]. *)
Definition pop_back : M unit :=
  fun s =>
    match moduleOutputParameter s with
    | [] => (Throw undefined_behaviour, s)
    | _ :: _ =>
        (Ok tt, set_moduleOutputParameter
                  (removelast (moduleOutputParameter s)) s)
    end.

(** *** Forward *)

(** The glimpse input of one step. *)
Definition glimpse (input actionOutput : mat) : outcome mat :=
  match set_col (zeros (n_elem input) 2) 0 input with
  | Ok g => set_submat g 0 1 (size_sub (n_elem actionOutput) 1) 1 actionOutput
  | Throw e => Throw e
  end.

(** The body of the loop of [Forward]. *)
Definition ForwardStep (input : mat) : M unit :=
  s <- get_state ;;
  (if (forwardStep s =? 0)%N
   then action_Forward (initialInput s)
   else action_Forward (outputParameter (rnnModule s))) ;;
  s <- get_state ;;
  glimpseInput <- lift (glimpse input (outputParameter (actionModule s))) ;;
  rnn_Forward glimpseInput ;;
  s <- get_state ;;
  when (negb (deterministic s))
       (for_each (range network_size)
          (fun l => m <- network_OutputParameter l ;; push_back m)).

(** The condition and one iteration, with its increment, of the loop. *)
Definition forward_cond (s : State) : bool := (forwardStep s <? rho s)%N.

Definition forward_body (input : mat) : M unit :=
  ForwardStep input ;;
  modify (fun s => set_forwardStep (forwardStep s + 1) s).

Definition Forward (input : mat) : M mat :=
  s <- get_state ;;
  when (is_empty (initialInput s))
       (modify (set_initialInput (zeros (outSize s) (n_cols input)))) ;;
  modify (set_forwardStep 0) ;;
  s <- get_state ;;
  while (N.to_nat (rho s)) forward_cond (forward_body input) ;;
  s <- get_state ;;
  let output := outputParameter (rnnModule s) in
  modify (set_forwardStep 0) ;;
  modify (set_backwardStep 0) ;;
  ret output.

(** *** Backward *)

(** Modelled from the spec: [IntermediateGradient] is declared in
    recurrent_attention.hpp, which is not among the sources.  It
    accumulates the step's per-module gradient contributions into the running
    attention-gradient total: the recurrent module's block first, then the
    action module's block. *)
Definition IntermediateGradient : M unit :=
  modify (fun s =>
    let a := actionModule s in
    let r := rnnModule s in
    let (ca, ga) :=
      layer_gradient (core a) (outputParameter a) (actionError s) in
    let (cr, gr) :=
      layer_gradient (core r) (outputParameter r) (recurrentError s) in
    let total := mem gr ++ mem ga in
    set_attentionGradient
      (Mat (n_rows (attentionGradient s)) (n_cols (attentionGradient s))
           (mem_add (mem (attentionGradient s)) total))
      (set_intermediateGradient
         (Mat (n_rows (intermediateGradient s))
              (n_cols (intermediateGradient s)) total)
         (set_rnnModule (MkSub cr (outputParameter r) gr)
            (set_actionModule (MkSub ca (outputParameter a) ga) s)))).

(** [arma::mat(base.memptr() + offset, rows, cols, false, false)]: the
    elements that the view shows when it is bound.  The view shares the
    memory of [base]; what is written through it later is written to
    [base] as well, which [IntermediateGradient] does for both and the model
    of [Gradient] leaves out. *)
Definition mat_at (base : mat) (offset rows cols : N) : mat :=
  mat_of_mem (skipn (N.to_nat offset) (mem base)) rows cols.

(** The inner loop of [Backward]: the output parameters of the modules are
    loaded from the back of the stack, last module first. *)
Definition restore_snapshots : M unit :=
  for_each (range network_size)
    (fun l => m <- back ;;
              network_load (size_sub (size_sub network_size 1) l) m ;;
              pop_back).

(** [g = rnnDelta.col(1)] in the first iteration of a call and
    [g += rnnDelta.col(1)] in the others. *)
Definition input_gradient (g : mat) : M mat :=
  s <- get_state ;;
  c <- lift (col (rnnDelta s) 1) ;;
  (if (backwardStep s =? 0)%N then ret c else lift (add_assign g c)).

(** The body of the loop of [Backward]; [g] is the reference argument. *)
Definition BackwardStep (gy g : mat) : M mat :=
  s <- get_state ;;
  modify (set_recurrentError
            (if (backwardStep s =? 0)%N then gy else actionDelta s)) ;;
  restore_snapshots ;;
  s <- get_state ;;
  (if (backwardStep s =? size_sub (rho s) 1)%N
   then action_Backward (outputParameter (actionModule s))
   else action_Backward (initialInput s)) ;;
  s <- get_state ;;
  rnn_Backward (outputParameter (rnnModule s)) ;;
  g' <- input_gradient g ;;
  IntermediateGradient ;;
  ret g'.

(** The loop of [Backward]: [g] is threaded through the iterations. *)
Fixpoint BackwardLoop (fuel : nat) (gy g : mat) : M mat :=
  fun s =>
    if (backwardStep s <? rho s)%N then
      match fuel with
      | O => (Throw out_of_fuel, s)
      | S fuel' =>
          (g' <- BackwardStep gy g ;;
           modify (fun s => set_backwardStep (backwardStep s + 1) s) ;;
           BackwardLoop fuel' gy g') s
      end
    else (Ok g, s).

Definition Backward (input gy g : mat) : M mat :=
  s <- get_state ;;
  when (is_empty (intermediateGradient s) && (backwardStep s =? 0)%N)
       (modify (fun s =>
          let weights := (n_elem (Parameters (rnnModule s))
                          + n_elem (Parameters (actionModule s)))%N in
          set_actionError
            (zeros (n_rows (outputParameter (actionModule s)))
                   (n_cols (outputParameter (actionModule s))))
            (set_attentionGradient (zeros weights 1)
               (set_intermediateGradient (zeros weights 1) s)))) ;;
  s <- get_state ;;
  when (backwardStep s =? 0)%N
       (modify (fun s =>
          let r := rnnModule s in
          let a := actionModule s in
          let offset := n_elem (Parameters r) in
          set_attentionGradient
            (zeros (n_rows (attentionGradient s))
                   (n_cols (attentionGradient s)))
            (set_actionModule
               (MkSub (core a) (outputParameter a)
                      (mat_at (intermediateGradient s) offset
                              (n_rows (Parameters a)) (n_cols (Parameters a))))
               (set_rnnModule
                  (MkSub (core r) (outputParameter r)
                         (mat_at (intermediateGradient s) 0
                                 (n_rows (Parameters r))
                                 (n_cols (Parameters r))))
                  s)))) ;;
  s <- get_state ;;
  BackwardLoop (N.to_nat (rho s)) gy g.

(** *** Gradient *)

Definition Gradient (input error gradient' : mat) : M unit :=
  s <- get_state ;;
  let nr := n_elem (Parameters (rnnModule s)) in
  offset <-
    (if negb (nr =? 0)%N then
       b <- lift (submat (attentionGradient s) 0 0 (size_sub (0 + nr) 1) 0) ;;
       modify (fun s =>
         let r := rnnModule s in
         set_rnnModule (MkSub (core r) (outputParameter r) b) s) ;;
       ret (0 + nr)%N
     else ret 0%N) ;;
  s <- get_state ;;
  let na := n_elem (Parameters (actionModule s)) in
  when (negb (na =? 0)%N)
       (b <- lift (submat (attentionGradient s) offset 0
                          (size_sub (offset + na) 1) 0) ;;
        modify (fun s =>
          let a := actionModule s in
          set_actionModule (MkSub (core a) (outputParameter a) b) s)).

End Methods.

(** ** Vocabulary of the properties *)

(** One step of [Forward] as the history shows it. *)
Record fstep : Type := MkFstep {
  f_ain : mat;       (* the input of the action module *)
  f_aout : mat;      (* its output *)
  f_glimpse : mat;   (* the input of the recurrent module *)
  f_rout : mat       (* its output *)
}.

Definition fevents (x : fstep) : list event :=
  [EvForward Action (f_ain x) (f_aout x);
   EvForward Rnn (f_glimpse x) (f_rout x)].

(** The snapshots that a step pushes, in the order of the pushes. *)
Definition fpushed (x : fstep) : list mat := [f_rout x; f_aout x].

(** The steps are chained: the action module reads [prev], the recurrent
    module reads the glimpse built from the action output, and the next step
    reads the recurrent output. *)
Fixpoint fchain (input prev : mat) (tr : list fstep) : Prop :=
  match tr with
  | [] => True
  | x :: tr' =>
      f_ain x = prev
      /\ glimpse input (f_aout x) = Ok (f_glimpse x)
      /\ fchain input (f_rout x) tr'
  end.

(** What the action module reads in the step that starts in state [s]. *)
Definition action_source {R A : Type} (s : State R A) : mat :=
  if (forwardStep s =? 0)%N then initialInput s
  else outputParameter (rnnModule s).

(** The state in which [Forward] enters its loop. *)
Definition Forward_entry {R A : Type} (input : mat) (s : State R A)
    : State R A :=
  set_forwardStep 0
    (if is_empty (initialInput s)
     then set_initialInput (zeros (outSize s) (n_cols input)) s
     else s).

(** The shape and the two columns of a glimpse. *)
Definition glimpse_columns (input actionOutput g : mat) : Prop :=
  n_rows g = n_elem input /\ n_cols g = 2%N
  /\ forall r, (r < n_elem input)%N ->
       at_ g r 0 = get (mem input) r
       /\ at_ g r 1 = if (r <? n_elem actionOutput)%N
                      then get (mem actionOutput) r else 0%Qc.

(** One iteration of [Backward] as the history shows it. *)
Record bstep : Type := MkBstep {
  b_ain : mat;       (* the input of the action module's Backward *)
  b_aerr : mat;      (* its error *)
  b_adelta : mat;    (* the action delta it produces *)
  b_rin : mat;       (* the input of the recurrent module's Backward *)
  b_rerr : mat;      (* the recurrent error *)
  b_rdelta : mat     (* the recurrent delta it produces *)
}.

Definition bevents (x : bstep) : list event :=
  [EvBackward Action (b_ain x) (b_aerr x) (b_adelta x);
   EvBackward Rnn (b_rin x) (b_rerr x) (b_rdelta x)].

(** The recurrent errors are chained: an iteration reads [err], the next one
    reads the action delta that this one produced. *)
Fixpoint bchain (err : mat) (tr : list bstep) : Prop :=
  match tr with
  | [] => True
  | x :: tr' => b_rerr x = err /\ bchain (b_adelta x) tr'
  end.

(** The state in which [Backward] enters its loop: the gradient buffers are
    allocated on the first entry and bound at the start of each pass. *)
Definition Backward_entry {R A : Type} `{Layer R} `{Layer A}
    (s : State R A) : State R A :=
  let s1 :=
    if is_empty (intermediateGradient s) && (backwardStep s =? 0)%N then
      let weights := (n_elem (Parameters (rnnModule s))
                      + n_elem (Parameters (actionModule s)))%N in
      set_actionError
        (zeros (n_rows (outputParameter (actionModule s)))
               (n_cols (outputParameter (actionModule s))))
        (set_attentionGradient (zeros weights 1)
           (set_intermediateGradient (zeros weights 1) s))
    else s in
  if (backwardStep s1 =? 0)%N then
    let r := rnnModule s1 in
    let a := actionModule s1 in
    let offset := n_elem (Parameters r) in
    set_attentionGradient
      (zeros (n_rows (attentionGradient s1)) (n_cols (attentionGradient s1)))
      (set_actionModule
         (MkSub (core a) (outputParameter a)
                (mat_at (intermediateGradient s1) offset
                        (n_rows (Parameters a)) (n_cols (Parameters a))))
         (set_rnnModule
            (MkSub (core r) (outputParameter r)
                   (mat_at (intermediateGradient s1) 0
                           (n_rows (Parameters r)) (n_cols (Parameters r))))
            s1))
  else s1.

(** Column 1 of a matrix that has one. *)
Definition column1 (d : mat) : mat :=
  Mat (n_rows d) 1 (map (fun r => at_ d r 1) (range (n_rows d))).

Definition plus (g c : mat) : mat :=
  Mat (n_rows g) (n_cols g) (mem_add (mem g) (mem c)).

(** The input gradient after the iterations that produced the deltas [ds]:
    the first iteration of a call assigns, the others add. *)
Fixpoint accumulate (first : bool) (g : mat) (ds : list mat) : mat :=
  match ds with
  | [] => g
  | d :: ds' =>
      accumulate false (if first then column1 d else plus g (column1 d)) ds'
  end.

(** Rows [off .. off + n - 1] of column 0 of [G], as a column. *)
Definition block (G : mat) (off n : N) : mat :=
  Mat n 1 (map (fun r => at_ G (off + r) 0) (range n)).

(** A snapshot pair as the stack holds it. *)
Definition pair_pushed (p : mat * mat) : list mat := [fst p; snd p].

(** The steps are the calls that the two modules make: the action module,
    in the state [ca], maps the step's action input to its action output,
    the recurrent module, in the state [cr], maps the glimpse to its output,
    and the next step finds the modules in the states that the two calls
    leave; [cr'] and [ca'] are their states after the last step. *)
Fixpoint fcalls {R A : Type} `{Layer R} `{Layer A} (cr : R) (ca : A)
    (tr : list fstep) (cr' : R) (ca' : A) : Prop :=
  match tr with
  | [] => cr' = cr /\ ca' = ca
  | x :: tr' =>
      f_aout x = snd (layer_forward ca (f_ain x))
      /\ f_rout x = snd (layer_forward cr (f_glimpse x))
      /\ fcalls (fst (layer_forward cr (f_glimpse x)))
                (fst (layer_forward ca (f_ain x))) tr' cr' ca'
  end.

(** The [k] snapshot pairs on top of a stack that is read from its top
    down, each as (recurrent output, action output). *)
Fixpoint top_pairs (k : nat) (l : list mat) : list (mat * mat) :=
  match k, l with
  | S k', a :: r :: l' => (r, a) :: top_pairs k' l'
  | _, _ => []
  end.

(** The iterations of [Backward] are the calls that the two modules make.
    Iteration [k] pops the pair (r, a); the action module, in the state
    [ca], maps the popped [a] (in the iteration [last]) or the initial action
    input [ini] and the action error [aerr] to the action delta; the
    recurrent module, in the state [cr], maps the popped [r] and the
    recurrent error to the recurrent delta; and the next iteration finds the
    modules in the states that [Backward] and then [Gradient], which
    [IntermediateGradient] calls on the same inputs, leave. *)
Fixpoint bcalls {R A : Type} `{Layer R} `{Layer A} (ini aerr : mat)
    (last k : N) (cr : R) (ca : A) (snaps : list (mat * mat))
    (tr : list bstep) (cr' : R) (ca' : A) : Prop :=
  match tr, snaps with
  | [], [] => cr' = cr /\ ca' = ca
  | x :: tr', (r, a) :: snaps' =>
      b_ain x = (if (k =? last)%N then a else ini)
      /\ b_aerr x = aerr
      /\ b_adelta x = snd (layer_backward ca (b_ain x) aerr)
      /\ b_rin x = r
      /\ b_rdelta x = snd (layer_backward cr r (b_rerr x))
      /\ bcalls ini aerr last (k + 1)
           (fst (layer_gradient (fst (layer_backward cr r (b_rerr x)))
                                r (b_rerr x)))
           (fst (layer_gradient (fst (layer_backward ca (b_ain x) aerr))
                                a aerr))
           snaps' tr' cr' ca'
  | _, _ => False
  end.

End RecurrentAttention.

(* ===================================================================== *)
(** * Two small sub-modules

    A concrete recurrent module and a concrete action module, on which the
    layers can be run. *)
(* ===================================================================== *)

Module Toy.

Import RecurrentAttention.

(** A recurrent module with one weight and a hidden accumulator.  Its output
    is a 2 x 1 column; its input gradient has three rows and two columns. *)
Record rnn : Type := MkRnn { weight : Qc; hidden : Qc }.

#[export] Instance rnn_layer : Layer rnn := {
  layer_forward s x :=
    let h := (hidden s + weight s * sum (mem x))%Qc in
    (MkRnn (weight s) h, Mat 2 1 [h; (h + 1)%Qc]);
  layer_backward s x gy :=
    let e := sum (mem gy) in
    (s, Mat 3 2 [e; e; e;
                 (weight s * e)%Qc; (hidden s + e)%Qc; (e + sum (mem x))%Qc]);
  layer_gradient s x e := (s, Mat 1 1 [(sum (mem x) * sum (mem e))%Qc]);
  layer_parameters s := Mat 1 1 [weight s]
}.

(** An action module with two weights; its output is a 2 x 1 column. *)
Record action : Type := MkAction { bias : Qc; gain : Qc }.

#[export] Instance action_layer : Layer action := {
  layer_forward s x :=
    (s, Mat 2 1 [(bias s + sum (mem x))%Qc; gain s]);
  layer_backward s x gy :=
    (s, Mat 2 1 [(gain s * sum (mem gy) + 1)%Qc; (bias s + sum (mem x))%Qc]);
  layer_gradient s x e := (s, Mat 2 1 [sum (mem e); sum (mem x)]);
  layer_parameters s := Mat 2 1 [bias s; gain s]
}.

Definition q (a : Z) (b : positive) : Qc := Q2Qc (a # b).

Definition layer0 : State rnn action :=
  RecurrentAttention_new 2 (MkRnn (q 1 2) (q 0 1)) (MkAction (q 1 1) (q 3 1)) 3.

Definition input0 : mat := Mat 3 1 [q 1 1; q 2 1; q 3 1].

Definition gy0 : mat := Mat 2 1 [q 1 1; q (-1) 2].

(** [layer0] after one [Forward]. *)
Definition trained0 : State rnn action := snd (Forward input0 layer0).

(** [layer0] after one [Forward] and the matching [Backward]. *)
Definition backpropagated0 : State rnn action :=
  snd (Backward input0 gy0 empty_mat trained0).

(** A layer whose action channel has no width, and an input of two columns. *)
Definition narrow0 : State rnn action :=
  RecurrentAttention_new 0 (MkRnn (q 1 2) (q 0 1)) (MkAction (q 1 1) (q 3 1)) 3.

Definition input_2cols : mat :=
  Mat 3 2 [q 1 1; q 2 1; q 3 1; q 4 1; q 5 1; q 6 1].

End Toy.

(* ===================================================================== *)
(** * MeanPooling: runs of the layer *)
(* ===================================================================== *)

Module MeanPoolingRuns.

Import MeanPooling.

(** The state and the output that a defined [Forward] leaves. *)
Definition forwarded (st : State) (input : mat) : State :=
  match Forward st input with
  | Some (st1, _) => st1
  | None => st
  end.

Definition pooled (st : State) (input : mat) : mat :=
  match Forward st input with
  | Some (_, out) => out
  | None => input
  end.

(** The same for [Backward]. *)
Definition backwarded (st : State) (input gy : mat) : State :=
  match Backward st input gy with
  | Some (st2, _) => st2
  | None => st
  end.

Definition unpooled (st : State) (input gy : mat) : mat :=
  match Backward st input gy with
  | Some (_, g) => g
  | None => gy
  end.

(** [arma::join_rows(a, b)]: the columns of [a], then those of [b]. *)
Definition join_rows (a b : mat) : mat :=
  Mat (n_rows a) (n_cols a + n_cols b) (mem a ++ mem b).

(** ** Concrete layers *)

(** Kernel 3, stride 2, ceil mode, on a 6 x 6 input: the last window of each
    direction is clipped. *)
Definition pool_3x3_ceil_on_6x6 : State :=
  set_input_dims (MeanPoolingType 3 3 2 2 false) 6 6.

(** Kernel 3, stride 2, floor mode, on a 6 x 6 input. *)
Definition pool_3x3_floor_on_6x6 : State :=
  set_input_dims (MeanPoolingType 3 3 2 2 true) 6 6.

(** One sample of one 6 x 6 channel. *)
Definition sample_36x1 : mat :=
  Mat 36 1 (map (fun k => q (Z.of_N k) 1) (range 36)).

(** A second sample, and a layer for one 2 x 3 channel. *)
Definition sample_6x1 : mat :=
  Mat 6 1 [q 1 1; q 2 1; q 3 1; q 4 1; q 5 1; q 6 1].

Definition sample_6x1' : mat :=
  Mat 6 1 [q 1 2; q 1 3; q 1 4; q 1 5; q 1 6; q 1 7].

Definition pool_2x2_on_2x3 : State :=
  set_input_dims (MeanPoolingType 2 2 1 1 true) 2 3.

Definition grad_2x1 : mat := Mat 2 1 [q 1 1; q (-1) 2].

Definition grad_2x1' : mat := Mat 2 1 [q 3 4; q 2 1].

End MeanPoolingRuns.

(* ===================================================================== *)
(** * MeanPooling: what [serialize] persists *)
(* ===================================================================== *)

Module MeanPoolingArchive.

Import MeanPooling.
Import Stdlib.Strings.String.
Local Open Scope string_scope.

(** A value that [serialize] hands to the archive. *)
Inductive value : Type :=
| VSize (n : N)
| VBool (b : bool).

(** An archive: the name-value pairs in the order of the calls
    [ar(CEREAL_NVP(member))].  The sub-object of the base class, which
    [serialize] hands over first, belongs to the layer interface and is not
    part of the archive here. *)
Definition archive : Type := list (string * value).

(** [serialize] with an output archive. *)
Definition serialize_save (st : State) : archive :=
  [("kernelWidth", VSize (kernelWidth st));
   ("kernelHeight", VSize (kernelHeight st));
   ("strideWidth", VSize (strideWidth st));
   ("strideHeight", VSize (strideHeight st));
   ("batchSize", VSize (batchSize st));
   ("floor", VBool (floor st));
   ("inputWidth", VSize (inputWidth st));
   ("inputHeight", VSize (inputHeight st));
   ("outputWidth", VSize (outputWidth st));
   ("outputHeight", VSize (outputHeight st))].

(** The next pair of an input archive, read under the name [name] as a
    [size_t] or as a [bool]; the archive throws on anything else. *)
Definition read_size (name : string) (ar : archive) : option (N * archive) :=
  match ar with
  | (n, VSize v) :: ar' => if String.eqb n name then Some (v, ar') else None
  | _ => None
  end.

Definition read_bool (name : string) (ar : archive)
    : option (bool * archive) :=
  match ar with
  | (n, VBool v) :: ar' => if String.eqb n name then Some (v, ar') else None
  | _ => None
  end.

Definition and_then {T U : Type} (o : option (T * archive))
    (k : T -> archive -> option U) : option U :=
  match o with
  | Some (x, ar) => k x ar
  | None => None
  end.

(** [serialize] with an input archive, on the object [st]: the ten members
    are read in the order in which they were written, and every other member
    keeps what the object held. *)
Definition serialize_load (ar : archive) (st : State) : option State :=
  and_then (read_size "kernelWidth" ar) (fun kW ar =>
  and_then (read_size "kernelHeight" ar) (fun kH ar =>
  and_then (read_size "strideWidth" ar) (fun sW ar =>
  and_then (read_size "strideHeight" ar) (fun sH ar =>
  and_then (read_size "batchSize" ar) (fun b ar =>
  and_then (read_bool "floor" ar) (fun fl ar =>
  and_then (read_size "inputWidth" ar) (fun iW ar =>
  and_then (read_size "inputHeight" ar) (fun iH ar =>
  and_then (read_size "outputWidth" ar) (fun oW ar =>
  and_then (read_size "outputHeight" ar) (fun oH _ =>
    Some (MkState kW kH sW sH fl (inSize st) (outSize st) iW iH oW oH
                  (reset st) (deterministic st) (offset st) b
                  (inputTemp st) (outputTemp st) (gTemp st)))))))))))).

(** The output of [Forward], when it has one. *)
Definition output_of (r : option (State * mat)) : option mat :=
  option_map snd r.

(** The members that [Forward] reads before it writes them. *)
Definition configuration (st : State) : N * N * N * N * bool * N * N :=
  (kernelWidth st, kernelHeight st, strideWidth st, strideHeight st,
   floor st, inputWidth st, inputHeight st).

(** What [Forward] leaves in the object besides its output. *)
Definition cache (st : State) : N * N * N * N * N * N * cube * cube :=
  (inSize st, outSize st, offset st, batchSize st, outputWidth st,
   outputHeight st, inputTemp st, outputTemp st).

(** ** A concrete archive *)

(** A layer restored from the archive of [after_forward] into a freshly
    constructed object. *)
Definition restored : State :=
  match serialize_load (serialize_save after_forward)
                       (MeanPoolingType 0 0 0 0 false) with
  | Some st => st
  | None => after_forward
  end.

End MeanPoolingArchive.

(* ===================================================================== *)
(** * RecurrentAttention: the life of an object *)
(* ===================================================================== *)

Module RecurrentAttentionLife.

Import RecurrentAttention.
Local Open Scope ra_scope.

Section Life.

Context {R A : Type} `{LR : Layer R} `{LA : Layer A}.

#[local] Abbreviation State := (State R A).
#[local] Abbreviation M := (@M R A).

(** [Deterministic() = v], through the accessor of the header. *)
Definition set_deterministic (v : bool) (s : State) : State :=
  MkState (outSize s) (rnnModule s) (actionModule s) (rho s) (forwardStep s)
    (backwardStep s) v (initialInput s)
    (moduleOutputParameter s) (intermediateGradient s) (attentionGradient s)
    (actionError s) (recurrentError s) (actionDelta s) (rnnDelta s)
    (history s).

(** One call on the object.  The state after a call is the state of the
    object whether the call returned or threw. *)
Inductive step : State -> State -> Prop :=
| step_Forward (input : mat) (s : State) :
    step s (snd (Forward input s))
| step_Backward (input gy g : mat) (s : State) :
    step s (snd (Backward input gy g s))
| step_Gradient (input error gradient' : mat) (s : State) :
    step s (snd (Gradient input error gradient' s))
| step_Deterministic (v : bool) (s : State) :
    step s (set_deterministic v s).

(** The states of an object, from its construction on. *)
Inductive reachable : State -> Prop :=
| reachable_new (outSize' : N) (rnn : R) (action : A) (rho' : N) :
    reachable (RecurrentAttention_new outSize' rnn action rho')
| reachable_step (s s' : State) :
    reachable s -> step s s' -> reachable s'.

(** A computation keeps a property of the object, also when it throws. *)
Definition keeps {T : Type} (P : State -> Prop) (m : M T) : Prop :=
  forall s, P s -> P (snd (m s)).

(** A matrix of zeros, of any shape. *)
Definition is_zeros (m : mat) : Prop := exists r c, m = zeros r c.

(** The errors that the action module's [Backward] was called with. *)
Definition action_errors (h : list event) : list mat :=
  flat_map (fun ev => match ev with
                      | EvBackward Action _ e _ => [e]
                      | _ => []
                      end) h.

(** The snapshot stack holds whole pairs. *)
Definition stack_paired (s : State) : Prop :=
  Nat.even (length (moduleOutputParameter s)) = true.

(** The action module's [Backward] has only seen errors of zeros, and will
    see one at its next call. *)
Definition action_error_zero (s : State) : Prop :=
  is_zeros (actionError s) /\ Forall is_zeros (action_errors (history s)).

(** What the action module returns in the first step of a [Forward]. *)
Definition first_action_output (input : mat) (s : State) : mat :=
  snd (layer_forward (core (actionModule s))
                     (initialInput (Forward_entry input s))).

(** The object without what only the snapshots are about: the stack is
    emptied and the mode is set to deterministic. *)
Definition without_snapshots (s : State) : State :=
  set_deterministic true (set_moduleOutputParameter [] s).

(** The shape of the gradient buffers: the attention gradient is a column
    with one row per parameter of the two modules. *)
Definition gradient_shape (nr na : N) (s : State) : Prop :=
  n_elem (Parameters (rnnModule s)) = nr
  /\ n_elem (Parameters (actionModule s)) = na
  /\ n_rows (attentionGradient s) = (nr + na)%N
  /\ n_cols (attentionGradient s) = 1%N.

(** The members that back-propagation works on, those that [Forward] works
    on, and everything but the gradients of the two modules and
    [intermediateGradient], to whose memory [Backward] binds them. *)
Definition gradient_side (s : State) :=
  (intermediateGradient s, attentionGradient s, actionError s,
   recurrentError s, actionDelta s, rnnDelta s,
   gradient (rnnModule s), gradient (actionModule s)).

Definition forward_side (s : State) :=
  (outSize s, rho s, forwardStep s, deterministic s, initialInput s).

Definition all_but_gradients (s : State) :=
  (outSize s, core (rnnModule s), outputParameter (rnnModule s),
   core (actionModule s), outputParameter (actionModule s),
   rho s, forwardStep s, backwardStep s, deterministic s, initialInput s,
   moduleOutputParameter s, attentionGradient s,
   actionError s, recurrentError s, actionDelta s, rnnDelta s, history s).

(** The condition of the loop of [Backward]. *)
Definition backward_cond (s : State) : bool := (backwardStep s <? rho s)%N.

End Life.

(** A module whose [Backward] and [Gradient] leave the number of its
    parameters as it is. *)
Definition stable_parameters (S : Type) `{Layer S} : Prop :=
  forall (c : S) (x e : mat),
    n_elem (layer_parameters (fst (layer_backward c x e)))
    = n_elem (layer_parameters c)
    /\ n_elem (layer_parameters (fst (layer_gradient c x e)))
       = n_elem (layer_parameters c).

Arguments stable_parameters S {_}.

(** ** Concrete objects *)

Import Toy.

(** [layer0] in inference mode. *)
Definition inference0 : State rnn action := set_deterministic true layer0.

(** An action module without output, and a layer built on it. *)
Record mute : Type := MkMute { }.

#[export] Instance mute_layer : Layer mute := {
  layer_forward s x := (s, Mat 0 0 []);
  layer_backward s x gy := (s, Mat 0 0 []);
  layer_gradient s x e := (s, Mat 0 0 []);
  layer_parameters s := Mat 0 0 []
}.

Definition muted0 : State rnn mute :=
  RecurrentAttention_new 2 (MkRnn (q 1 2) (q 0 1)) MkMute 3.

(** A layer that never unrolls. *)
Definition still0 : State rnn action :=
  RecurrentAttention_new 2 (MkRnn (q 1 2) (q 0 1)) (MkAction (q 1 1) (q 3 1)) 0.


End RecurrentAttentionLife.

(* ===================================================================== *)
(** * Facts about the tensor substrate *)
(* ===================================================================== *)

Module ArmaFacts.

Lemma range_length (n : N) : length (range n) = N.to_nat n.
Proof. unfold range. now rewrite length_map, length_seq. Qed.

Lemma range_succ (n : N) : range (N.succ n) = range n ++ [n].
Proof.
  unfold range. rewrite N2Nat.inj_succ, seq_S, map_app. simpl.
  now rewrite N2Nat.id.
Qed.

Lemma range_0 : range 0 = [].
Proof. reflexivity. Qed.

Lemma in_range (n i : N) : In i (range n) <-> (i < n)%N.
Proof.
  unfold range. rewrite in_map_iff. split.
  - intros (k & <- & Hk). apply in_seq in Hk. lia.
  - intros Hi. exists (N.to_nat i). split; [apply N2Nat.id|].
    apply in_seq. lia.
Qed.

(** Induction over the bound of a counted loop. *)
Lemma for_succ {T : Type} (n : N) (body : N -> T -> T) (init : T) :
  for_ (N.succ n) body init = body n (for_ n body init).
Proof. unfold for_. now rewrite range_succ, fold_left_app. Qed.

Lemma for_0 {T : Type} (body : N -> T -> T) (init : T) :
  for_ 0 body init = init.
Proof. reflexivity. Qed.

Lemma get_app_l (l1 l2 : list Qc) (k : N) :
  (N.to_nat k < length l1)%nat -> get (l1 ++ l2) k = get l1 k.
Proof. intros H. unfold get. now apply app_nth1. Qed.

Lemma get_app_r (l1 l2 : list Qc) (k : N) :
  (length l1 <= N.to_nat k)%nat ->
  get (l1 ++ l2) k = get l2 (k - N.of_nat (length l1)).
Proof.
  intros H. unfold get. rewrite app_nth2 by exact H.
  f_equal. lia.
Qed.

Lemma get_repeat (x : Qc) (n : nat) (k : N) :
  x = 0%Qc -> get (repeat x n) k = 0%Qc.
Proof.
  intros ->. unfold get. generalize (N.to_nat k). clear k.
  induction n as [|n IH]; intros [|k]; simpl; auto.
Qed.

Lemma mapi_from_length (f : N -> Qc -> Qc) (l : list Qc) (k : N) :
  length (mapi_from k f l) = length l.
Proof.
  revert k. induction l as [|x l IH]; intros k; simpl; [reflexivity|].
  now rewrite IH.
Qed.

Lemma mapi_length (f : N -> Qc -> Qc) (l : list Qc) :
  length (mapi f l) = length l.
Proof. apply mapi_from_length. Qed.

Lemma mapi_from_nth (f : N -> Qc -> Qc) (l : list Qc) (k : N) (i : nat) :
  (i < length l)%nat ->
  nth i (mapi_from k f l) 0%Qc = f (k + N.of_nat i)%N (nth i l 0%Qc).
Proof.
  revert k i. induction l as [|x l IH]; intros k i Hi; simpl in *; [lia|].
  destruct i as [|i].
  - now rewrite N.add_0_r.
  - rewrite IH by lia. f_equal. lia.
Qed.

Lemma get_mapi (f : N -> Qc -> Qc) (l : list Qc) (k : N) :
  (N.to_nat k < length l)%nat -> get (mapi f l) k = f k (get l k).
Proof.
  intros H. unfold get, mapi. rewrite mapi_from_nth by exact H.
  now rewrite N.add_0_l, N2Nat.id.
Qed.

(** Two memories of the same length that read alike are the same. *)
Lemma list_ext (l1 l2 : list Qc) :
  length l1 = length l2 ->
  (forall k, (N.to_nat k < length l1)%nat -> get l1 k = get l2 k) ->
  l1 = l2.
Proof.
  intros Hlen H. apply nth_ext with (d := 0%Qc) (d' := 0%Qc); [exact Hlen|].
  intros n Hn. specialize (H (N.of_nat n)). unfold get in H.
  rewrite Nat2N.id in H. now apply H.
Qed.

Lemma sum_app (l1 l2 : list Qc) : sum (l1 ++ l2) = (sum l1 + sum l2)%Qc.
Proof.
  unfold sum. induction l1 as [|x l1 IH]; simpl; [ring|].
  rewrite IH. ring.
Qed.

Lemma sum_zero {T : Type} (f : T -> Qc) (l : list T) :
  (forall x, In x l -> f x = 0%Qc) -> sum (map f l) = 0%Qc.
Proof.
  intros H. induction l as [|x l IH]; simpl; [reflexivity|].
  rewrite H by now left. rewrite IH; [ring|].
  intros y Hy. apply H. now right.
Qed.

(** A sum over a loop range in which a single index contributes. *)
Lemma sum_single (f : N -> Qc) (n r : N) :
  (r < n)%N ->
  (forall i, (i < n)%N -> i <> r -> f i = 0%Qc) ->
  sum (map f (range n)) = f r.
Proof.
  revert r. induction n as [|n IH] using N.peano_ind; intros r Hr H; [lia|].
  rewrite range_succ, map_app, sum_app. simpl.
  destruct (N.eq_dec r n) as [->|Hne].
  - rewrite sum_zero; [ring|].
    intros x Hx. apply in_range in Hx. apply H; lia.
  - rewrite (IH r) by (try lia; intros; apply H; lia).
    rewrite (H n) by lia. ring.
Qed.

Lemma sum_ext {T : Type} (f g : T -> Qc) (l : list T) :
  (forall x, In x l -> f x = g x) -> sum (map f l) = sum (map g l).
Proof.
  intros H. induction l as [|x l IH]; simpl; [reflexivity|].
  rewrite H by now left. rewrite IH; [reflexivity|].
  intros y Hy. apply H. now right.
Qed.

Lemma grid_length (f : N -> N -> Qc) (R C : N) :
  length (grid f R C) = N.to_nat (R * C).
Proof.
  unfold grid. induction C as [|C IH] using N.peano_ind.
  - simpl. lia.
  - rewrite range_succ, flat_map_app, length_app, IH. simpl.
    rewrite app_nil_r, length_map, range_length. lia.
Qed.

Lemma get_map_range (f : N -> Qc) (n k : N) :
  (k < n)%N -> get (map f (range n)) k = f k.
Proof.
  intros H. unfold get, range. rewrite map_map.
  rewrite nth_indep with (d' := f (N.of_nat 0))
    by (rewrite length_map, length_seq; lia).
  rewrite (map_nth (fun x => f (N.of_nat x))), seq_nth by lia.
  simpl. now rewrite N2Nat.id.
Qed.

Lemma get_grid (f : N -> N -> Qc) (R C k : N) :
  (k < R * C)%N -> get (grid f R C) k = f (k mod R)%N (k / R)%N.
Proof.
  induction C as [|C IH] using N.peano_ind; intros Hk; [lia|].
  assert (HR : R <> 0%N) by (intros ->; lia).
  unfold grid in *. rewrite range_succ, flat_map_app. simpl.
  rewrite app_nil_r.
  pose proof (grid_length f R C) as Hlen. unfold grid in Hlen.
  destruct (N.lt_ge_cases k (R * C)) as [Hlt|Hge].
  - rewrite get_app_l by lia. now apply IH.
  - rewrite get_app_r by lia. rewrite Hlen, N2Nat.id.
    assert (Hdiv : (k / R = C)%N).
    { symmetry. apply (N.div_unique k R C (k - R * C)); lia. }
    assert (Hmod : (k mod R = k - R * C)%N).
    { symmetry. apply (N.mod_unique k R C (k - R * C)); lia. }
    rewrite Hdiv, Hmod. apply (get_map_range (fun i => f i C)). lia.
Qed.

(** The memory of a well-formed matrix is the grid of its elements. *)
Lemma mem_grid (m : mat) :
  wf m -> grid (at_ m) (n_rows m) (n_cols m) = mem m.
Proof.
  intros Hwf. unfold wf, n_elem in Hwf. apply list_ext.
  - now rewrite grid_length.
  - intros k Hk. rewrite grid_length in Hk.
    rewrite get_grid by lia. unfold at_. f_equal.
    assert (n_rows m <> 0%N) by (intros E; rewrite E in Hk; lia).
    rewrite N.mul_comm. symmetry. rewrite N.add_comm.
    now apply N.div_mod.
Qed.

End ArmaFacts.

(* ===================================================================== *)
(** * Facts about cubes and the sweep over their slices *)
(* ===================================================================== *)

Module CubeFacts.

Import ArmaFacts.

Lemma grid_ext (f g : N -> N -> Qc) (R C : N) :
  (forall i j, (i < R)%N -> (j < C)%N -> f i j = g i j) ->
  grid f R C = grid g R C.
Proof.
  intros H. apply list_ext.
  - now rewrite !grid_length.
  - intros k Hk. rewrite grid_length in Hk.
    assert (R <> 0%N) by (intros ->; lia).
    rewrite !get_grid by lia. apply H.
    + now apply N.mod_lt.
    + apply N.Div0.div_lt_upper_bound. lia.
Qed.

Lemma firstn_sum {T : Type} (n m : nat) (l : list T) :
  firstn (n + m) l = firstn n l ++ firstn m (skipn n l).
Proof.
  revert l. induction n as [|n IH]; intros l; [reflexivity|].
  destruct l as [|x l]; simpl.
  - now rewrite firstn_nil.
  - now rewrite IH.
Qed.

(** The slices of a cube, one after the other, are its memory. *)
Lemma slices_concat (l : list Qc) (k n : N) :
  flat_map (fun s => firstn (N.to_nat k) (skipn (N.to_nat (s * k)) l))
           (range n)
  = firstn (N.to_nat (n * k)) l.
Proof.
  induction n as [|n IH] using N.peano_ind; [reflexivity|].
  rewrite range_succ, flat_map_app, IH. simpl. rewrite app_nil_r.
  replace (N.to_nat (N.succ n * k)) with (N.to_nat (n * k) + N.to_nat k)%nat
    by lia.
  now rewrite firstn_sum.
Qed.

Lemma slice_length (q : cube) (s : N) :
  (N.to_nat ((s + 1) * slice_elem q) <= length (cmem q))%nat ->
  length (mem (slice q s)) = N.to_nat (slice_elem q).
Proof.
  intros H. unfold slice. simpl. rewrite length_firstn, length_skipn. lia.
Qed.

Section Sweep.

Variable F : N -> mat -> mat.
Variables r c : N.

Hypothesis F_length : forall s m,
  n_rows m = r -> n_cols m = c ->
  length (mem m) = N.to_nat (r * c) ->
  length (mem (F s m)) = N.to_nat (r * c).

Lemma sweep_dims (n : N) (q0 : cube) :
  c_rows (sweep F n q0) = c_rows q0 /\ c_cols (sweep F n q0) = c_cols q0
  /\ c_slices (sweep F n q0) = c_slices q0.
Proof.
  unfold sweep. induction n as [|n IH] using N.peano_ind; [now rewrite for_0|].
  rewrite for_succ. simpl. exact IH.
Qed.

Lemma swept_length (n : N) (q0 : cube) :
  c_rows q0 = r -> c_cols q0 = c ->
  (N.to_nat (r * c * n) <= length (cmem q0))%nat ->
  length (flat_map (fun s => mem (F s (slice q0 s))) (range n))
  = N.to_nat (n * (r * c)).
Proof.
  intros Hr Hc. induction n as [|n IH] using N.peano_ind; intros Hlen.
  - reflexivity.
  - rewrite range_succ, flat_map_app, length_app, IH by lia. simpl.
    rewrite app_nil_r, F_length.
    + lia.
    + exact Hr.
    + exact Hc.
    + rewrite slice_length; unfold slice_elem; rewrite ?Hr, ?Hc; lia.
Qed.

(** A sweep rewrites the first [n] slices, each from its content in the cube
    the sweep started from, and leaves the rest of the memory. *)
Lemma sweep_mem (n : N) (q0 : cube) :
  c_rows q0 = r -> c_cols q0 = c ->
  (N.to_nat (r * c * n) <= length (cmem q0))%nat ->
  cmem (sweep F n q0)
  = flat_map (fun s => mem (F s (slice q0 s))) (range n)
    ++ skipn (N.to_nat (n * (r * c))) (cmem q0).
Proof.
  intros Hr Hc. induction n as [|n IH] using N.peano_ind; intros Hlen.
  - reflexivity.
  - assert (Hprev : (N.to_nat (r * c * n) <= length (cmem q0))%nat) by lia.
    specialize (IH Hprev).
    pose proof (swept_length n q0 Hr Hc Hprev) as Hsw.
    destruct (sweep_dims n q0) as (Dr & Dc & _).
    unfold sweep in *. rewrite for_succ.
    set (q := for_ n (fun s q => set_slice q s (F s (slice q s))) q0) in *.
    assert (Hk : slice_elem q = (r * c)%N)
      by (unfold slice_elem; now rewrite Dr, Dc, Hr, Hc).
    assert (Hslice : slice q n = slice q0 n).
    { unfold slice. rewrite Dr, Dc. f_equal. rewrite Hk.
      unfold slice_elem. rewrite Hr, Hc. f_equal.
      rewrite IH, skipn_app, Hsw.
      rewrite skipn_all2 by lia. simpl.
      replace (N.to_nat (n * (r * c)) - N.to_nat (n * (r * c)))%nat
        with 0%nat by lia.
      reflexivity. }
    unfold set_slice. simpl. rewrite Hk, Hslice.
    rewrite range_succ, flat_map_app. simpl. rewrite app_nil_r, <- app_assoc.
    f_equal.
    + rewrite IH, firstn_app, Hsw.
      rewrite firstn_all2 by lia.
      replace (N.to_nat (n * (r * c)) - N.to_nat (n * (r * c)))%nat
        with 0%nat by lia.
      simpl. now rewrite app_nil_r.
    + f_equal. rewrite IH, skipn_app, Hsw.
      rewrite skipn_all2 by lia. simpl.
      replace (N.to_nat ((n + 1) * (r * c)) - N.to_nat (n * (r * c)))%nat
        with (N.to_nat (r * c)) by lia.
      rewrite skipn_skipn. f_equal. lia.
Qed.

End Sweep.

End CubeFacts.

(* ===================================================================== *)
(** * Rounding to binary64 *)
(* ===================================================================== *)

Module Binary64Facts.

Import Binary64.
Local Open Scope Q_scope.

Lemma pow2_pos (e : Z) : 0 < 2 ^ e.
Proof. apply Qpower_0_lt. reflexivity. Qed.

Lemma pow2_add (a b : Z) : 2 ^ (a + b) == 2 ^ a * 2 ^ b.
Proof. apply Qpower_plus. intros H. discriminate H. Qed.

Lemma pow2_Z (n : Z) : (0 <= n)%Z -> 2 ^ n == inject_Z (2 ^ n).
Proof. intros H. symmetry. exact (Zpower_Qpower 2 n H). Qed.

Lemma pow2_le (a b : Z) : (a <= b)%Z -> 2 ^ a <= 2 ^ b.
Proof. intros H. apply Qpower_le_compat_l; [exact H|]. discriminate. Qed.

Lemma pow2_lt_inv (a b : Z) : 2 ^ a < 2 ^ b -> (a < b)%Z.
Proof. intros H. apply (Qpower_lt_compat_l_inv 2); [exact H|reflexivity]. Qed.

Lemma inject_Z_le (a b : Z) : (a <= b)%Z -> inject_Z a <= inject_Z b.
Proof. intros H. now rewrite <- Zle_Qle. Qed.

Lemma inject_Z_lt (a b : Z) : (a < b)%Z -> inject_Z a < inject_Z b.
Proof. intros H. now rewrite <- Zlt_Qlt. Qed.

(** ** Rounding to an integer *)

Lemma rne_floor (x : Q) : (Qfloor x <= rne x <= Qfloor x + 1)%Z.
Proof.
  unfold rne. destruct (Qcompare _ _); [destruct (Z.even _)| |]; lia.
Qed.

Lemma rne_ge (x : Q) (z : Z) : inject_Z z <= x -> (z <= rne x)%Z.
Proof.
  intros H. pose proof (rne_floor x) as [F _].
  apply Qfloor_resp_le in H. rewrite Qfloor_Z in H. lia.
Qed.

Lemma rne_le (x : Q) (z : Z) : x <= inject_Z z -> (rne x <= z)%Z.
Proof.
  intros H. pose proof (Qfloor_le x) as F1. pose proof (Qlt_floor x) as F2.
  assert (Hf : (Qfloor x <= z)%Z).
  { apply Qfloor_resp_le in H. now rewrite Qfloor_Z in H. }
  destruct (Z.eq_dec (Qfloor x) z) as [E|E].
  - unfold rne. rewrite E in *.
    destruct (Qcompare_spec (x - inject_Z z) (1 # 2)) as [C|C|C];
      [lra|lia|lra].
  - pose proof (rne_floor x). lia.
Qed.

Lemma rne_Z (x : Q) (z : Z) : x == inject_Z z -> rne x = z.
Proof.
  intros H. apply Z.le_antisymm.
  - apply rne_le. lra.
  - apply rne_ge. lra.
Qed.

Lemma rne_mono (x y : Q) : x <= y -> (rne x <= rne y)%Z.
Proof.
  intros H.
  pose proof (Qfloor_resp_le _ _ H) as Hf.
  destruct (Z.eq_dec (Qfloor x) (Qfloor y)) as [E|E].
  - unfold rne. rewrite <- E.
    destruct (Qcompare_spec (x - inject_Z (Qfloor x)) (1 # 2)) as [C|C|C];
      destruct (Qcompare_spec (y - inject_Z (Qfloor x)) (1 # 2)) as [D|D|D];
      destruct (Z.even (Qfloor x)); try lia; lra.
  - pose proof (rne_floor x). pose proof (rne_floor y). lia.
Qed.

(** ** The binade of a positive rational *)

Lemma Q_as_fraction (x : Q) :
  x * inject_Z (Zpos (Qden x)) == inject_Z (Qnum x).
Proof.
  destruct x as [n d]. unfold Qeq, Qmult, inject_Z. cbn [Qnum Qden].
  rewrite Pos.mul_1_r. ring.
Qed.

Lemma log2_pow2 (n : Z) :
  (0 < n)%Z ->
  2 ^ Z.log2 n <= inject_Z n /\ inject_Z n < 2 ^ (Z.log2 n + 1).
Proof.
  intros H. pose proof (Z.log2_nonneg n) as H0.
  destruct (Z.log2_spec n H) as [L U].
  rewrite !pow2_Z by lia. split.
  - now apply inject_Z_le.
  - apply inject_Z_lt. now rewrite <- Z.add_1_r in U.
Qed.

Lemma binade_spec (x : Q) :
  0 < x -> 2 ^ binade x <= x /\ x < 2 ^ (binade x + 1).
Proof.
  intros Hx.
  assert (Hn : (0 < Qnum x)%Z).
  { destruct x as [n d]. unfold Qlt in Hx. cbn in Hx |- *. lia. }
  pose proof (Q_as_fraction x) as Hfr.
  destruct (log2_pow2 Hn) as [Ln Un].
  destruct (@log2_pow2 (Zpos (Qden x)) eq_refl) as [Ld Ud].
  set (a := Z.log2 (Qnum x)) in *. set (b := Z.log2 (Zpos (Qden x))) in *.
  set (D := inject_Z (Zpos (Qden x))) in *.
  assert (HD : 0 < D) by (apply (@inject_Z_lt 0); reflexivity).
  assert (Up : x < 2 ^ (a - b + 1)).
  { apply (proj1 (Qmult_lt_r _ _ D HD)).
    apply Qlt_le_trans with (2 ^ (a + 1)); [lra|].
    replace (a + 1)%Z with ((a - b + 1) + b)%Z by ring.
    rewrite pow2_add. apply Qmult_le_l; [apply pow2_pos|exact Ld]. }
  assert (Lo : 2 ^ (a - b - 1) <= x).
  { apply (proj1 (Qmult_le_r _ _ D HD)).
    apply Qle_trans with (2 ^ a); [|lra].
    replace a with ((a - b - 1) + (b + 1))%Z at 2 by ring.
    rewrite pow2_add. apply Qmult_le_l; [apply pow2_pos|lra]. }
  unfold binade. fold a b.
  destruct (Qle_bool (2 ^ (a - b)) x) eqn:T.
  - apply Qle_bool_iff in T. split; assumption.
  - split; [exact Lo|].
    replace (a - b - 1 + 1)%Z with (a - b)%Z by ring.
    apply Qnot_le_lt. intros C. apply Qle_bool_iff in C. congruence.
Qed.

Lemma binade_unique (x : Q) (e : Z) :
  2 ^ e <= x -> x < 2 ^ (e + 1) -> binade x = e.
Proof.
  intros L U.
  assert (Hx : 0 < x) by (pose proof (pow2_pos e); lra).
  destruct (binade_spec Hx) as [L' U'].
  assert (H1 : (e < binade x + 1)%Z) by (apply pow2_lt_inv; lra).
  assert (H2 : (binade x < e + 1)%Z) by (apply pow2_lt_inv; lra).
  lia.
Qed.


(** ** Rounding to 53 bits *)

Lemma scaled_bounds (x : Q) :
  0 < x ->
  inject_Z (2 ^ 52) <= x / 2 ^ (binade x - 52)
  /\ x / 2 ^ (binade x - 52) <= inject_Z (2 ^ 53).
Proof.
  intros Hx. destruct (binade_spec Hx) as [L U].
  set (e := binade x) in *.
  pose proof (pow2_pos (e - 52)) as Hu.
  assert (E1 : 2 ^ e == inject_Z (2 ^ 52) * 2 ^ (e - 52)).
  { replace e with (52 + (e - 52))%Z at 1 by ring.
    rewrite pow2_add. now rewrite (@pow2_Z 52). }
  assert (E2 : 2 ^ (e + 1) == inject_Z (2 ^ 53) * 2 ^ (e - 52)).
  { replace (e + 1)%Z with (53 + (e - 52))%Z by ring.
    rewrite pow2_add. now rewrite (@pow2_Z 53). }
  split.
  - apply Qle_shift_div_l; [exact Hu|]. lra.
  - apply Qle_shift_div_r; [exact Hu|]. lra.
Qed.

Lemma round_pos_bounds (x : Q) :
  0 < x -> 2 ^ binade x <= round_pos x /\ round_pos x <= 2 ^ (binade x + 1).
Proof.
  intros Hx. destruct (scaled_bounds Hx) as [L U].
  unfold round_pos. set (e := binade x) in *.
  pose proof (pow2_pos (e - 52)) as Hu.
  apply rne_ge in L. apply rne_le in U.
  apply inject_Z_le in L. apply inject_Z_le in U.
  split.
  - replace e with (52 + (e - 52))%Z at 1 by ring.
    rewrite pow2_add, (@pow2_Z 52) by lia.
    apply Qmult_le_compat_r; [exact L|lra].
  - replace (e + 1)%Z with (53 + (e - 52))%Z by ring.
    rewrite pow2_add, (@pow2_Z 53) by lia.
    apply Qmult_le_compat_r; [exact U|lra].
Qed.

Lemma round_pos_pos (x : Q) : 0 < x -> 0 < round_pos x.
Proof.
  intros Hx. destruct (round_pos_bounds Hx) as [L _].
  pose proof (pow2_pos (binade x)). lra.
Qed.

Lemma round_pos_mono (x y : Q) :
  0 < x -> x <= y -> round_pos x <= round_pos y.
Proof.
  intros Hx Hxy. assert (Hy : 0 < y) by lra.
  destruct (binade_spec Hx) as [Lx Ux]. destruct (binade_spec Hy) as [Ly Uy].
  assert (He : (binade x < binade y + 1)%Z) by (apply pow2_lt_inv; lra).
  destruct (Z.eq_dec (binade x) (binade y)) as [E|E].
  - unfold round_pos. rewrite E.
    pose proof (pow2_pos (binade y - 52)) as Hu.
    apply Qmult_le_compat_r; [|lra].
    apply inject_Z_le, rne_mono.
    apply Qmult_le_compat_r; [exact Hxy|].
    apply Qlt_le_weak, Qinv_lt_0_compat, Hu.
  - destruct (round_pos_bounds Hx) as [_ Bx].
    destruct (round_pos_bounds Hy) as [By _].
    assert (H : 2 ^ (binade x + 1) <= 2 ^ binade y) by (apply pow2_le; lia).
    lra.
Qed.

(** [round64] is monotone, hence compatible with the equality of [Q]. *)
Lemma round64_mono (x y : Q) : x <= y -> round64 x <= round64 y.
Proof.
  intros H. unfold round64.
  destruct (Qcompare_spec x 0) as [Cx|Cx|Cx];
    destruct (Qcompare_spec y 0) as [Cy|Cy|Cy]; try lra.
  - pose proof (@round_pos_pos y Cy). lra.
  - assert (Hx : 0 < - x) by lra. pose proof (round_pos_pos Hx). lra.
  - assert (Hy : 0 < - y) by lra. assert (Hyx : - y <= - x) by lra.
    pose proof (round_pos_mono Hy Hyx). lra.
  - assert (Hx : 0 < - x) by lra. pose proof (round_pos_pos Hx).
    pose proof (@round_pos_pos y Cy). lra.
  - now apply round_pos_mono.
Qed.

#[export] Instance round64_comp : Proper (Qeq ==> Qeq) round64.
Proof.
  intros x y E. apply Qle_antisym; apply round64_mono; lra.
Qed.

(** A multiple of a power of two whose cofactor has at most 53 bits is a
    value of the format. *)
Lemma round_pos_fix (x : Q) (m p : Z) :
  (0 < m < 2 ^ 53)%Z -> x == inject_Z m * 2 ^ p -> round_pos x == x.
Proof.
  intros Hm Ex.
  pose proof (pow2_pos p) as Hp.
  assert (Hm0 : 0 < inject_Z m) by (apply (@inject_Z_lt 0); lia).
  assert (Hm1 : inject_Z m < inject_Z (2 ^ 53)) by (apply inject_Z_lt; lia).
  assert (Hx : 0 < x).
  { rewrite Ex. apply Qmult_lt_0_compat; assumption. }
  destruct (binade_spec Hx) as [L U]. unfold round_pos.
  set (e := binade x) in *.
  pose proof (pow2_pos (e - 52)) as Hu.
  assert (Hk : (0 <= p - (e - 52))%Z).
  { assert (H : (e < 53 + p)%Z); [|lia].
    apply pow2_lt_inv. rewrite pow2_add, (@pow2_Z 53) by lia.
    apply Qle_lt_trans with x; [exact L|]. rewrite Ex.
    apply Qmult_lt_compat_r; assumption. }
  assert (Es : x / 2 ^ (e - 52) == inject_Z (m * 2 ^ (p - (e - 52)))).
  { rewrite inject_Z_mult, <- pow2_Z by exact Hk.
    rewrite Ex. replace p with ((p - (e - 52)) + (e - 52))%Z at 1 by ring.
    rewrite pow2_add. field. lra. }
  rewrite (rne_Z Es), inject_Z_mult, <- pow2_Z by exact Hk.
  rewrite Ex. replace p with ((p - (e - 52)) + (e - 52))%Z at 2 by ring.
  rewrite pow2_add. ring.
Qed.

Lemma round64_fix (x : Q) (m p : Z) :
  (- 2 ^ 53 < m < 2 ^ 53)%Z -> x == inject_Z m * 2 ^ p -> round64 x == x.
Proof.
  intros Hm Ex. pose proof (pow2_pos p) as Hp. unfold round64.
  destruct (Qcompare_spec x 0) as [C|C|C].
  - lra.
  - assert (E : - x == inject_Z (- m) * 2 ^ p)
      by (rewrite inject_Z_opp, Ex; ring).
    assert (H : (0 < - m)%Z).
    { destruct (Z.lt_ge_cases m 0) as [|Hge]; [lia|exfalso].
      apply (@inject_Z_le 0) in Hge.
      assert (0 <= inject_Z m * 2 ^ p)
        by (apply Qmult_le_0_compat; [exact Hge|lra]).
      lra. }
    rewrite (@round_pos_fix (- x) (- m) p) by (try exact E; lia). ring.
  - assert (H : (0 < m)%Z).
    { destruct (Z.lt_ge_cases 0 m) as [|Hge]; [lia|exfalso].
      apply (fun h => @inject_Z_le m 0 h) in Hge.
      change (inject_Z 0) with 0 in Hge.
      assert (0 <= (- inject_Z m) * 2 ^ p)
        by (apply Qmult_le_0_compat; lra).
      lra. }
    apply (@round_pos_fix x m p); [lia|exact Ex].
Qed.

Lemma round64_Z (z : Z) :
  (- 2 ^ 53 < z < 2 ^ 53)%Z -> round64 (inject_Z z) == inject_Z z.
Proof.
  intros H. apply (@round64_fix _ z 0 H). change (2 ^ 0) with 1. ring.
Qed.


(** ** A quotient of integers plus one *)

Lemma floor_between (t : Q) (n : Z) :
  inject_Z n <= t -> t < inject_Z (n + 1) -> Qfloor t = n.
Proof.
  intros L U. pose proof (Qfloor_le t) as F.
  apply Qfloor_resp_le in L. rewrite Qfloor_Z in L.
  assert (H : (Qfloor t < n + 1)%Z) by (rewrite Zlt_Qlt; lra).
  lia.
Qed.

Lemma ceiling_between (t : Q) (n : Z) :
  inject_Z (n - 1) < t -> t <= inject_Z n -> Qceiling t = n.
Proof.
  intros L U. pose proof (Qle_ceiling t) as C.
  apply Qceiling_resp_le in U. rewrite Qceiling_Z in U.
  assert (H : (n - 1 < Qceiling t)%Z) by (rewrite Zlt_Qlt; lra).
  lia.
Qed.

Lemma pow2_inv (p : Z) : (0 <= p)%Z -> inject_Z (2 ^ p) * 2 ^ (- p) == 1.
Proof.
  intros H. rewrite <- pow2_Z by exact H. rewrite <- pow2_add.
  replace (p + - p)%Z with 0%Z by ring. reflexivity.
Qed.

(** The quotient of two integers of at most 50 bits, rounded, plus one,
    rounded: the integer part is that of the exact value, and the value is
    an integer only when the exact one is. *)
Lemma quotient_plus_one (a s : Z) :
  (- 2 ^ 50 < a < 2 ^ 50)%Z -> (0 < s < 2 ^ 50)%Z ->
  let t := round64 (round64 (inject_Z a / inject_Z s) + 1) in
  Qfloor t = (a / s + 1)%Z
  /\ Qceiling t = (if (a mod s =? 0)%Z then a / s + 1 else a / s + 2)%Z.
Proof.
  intros Ha Hs t.
  pose proof (Z.div_mod a s ltac:(lia)) as Hdm.
  pose proof (Z.mod_pos_bound a s ltac:(lia)) as Hm.
  set (n := (a / s)%Z) in *. set (m := (a mod s)%Z) in *.
  assert (HS : 0 < inject_Z s) by (apply (@inject_Z_lt 0); lia).
  assert (Eq : inject_Z a / inject_Z s == inject_Z n + inject_Z m / inject_Z s).
  { rewrite Hdm, inject_Z_plus, inject_Z_mult. field. lra. }
  destruct (Z.eqb_spec m 0) as [E0|E0].
  - (* the stride divides: everything is exact *)
    assert (Hn : (- 2 ^ 50 < n < 2 ^ 50)%Z) by nia.
    assert (T : t == inject_Z (n + 1)).
    { unfold t. rewrite Eq, E0.
      setoid_replace (inject_Z n + inject_Z 0 / inject_Z s) with (inject_Z n)
        by (field; lra).
      rewrite round64_Z by lia.
      setoid_replace (inject_Z n + 1) with (inject_Z (n + 1))
        by (rewrite inject_Z_plus; reflexivity).
      apply round64_Z. lia. }
    rewrite (Qfloor_comp _ _ T), (Qceiling_comp _ _ T).
    now rewrite Qfloor_Z, Qceiling_Z.
  - (* the quotient lies between two values of the format that are no
       integers *)
    assert (Hs2 : (1 < s)%Z) by lia.
    destruct (Z.log2_up_spec s Hs2) as [P1 P2].
    pose proof (Z.log2_up_pos s Hs2) as P0.
    set (P := Z.log2_up s) in *.
    assert (Ew : (2 ^ P = 2 * 2 ^ Z.pred P)%Z).
    { replace P with (Z.succ (Z.pred P)) at 1 by lia.
      apply Z.pow_succ_r. lia. }
    set (w := (2 ^ P)%Z) in *.
    assert (Hw : (s <= w < 2 * s)%Z) by lia.
    assert (Hnw : (- 2 ^ 52 < n * w < 2 ^ 52)%Z) by nia.
    pose proof (@pow2_inv P ltac:(lia)) as Ei. fold w in Ei.
    set (h := 2 ^ (- P)) in *.
    assert (Hh : 0 < h) by apply pow2_pos.
    assert (HW : 0 < inject_Z w) by (apply (@inject_Z_lt 0); lia).
    assert (Hhs : h <= 1 / inject_Z s).
    { apply Qle_shift_div_l; [exact HS|].
      assert (inject_Z s <= inject_Z w) by (apply inject_Z_le; lia).
      assert (h * inject_Z s <= h * inject_Z w)
        by (apply Qmult_le_l; assumption).
      lra. }
    assert (Hms : 1 / inject_Z s <= inject_Z m / inject_Z s
                 /\ inject_Z m / inject_Z s <= 1 - 1 / inject_Z s).
    { assert (M1 : 1 <= inject_Z m) by (apply (@inject_Z_le 1); lia).
      assert (M2 : inject_Z m <= inject_Z s - 1).
      { setoid_replace (inject_Z s - 1) with (inject_Z (s - 1))
          by (unfold Z.sub; rewrite inject_Z_plus; reflexivity).
        apply inject_Z_le. lia. }
      assert (Hi : 0 < / inject_Z s) by now apply Qinv_lt_0_compat.
      unfold Qdiv. split.
      - apply Qmult_le_compat_r; lra.
      - setoid_replace (1 - 1 * / inject_Z s)
          with ((inject_Z s - 1) * / inject_Z s) by (field; lra).
        apply Qmult_le_compat_r; lra. }
    assert (G : forall c d : Z,
               inject_Z ((n + c) * w + d) * h == inject_Z n + inject_Z c
                                                 + inject_Z d * h).
    { intros c d. rewrite inject_Z_plus, !inject_Z_mult, inject_Z_plus.
      setoid_replace ((((inject_Z n + inject_Z c) * inject_Z w)
                       + inject_Z d) * h)
        with ((inject_Z n + inject_Z c) * (inject_Z w * h) + inject_Z d * h)
        by ring.
      rewrite Ei. ring. }
    assert (R : forall c d : Z,
               (0 <= c <= 2)%Z -> (- 1 <= d <= 1)%Z ->
               round64 (inject_Z n + inject_Z c + inject_Z d * h)
               == inject_Z n + inject_Z c + inject_Z d * h).
    { intros c d Hc Hd.
      apply (@round64_fix _ ((n + c) * w + d) (- P)); [nia|].
      symmetry. apply G. }
    pose proof (R 0%Z 1%Z ltac:(lia) ltac:(lia)) as RL.
    pose proof (R 1%Z (-1)%Z ltac:(lia) ltac:(lia)) as RU.
    pose proof (R 1%Z 1%Z ltac:(lia) ltac:(lia)) as RL1.
    pose proof (R 2%Z (-1)%Z ltac:(lia) ltac:(lia)) as RU1.
    change (inject_Z 0) with 0 in *. change (inject_Z 1) with 1 in *.
    change (inject_Z 2) with 2 in *. change (inject_Z (-1)) with (-1) in *.
    set (r := round64 (inject_Z a / inject_Z s)) in *.
    assert (Hr : inject_Z n + h <= r /\ r <= inject_Z n + 1 - h).
    { split.
      - setoid_replace (inject_Z n + h) with (inject_Z n + 0 + 1 * h) by ring.
        rewrite <- RL. apply round64_mono. lra.
      - setoid_replace (inject_Z n + 1 - h)
          with (inject_Z n + 1 + (-1) * h) by ring.
        rewrite <- RU. apply round64_mono. lra. }
    assert (Ht : inject_Z n + 1 + h <= t /\ t <= inject_Z n + 2 - h).
    { unfold t. split.
      - setoid_replace (inject_Z n + 1 + h)
          with (inject_Z n + 1 + 1 * h) by ring.
        rewrite <- RL1. apply round64_mono. lra.
      - setoid_replace (inject_Z n + 2 - h)
          with (inject_Z n + 2 + (-1) * h) by ring.
        rewrite <- RU1. apply round64_mono. lra. }
    split.
    + apply floor_between; rewrite !inject_Z_plus;
        change (inject_Z 1) with 1; lra.
    + apply ceiling_between.
      * replace (n + 2 - 1)%Z with (n + 1)%Z by ring.
        rewrite inject_Z_plus. change (inject_Z 1) with 1. lra.
      * rewrite inject_Z_plus. change (inject_Z 2) with 2. lra.
Qed.

(** The same in the two forms of integer division. *)
Lemma div_plus_one (a s : Z) :
  (0 < s)%Z ->
  ((a + s) / s = a / s + 1)%Z
  /\ (- ((- (a + s)) / s)
      = if (a mod s =? 0)%Z then a / s + 1 else a / s + 2)%Z.
Proof.
  intros Hs.
  pose proof (Z.div_mod a s ltac:(lia)) as Hdm.
  pose proof (Z.mod_pos_bound a s Hs) as Hm.
  split.
  - replace (a + s)%Z with (a + 1 * s)%Z by ring. apply Z.div_add. lia.
  - destruct (Z.eqb_spec (a mod s) 0) as [E|E].
    + rewrite E in Hdm.
      replace (- (a + s))%Z with ((- (a / s + 1)) * s)%Z by lia.
      rewrite Z.div_mul by lia. ring.
    + rewrite <- (Z.div_unique (- (a + s)) s (- (a / s + 2)) (s - a mod s));
        [ring|lia|lia].
Qed.

End Binary64Facts.

(* ===================================================================== *)
(** * MeanPooling: the size of the output *)
(* ===================================================================== *)

Module MeanPoolingFacts.

Import ArmaFacts CubeFacts Binary64 Binary64Facts MeanPooling.

Lemma pool_slices_dims (st : State) (inT outT : cube) :
  c_rows (pool_slices st inT outT) = c_rows outT
  /\ c_cols (pool_slices st inT outT) = c_cols outT
  /\ c_slices (pool_slices st inT outT) = c_slices outT.
Proof.
  exact (sweep_dims (fun s m => Pooling st (slice inT s) m) (c_slices inT) outT).
Qed.

Lemma to_size_t_some (z : Z) :
  (0 <= z < Z.of_N SIZE_MOD)%Z -> to_size_t z = Some (Z.to_N z).
Proof.
  intros [H0 H1]. unfold to_size_t.
  apply Z.leb_le in H0. apply Z.ltb_lt in H1. now rewrite H0, H1.
Qed.

Lemma out_dim_some (fl : bool) (inW k s : N) :
  s <> 0%N ->
  (0 <= (if fl then Qfloor (out_extent inW k s)
         else Qceiling (out_extent inW k s)) < Z.of_N SIZE_MOD)%Z ->
  out_dim fl inW k s
  = Some (Z.to_N (if fl then Qfloor (out_extent inW k s)
                  else Qceiling (out_extent inW k s))).
Proof.
  intros Hs Hb. unfold out_dim.
  apply N.eqb_neq in Hs. rewrite Hs. now apply to_size_t_some.
Qed.

(** ** The extent in [double] and in exact arithmetic *)

Lemma to_double_exact (n : N) :
  (n < 2 ^ 53)%N -> (to_double n == inject_Z (Z.of_N n))%Q.
Proof.
  intros H. unfold to_double. apply round64_Z.
  apply N2Z.inj_lt in H. change (Z.of_N (2 ^ 53)) with (2 ^ 53)%Z in H. lia.
Qed.

(** The exact extent as one fraction. *)
Lemma exact_extent_fraction (iw k : N) (p : positive) :
  (exact_extent iw k (Npos p)
   == (Z.of_N iw - Z.of_N k + Zpos p) # p)%Q.
Proof.
  unfold exact_extent.
  rewrite (Qmake_Qdiv (Z.of_N iw - Z.of_N k + Z.pos p) p).
  change (Z.of_N (N.pos p)) with (Z.pos p).
  unfold Z.sub. rewrite !inject_Z_plus, inject_Z_opp.
  field. intros E. discriminate E.
Qed.

Lemma floor_exact_extent (iw k s : N) :
  s <> 0%N ->
  Qfloor (exact_extent iw k s)
  = ((Z.of_N iw - Z.of_N k + Z.of_N s) / Z.of_N s)%Z.
Proof.
  intros Hs. destruct s as [|p]; [congruence|].
  rewrite (Qfloor_comp _ _ (exact_extent_fraction iw k p)). reflexivity.
Qed.

Lemma ceiling_exact_extent (iw k s : N) :
  s <> 0%N ->
  Qceiling (exact_extent iw k s)
  = (- ((- (Z.of_N iw - Z.of_N k + Z.of_N s)) / Z.of_N s))%Z.
Proof.
  intros Hs. destruct s as [|p]; [congruence|].
  rewrite (Qceiling_comp _ _ (exact_extent_fraction iw k p)). reflexivity.
Qed.

(** The three roundings of the source, on exact operands. *)
Lemma out_extent_rounds (iw k s : N) :
  (iw < EXACT)%N -> (k < EXACT)%N -> (s < EXACT)%N ->
  (out_extent iw k s
   == round64 (round64 (inject_Z (Z.of_N iw - Z.of_N k)
                        / inject_Z (Z.of_N s)) + 1))%Q.
Proof.
  unfold EXACT. intros Hi Hk Hs.
  apply N2Z.inj_lt in Hi, Hk, Hs.
  change (Z.of_N (2 ^ 50)) with (2 ^ 50)%Z in Hi, Hk, Hs.
  unfold out_extent.
  rewrite !to_double_exact
    by (apply N2Z.inj_lt; change (Z.of_N (2 ^ 53)) with (2 ^ 53)%Z; lia).
  setoid_replace (inject_Z (Z.of_N iw) - inject_Z (Z.of_N k))%Q
    with (inject_Z (Z.of_N iw - Z.of_N k))
    by (unfold Z.sub; rewrite inject_Z_plus, inject_Z_opp; reflexivity).
  rewrite (@round64_Z (Z.of_N iw - Z.of_N k)) by lia.
  reflexivity.
Qed.

(** On sizes of at most 50 bits the extent that the source computes in
    [double] has the floor and the ceiling of the exact one. *)
Lemma out_extent_exact (iw k s : N) :
  (iw < EXACT)%N -> (k < EXACT)%N -> (s < EXACT)%N -> s <> 0%N ->
  Qfloor (out_extent iw k s) = Qfloor (exact_extent iw k s)
  /\ Qceiling (out_extent iw k s) = Qceiling (exact_extent iw k s).
Proof.
  intros Hi Hk Hs Hs0.
  rewrite (Qfloor_comp _ _ (out_extent_rounds Hi Hk Hs)).
  rewrite (Qceiling_comp _ _ (out_extent_rounds Hi Hk Hs)).
  rewrite floor_exact_extent, ceiling_exact_extent by exact Hs0.
  unfold EXACT in Hi, Hk, Hs. apply N2Z.inj_lt in Hi, Hk, Hs.
  change (Z.of_N (2 ^ 50)) with (2 ^ 50)%Z in Hi, Hk, Hs.
  set (a := (Z.of_N iw - Z.of_N k)%Z) in *. set (z := Z.of_N s) in *.
  assert (Hz : (0 < z < 2 ^ 50)%Z) by (unfold z; lia).
  assert (Ha : (- 2 ^ 50 < a < 2 ^ 50)%Z) by (unfold a; lia).
  destruct (quotient_plus_one Ha Hz) as [F C].
  destruct (@div_plus_one a z (proj1 Hz)) as [F' C'].
  rewrite F, C, F', C'. split; reflexivity.
Qed.

Lemma floor_extent (iw k s : N) :
  (iw < EXACT)%N -> (k < EXACT)%N -> (s < EXACT)%N -> s <> 0%N ->
  Qfloor (out_extent iw k s)
  = ((Z.of_N iw - Z.of_N k + Z.of_N s) / Z.of_N s)%Z.
Proof.
  intros Hi Hk Hs Hs0.
  rewrite (proj1 (out_extent_exact Hi Hk Hs Hs0)).
  now apply floor_exact_extent.
Qed.

Lemma ceiling_extent (iw k s : N) :
  (iw < EXACT)%N -> (k < EXACT)%N -> (s < EXACT)%N -> s <> 0%N ->
  Qceiling (out_extent iw k s)
  = (- ((- (Z.of_N iw - Z.of_N k + Z.of_N s)) / Z.of_N s))%Z.
Proof.
  intros Hi Hk Hs Hs0.
  rewrite (proj2 (out_extent_exact Hi Hk Hs Hs0)).
  now apply ceiling_exact_extent.
Qed.

(** Beyond 53 bits the conversion to [double] rounds: an input width of
    2^53 + 1 with a 1 x 1 kernel and stride 1 gives 2^53 windows. *)
Lemma out_extent_rounds_wide :
  Qfloor (out_extent (2 ^ 53 + 1) 1 1) = (2 ^ 53)%Z
  /\ Qfloor (exact_extent (2 ^ 53 + 1) 1 1) = (2 ^ 53 + 1)%Z.
Proof. split; vm_compute; reflexivity. Qed.

(** The extent of the exact sizes fits [size_t]. *)
Lemma exact_extent_small (fl : bool) (iw k s : N) :
  (iw < EXACT)%N -> (k < EXACT)%N -> s <> 0%N ->
  ((if fl then Qfloor (exact_extent iw k s)
    else Qceiling (exact_extent iw k s)) < Z.of_N SIZE_MOD)%Z.
Proof.
  unfold EXACT. intros Hi Hk Hs0.
  apply N2Z.inj_lt in Hi, Hk.
  change (Z.of_N (2 ^ 50)) with (2 ^ 50)%Z in Hi, Hk.
  rewrite floor_exact_extent, ceiling_exact_extent by exact Hs0.
  change (Z.of_N SIZE_MOD) with (2 ^ 64)%Z.
  set (x := (Z.of_N iw - Z.of_N k + Z.of_N s)%Z).
  assert (Hz : (0 < Z.of_N s)%Z) by lia.
  pose proof (Z.div_mod x (Z.of_N s) ltac:(lia)) as D1.
  pose proof (Z.mod_pos_bound x (Z.of_N s) Hz) as M1.
  pose proof (Z.div_mod (- x) (Z.of_N s) ltac:(lia)) as D2.
  pose proof (Z.mod_pos_bound (- x) (Z.of_N s) Hz) as M2.
  destruct fl; unfold x in *; nia.
Qed.

(** ** The products of sizes *)

Lemma size_mul_small (a b : N) :
  (a * b < SIZE_MOD)%N -> size_mul a b = (a * b)%N.
Proof. intros H. unfold size_mul. now apply N.mod_small. Qed.

Lemma size_mul_0_r (a : N) : size_mul a 0 = 0%N.
Proof. unfold size_mul. now rewrite N.mul_0_r. Qed.

(** The divisor of line 59 when its product does not wrap around. *)
Lemma divisor_exact (w h b : N) :
  (w * h * b < SIZE_MOD)%N ->
  size_mul (size_mul w h) b = (w * h * b)%N.
Proof.
  intros H. destruct (N.eq_dec b 0) as [->|Hb].
  - now rewrite size_mul_0_r, N.mul_0_r.
  - assert (Hwh : (w * h < SIZE_MOD)%N) by nia.
    rewrite (size_mul_small _ _ Hwh). now apply size_mul_small.
Qed.

(** The slice count does not wrap around then, and the view lies within the
    elements of the input. *)
Lemma slices_exact (e b n : N) :
  (e * b)%N <> 0%N -> (n < SIZE_MOD)%N ->
  size_mul b (n / (e * b)) = (b * (n / (e * b)))%N
  /\ (e * (b * (n / (e * b))) <= n)%N.
Proof.
  intros Hd Hn.
  pose proof (N.Div0.mul_div_le n (e * b)) as Hle.
  assert (He : e <> 0%N) by (intros ->; now apply Hd).
  split; [apply size_mul_small; nia | lia].
Qed.

Lemma within_le (m : list Qc) (n : N) :
  within m n = true <-> (N.to_nat n <= length m)%nat.
Proof. unfold within. rewrite N.leb_le. lia. Qed.

(** What [Forward] stores as the spatial size of the output. *)
Lemma Forward_dims (st : State) (input : mat) (oW oH : N) :
  wf input -> (n_elem input < SIZE_MOD)%N ->
  (inputWidth st * inputHeight st * n_cols input)%N <> 0%N ->
  (inputWidth st * inputHeight st * n_cols input < SIZE_MOD)%N ->
  out_dim (floor st) (inputWidth st) (kernelWidth st) (strideWidth st)
  = Some oW ->
  out_dim (floor st) (inputHeight st) (kernelHeight st) (strideHeight st)
  = Some oH ->
  exists st' out,
    Forward st input = Some (st', out)
    /\ outputWidth st' = oW /\ outputHeight st' = oH.
Proof.
  intros Hwf Hn Hd Hnw HW HH. unfold Forward.
  rewrite (divisor_exact _ _ _ Hnw).
  replace (SIZE_MOD <=? n_elem input)%N with false
    by (symmetry; apply N.leb_gt; exact Hn).
  destruct (@slices_exact (inputWidth st * inputHeight st) (n_cols input)
              (n_elem input) Hd Hn) as [Es Hfit].
  rewrite Es.
  replace (within _ _) with true
    by (symmetry; apply within_le; unfold wf in Hwf; lia).
  apply N.eqb_neq in Hd. rewrite Hd, HW, HH. cbn [negb].
  eexists. eexists. split; [reflexivity|]. simpl.
  match goal with
  | |- c_rows (pool_slices ?s ?a ?b) = _ /\ _ =>
      destruct (pool_slices_dims s a b) as (-> & -> & _)
  end.
  now split.
Qed.

(** C2. On an input whose size the layer can address and for input
    dimensions, kernel and strides of at most 50 bits, [Forward] stores
    floor((inputWidth - kernelWidth) / strideWidth + 1) as the output width
    in floor mode and the ceiling of the same quantity in ceil mode, and the
    height likewise: the [double] arithmetic of the source then gives the
    value of the exact formula.  A 5 x 5 input with a 2 x 2 kernel and
    stride 2 gives a 2 x 2 output in floor mode and a 3 x 3 output in ceil
    mode. *)
Theorem Forward_output_size :
  (forall (st : State) (input : mat),
      wf input -> (n_elem input < SIZE_MOD)%N ->
      (inputWidth st * inputHeight st * n_cols input)%N <> 0%N ->
      (inputWidth st * inputHeight st * n_cols input < SIZE_MOD)%N ->
      exact_sizes st ->
      strideWidth st <> 0%N ->
      strideHeight st <> 0%N ->
      let eW :=
        if floor st
        then Qfloor (exact_extent (inputWidth st) (kernelWidth st)
                                  (strideWidth st))
        else Qceiling (exact_extent (inputWidth st) (kernelWidth st)
                                    (strideWidth st))
      in
      let eH :=
        if floor st
        then Qfloor (exact_extent (inputHeight st) (kernelHeight st)
                                  (strideHeight st))
        else Qceiling (exact_extent (inputHeight st) (kernelHeight st)
                                    (strideHeight st))
      in
      (0 <= eW)%Z -> (0 <= eH)%Z ->
      exists st' out,
        Forward st input = Some (st', out)
        /\ Z.of_N (outputWidth st') = eW
        /\ Z.of_N (outputHeight st') = eH)
  /\ (forall input : mat,
        wf input -> (n_elem input < SIZE_MOD)%N ->
        n_cols input <> 0%N -> (25 * n_cols input < SIZE_MOD)%N ->
        exists st' out,
          Forward (set_input_dims (MeanPoolingType 2 2 2 2 true) 5 5) input
          = Some (st', out)
          /\ outputWidth st' = 2%N /\ outputHeight st' = 2%N)
  /\ (forall input : mat,
        wf input -> (n_elem input < SIZE_MOD)%N ->
        n_cols input <> 0%N -> (25 * n_cols input < SIZE_MOD)%N ->
        exists st' out,
          Forward (set_input_dims (MeanPoolingType 2 2 2 2 false) 5 5) input
          = Some (st', out)
          /\ outputWidth st' = 3%N /\ outputHeight st' = 3%N).
Proof.
  split; [|split].
  - intros st input Hwf Hn Hd Hnw (HiW & HiH & HkW & HkH & HsW & HsH)
      HsW0 HsH0 eW eH HW HH.
    destruct (out_extent_exact HiW HkW HsW HsW0) as [FW CW].
    destruct (out_extent_exact HiH HkH HsH HsH0) as [FH CH].
    pose proof (@exact_extent_small (floor st) _ (kernelWidth st) _
                  HiW HkW HsW0) as BW.
    pose proof (@exact_extent_small (floor st) _ (kernelHeight st) _
                  HiH HkH HsH0) as BH.
    fold eW in BW. fold eH in BH.
    destruct (@Forward_dims st input (Z.to_N eW) (Z.to_N eH))
      as (st' & out & HF & EW & EH); try assumption.
    + rewrite out_dim_some; [| exact HsW0 | rewrite FW, CW; fold eW; lia].
      now rewrite FW, CW.
    + rewrite out_dim_some; [| exact HsH0 | rewrite FH, CH; fold eH; lia].
      now rewrite FH, CH.
    + exists st', out. split; [exact HF|].
      rewrite EW, EH, !Z2N.id; [now split | exact HH | exact HW].
  - intros input Hwf Hn Hc Hnw.
    apply Forward_dims; try assumption; try reflexivity;
      unfold set_input_dims; cbn [inputWidth inputHeight]; lia.
  - intros input Hwf Hn Hc Hnw.
    apply Forward_dims; try assumption; try reflexivity;
      unfold set_input_dims; cbn [inputWidth inputHeight]; lia.
Qed.

Lemma Forward_output_size_witness :
  exists st' out,
    Forward (set_input_dims (MeanPoolingType 3 2 2 1 false) 8 6)
            (filled 1%Qc 48 2)
    = Some (st', out)
    /\ Z.of_N (outputWidth st') = 4%Z
    /\ Z.of_N (outputHeight st') = 5%Z.
Proof.
  apply (proj1 Forward_output_size
           (set_input_dims (MeanPoolingType 3 2 2 1 false) 8 6)
           (filled 1%Qc 48 2));
    try reflexivity;
    try (vm_compute; discriminate);
    vm_compute; repeat split.
Defined.

Lemma Unpooling_same_kernel (st st' : State) (x e o : mat) :
  kernelWidth st' = kernelWidth st -> kernelHeight st' = kernelHeight st ->
  strideWidth st' = strideWidth st -> strideHeight st' = strideHeight st ->
  Unpooling st' x e o = Unpooling st x e o.
Proof.
  intros kW kH sW sH.
  unfold Unpooling, add_window, covers, window_count, window, window_rows,
    window_cols.
  now rewrite kW, kH, sW, sH.
Qed.

(** C9. [Backward] does not read its input argument.  Two calls that differ
    only in it return the same state and the same input gradient; more
    generally, on two layers of the same configuration that hold the same
    state cached by [Forward] (inputTemp, outputWidth, outputHeight, outSize,
    batchSize), [Backward] returns the same input gradient for the same
    output gradient, whatever the two inputs. *)
Theorem Backward_ignores_input :
  (forall (st : State) (input1 input2 gy : mat),
      Backward st input1 gy = Backward st input2 gy)
  /\ (forall (st st' : State) (input1 input2 gy : mat),
        kernelWidth st' = kernelWidth st ->
        kernelHeight st' = kernelHeight st ->
        strideWidth st' = strideWidth st ->
        strideHeight st' = strideHeight st ->
        inputTemp st' = inputTemp st ->
        outputWidth st' = outputWidth st ->
        outputHeight st' = outputHeight st ->
        outSize st' = outSize st ->
        batchSize st' = batchSize st ->
        option_map snd (Backward st' input2 gy)
        = option_map snd (Backward st input1 gy)).
Proof.
  split; [reflexivity|].
  intros st st' input1 input2 gy kW kH sW sH ET EoW EoH EoS Eb.
  unfold Backward. rewrite ET, EoW, EoH, EoS, Eb.
  set (errT := cube_view (mem gy) (outputWidth st) (outputHeight st)
                         (outSize st)).
  destruct (negb (within (mem gy) _)); [reflexivity|].
  destruct (c_slices (inputTemp st) <? c_slices errT)%N; [reflexivity|].
  destruct (batchSize st =? 0)%N; [reflexivity|].
  cbn [option_map snd].
  assert (EU : forall zero,
             unpool_slices st' (inputTemp st) errT zero
             = unpool_slices st (inputTemp st) errT zero).
  { intros zero. unfold unpool_slices, sweep, for_.
    generalize (range (c_slices errT)). intros l. revert zero.
    induction l as [|s l IH]; intros zero; [reflexivity|].
    cbn [fold_left].
    rewrite (@Unpooling_same_kernel st st' _ _ _ kW kH sW sH). apply IH. }
  now rewrite EU.
Qed.

Lemma Backward_ignores_input_witness :
  option_map snd (Backward after_backward sample_6x2 grad_4x2)
  = option_map snd (Backward after_forward sample_9x2 grad_4x2).
Proof.
  apply (proj2 Backward_ignores_input after_forward after_backward
           sample_9x2 sample_6x2 grad_4x2);
    reflexivity.
Defined.

End MeanPoolingFacts.

(* ===================================================================== *)
(** * MeanPooling: the values of Forward and Backward *)
(* ===================================================================== *)

Module MeanPoolingValues.

Import ArmaFacts CubeFacts MeanPooling MeanPoolingFacts.

(** ** Accumulating loops *)

Lemma adds_for (n : N) (body : N -> mat -> mat) (w : N -> N -> N -> Qc) :
  (forall i, adds (body i) (w i)) ->
  adds (for_ n body) (fun R k => sum (map (fun i => w i R k) (range n))).
Proof.
  intros H. induction n as [|n IH] using N.peano_ind; intros m.
  - rewrite for_0. repeat split. intros k _. simpl. ring.
  - rewrite for_succ.
    destruct (IH m) as (Ir & Ic & Il & Ig).
    destruct (H n (for_ n body m)) as (Br & Bc & Bl & Bg).
    repeat split; try congruence.
    intros k Hk. rewrite Bg by congruence. rewrite Ig by exact Hk.
    rewrite range_succ, map_app, sum_app, Ir. simpl. ring.
Qed.

Lemma add_window_adds (st : State) (input : mat) (i j : N) (v : Qc) :
  adds (add_window st input i j v)
       (fun R k => if covers st input i j (k mod R) (k / R) then v else 0%Qc).
Proof.
  intros m. unfold add_window. simpl. repeat split.
  - apply mapi_length.
  - intros k Hk. rewrite get_mapi by exact Hk.
    destruct (covers st input i j (k mod n_rows m) (k / n_rows m)); ring.
Qed.

Lemma Unpooling_adds (st : State) (input error : mat) :
  adds (Unpooling st input error)
       (fun R k => contribution st input error (k mod R) (k / R)).
Proof.
  unfold Unpooling, contribution.
  apply (adds_for (n_cols error)
           (fun j => for_ (n_rows error)
              (fun i => add_window st input i j
                 (at_ error i j / window_count st input i j)%Qc))
           (fun j R k =>
              sum (map (fun i =>
                     if covers st input i j (k mod R) (k / R)
                     then (at_ error i j / window_count st input i j)%Qc
                     else 0%Qc)
                   (range (n_rows error))))).
  intros j.
  apply (adds_for (n_rows error)
           (fun i => add_window st input i j
              (at_ error i j / window_count st input i j)%Qc)
           (fun i R k =>
              if covers st input i j (k mod R) (k / R)
              then (at_ error i j / window_count st input i j)%Qc
              else 0%Qc)).
  intros i. apply add_window_adds.
Qed.

Lemma cell_offset (R r c : N) :
  (r < R)%N -> ((r + c * R) mod R = r /\ (r + c * R) / R = c)%N.
Proof.
  intros H. split.
  - rewrite N.Div0.mod_add. now apply N.mod_small.
  - rewrite N.div_add by lia. rewrite N.div_small by exact H. lia.
Qed.

(** Every cell of the output of [Unpooling] holds what it held before plus
    the contributions of the windows that cover it. *)
Lemma Unpooling_cell (st : State) (input error output : mat) (r c : N) :
  wf output -> (r < n_rows output)%N -> (c < n_cols output)%N ->
  get (mem (Unpooling st input error output)) (r + c * n_rows output)
  = (at_ output r c + contribution st input error r c)%Qc.
Proof.
  intros Hwf Hr Hc.
  destruct (Unpooling_adds st input error output) as (_ & _ & _ & Ug).
  unfold at_. rewrite Ug.
  - destruct (cell_offset c Hr) as [-> ->]. reflexivity.
  - unfold wf, n_elem in Hwf. nia.
Qed.

(** ** Chunks of memory *)

Lemma get_chunks (f : N -> list Qc) (K n s k : N) :
  (forall t, (t < n)%N -> length (f t) = N.to_nat K) ->
  (s < n)%N -> (k < K)%N ->
  get (flat_map f (range n)) (s * K + k) = get (f s) k.
Proof.
  induction n as [|n IH] using N.peano_ind; intros Hlen Hs Hk; [lia|].
  assert (Hpre : length (flat_map f (range n)) = N.to_nat (n * K)).
  { clear IH Hs. induction n as [|n IH] using N.peano_ind; [reflexivity|].
    rewrite range_succ, flat_map_app, length_app, IH.
    - simpl. rewrite app_nil_r, Hlen; lia.
    - intros t Ht. apply Hlen. lia. }
  rewrite range_succ, flat_map_app. simpl. rewrite app_nil_r.
  destruct (N.eq_dec s n) as [->|Hne].
  - rewrite get_app_r by (rewrite Hpre; lia).
    rewrite Hpre. f_equal. lia.
  - rewrite get_app_l by (rewrite Hpre; nia).
    apply IH; try lia. intros t Ht. apply Hlen. lia.
Qed.

Lemma firstn_repeat_le {T : Type} (x : T) (n m : nat) :
  (n <= m)%nat -> firstn n (repeat x m) = repeat x n.
Proof.
  revert m. induction n as [|n IH]; intros m H; [reflexivity|].
  destruct m as [|m]; [lia|]. simpl. f_equal. apply IH. lia.
Qed.

Lemma skipn_repeat_sub {T : Type} (x : T) (n m : nat) :
  skipn n (repeat x m) = repeat x (m - n).
Proof.
  revert m. induction n as [|n IH]; intros m.
  - simpl. f_equal. lia.
  - destruct m as [|m]; [reflexivity|]. simpl. apply IH.
Qed.

Lemma slice_zeros (r c n s : N) :
  (s < n)%N -> slice (zeros_cube r c n) s = zeros r c.
Proof.
  intros H. unfold slice, zeros_cube, zeros, slice_elem. simpl. f_equal.
  rewrite skipn_repeat_sub. apply firstn_repeat_le. nia.
Qed.

Lemma zeros_wf (r c : N) : wf (zeros r c).
Proof. unfold wf, zeros, n_elem. simpl. apply repeat_length. Qed.

Lemma at_zeros (r c i j : N) : at_ (zeros r c) i j = 0%Qc.
Proof. unfold at_, zeros. simpl. now apply get_repeat. Qed.

(** ** The state between Forward and Backward *)

Lemma flat_map_ext_range {T : Type} (f g : N -> list T) (n : N) :
  (forall s, (s < n)%N -> f s = g s) ->
  flat_map f (range n) = flat_map g (range n).
Proof.
  intros H. induction n as [|n IH] using N.peano_ind; [reflexivity|].
  rewrite range_succ, !flat_map_app. simpl. rewrite !app_nil_r.
  rewrite IH by (intros; apply H; lia). rewrite H by lia. reflexivity.
Qed.

Lemma Forward_inv (st : State) (input : mat) (st1 : State) (out : mat) :
  Forward st input = Some (st1, out) ->
  let b := n_cols input in
  let d := size_mul (size_mul (inputWidth st) (inputHeight st)) b in
  let n := size_mul b (n_elem input / d) in
  exists oW oH,
    d <> 0%N
    /\ out_dim (floor st) (inputWidth st) (kernelWidth st) (strideWidth st)
       = Some oW
    /\ out_dim (floor st) (inputHeight st) (kernelHeight st) (strideHeight st)
       = Some oH
    /\ kernelWidth st1 = kernelWidth st /\ kernelHeight st1 = kernelHeight st
    /\ strideWidth st1 = strideWidth st /\ strideHeight st1 = strideHeight st
    /\ floor st1 = floor st
    /\ inputWidth st1 = inputWidth st /\ inputHeight st1 = inputHeight st
    /\ batchSize st1 = b /\ outSize st1 = n
    /\ inSize st1 = (n_elem input / d)%N
    /\ outputWidth st1 = oW /\ outputHeight st1 = oH
    /\ inputTemp st1 = cube_view (mem input) (inputWidth st) (inputHeight st) n
    /\ out = mat_of_mem
               (cmem (pool_slices st (inputTemp st1) (zeros_cube oW oH n)))
               (oW * oH * n / b) b
    /\ (n_elem input < SIZE_MOD)%N
    /\ (N.to_nat (inputWidth st * inputHeight st * n) <= length (mem input))%nat.
Proof.
  unfold Forward. intros H.
  destruct (N.leb_spec SIZE_MOD (n_elem input)) as [|Hn]; [discriminate|].
  destruct (N.eqb_spec (size_mul (size_mul (inputWidth st) (inputHeight st))
                                 (n_cols input)) 0)
    as [|Hd]; [discriminate|].
  destruct (within (mem input) _) eqn:Hfit; cbn [negb] in H; [|discriminate].
  apply within_le in Hfit.
  destruct (out_dim (floor st) (inputWidth st) (kernelWidth st)
              (strideWidth st)) as [oW|]; [|discriminate].
  destruct (out_dim (floor st) (inputHeight st) (kernelHeight st)
              (strideHeight st)) as [oH|]; [|discriminate].
  injection H as <- <-. exists oW, oH. simpl.
  match goal with
  | |- context [pool_slices ?s ?a ?b] =>
      destruct (pool_slices_dims s a b) as (Dr & Dc & Ds)
  end.
  simpl in Dr, Dc, Ds.
  repeat split; try assumption; try reflexivity.
  unfold c_elem. now rewrite Dr, Dc, Ds.
Qed.

(** The same when the divisor of line 59 does not wrap around: the products
    are those of the naturals. *)
Lemma Forward_exact (st : State) (input : mat) (st1 : State) (out : mat) :
  (inputWidth st * inputHeight st * n_cols input < SIZE_MOD)%N ->
  Forward st input = Some (st1, out) ->
  let b := n_cols input in
  let n := (b * (n_elem input / (inputWidth st * inputHeight st * b)))%N in
  exists oW oH,
    (inputWidth st * inputHeight st * b)%N <> 0%N
    /\ out_dim (floor st) (inputWidth st) (kernelWidth st) (strideWidth st)
       = Some oW
    /\ out_dim (floor st) (inputHeight st) (kernelHeight st) (strideHeight st)
       = Some oH
    /\ kernelWidth st1 = kernelWidth st /\ kernelHeight st1 = kernelHeight st
    /\ strideWidth st1 = strideWidth st /\ strideHeight st1 = strideHeight st
    /\ floor st1 = floor st
    /\ inputWidth st1 = inputWidth st /\ inputHeight st1 = inputHeight st
    /\ batchSize st1 = b /\ outSize st1 = n
    /\ inSize st1 = (n_elem input / (inputWidth st * inputHeight st * b))%N
    /\ outputWidth st1 = oW /\ outputHeight st1 = oH
    /\ inputTemp st1 = cube_view (mem input) (inputWidth st) (inputHeight st) n
    /\ out = mat_of_mem
               (cmem (pool_slices st (inputTemp st1) (zeros_cube oW oH n)))
               (oW * oH * n / b) b.
Proof.
  intros Hnw HF b n.
  destruct (@Forward_inv st input st1 out HF)
    as (oW & oH & Hd & EW & EH & kW & kH & sW & sH & fl & iW & iH & Eb & En
        & Ei & EoW & EoH & ET & Eout & Hn & _).
  cbv zeta in Hd, En, Ei, ET, Eout.
  rewrite (divisor_exact _ _ _ Hnw) in Hd, En, Ei, ET, Eout.
  destruct (@slices_exact (inputWidth st * inputHeight st) (n_cols input)
              (n_elem input) Hd Hn) as [Es _].
  rewrite Es in En, ET, Eout.
  exists oW, oH. repeat split; assumption.
Qed.

Lemma cube_view_length (l : list Qc) (r c n : N) :
  (N.to_nat (r * c * n) <= length l)%nat ->
  length (cmem (cube_view l r c n)) = N.to_nat (r * c * n).
Proof. intros H. unfold cube_view. simpl. rewrite length_firstn. lia. Qed.

(** The state that [Forward] leaves is ready for [Backward] when the slice
    count is the product of the batch size and the channels. *)
Lemma Forward_ready (st : State) (input : mat) (st1 : State) (out : mat) :
  Forward st input = Some (st1, out) ->
  outSize st1 = (batchSize st1 * inSize st1)%N ->
  ready st1.
Proof.
  intros H Hprod. pose proof H as H'. apply Forward_inv in H.
  destruct H as (oW & oH & Hd & _ & _ & _ & _ & _ & _ & _ & EW & EH & Eb & En
                 & Ei & _ & _ & ET & _ & _ & Hfit).
  cbv zeta in Hd, En, ET, Hfit.
  unfold ready. rewrite ET at 1 2 3. cbn [c_rows c_cols c_slices cube_view].
  rewrite EW, EH, <- En.
  split; [reflexivity|]. split; [reflexivity|]. split; [reflexivity|].
  split; [exact Hprod|]. split.
  - rewrite Eb. intros E. apply Hd. rewrite E. apply size_mul_0_r.
  - rewrite ET. rewrite cube_view_length by exact Hfit. reflexivity.
Qed.

Lemma Forward_product (st : State) (input : mat) (st1 : State) (out : mat) :
  (inputWidth st * inputHeight st * n_cols input < SIZE_MOD)%N ->
  Forward st input = Some (st1, out) ->
  outSize st1 = (batchSize st1 * inSize st1)%N.
Proof.
  intros Hnw HF.
  destruct (@Forward_exact st input st1 out Hnw HF)
    as (oW & oH & _ & _ & _ & _ & _ & _ & _ & _ & _ & _ & Eb & En & Ei & _).
  now rewrite En, Eb, Ei.
Qed.

Lemma Unpooling_length (st : State) (input error output : mat) :
  length (mem (Unpooling st input error output)) = length (mem output).
Proof. now destruct (Unpooling_adds st input error output) as (_ & _ & H & _). Qed.

(** What [Backward] returns in a state left by [Forward]. *)
Lemma Backward_ready (st : State) (input gy : mat) :
  ready st ->
  (N.to_nat (outputWidth st * outputHeight st * outSize st)
   <= length (mem gy))%nat ->
  let W := inputWidth st in
  let H := inputHeight st in
  let errT :=
    cube_view (mem gy) (outputWidth st) (outputHeight st) (outSize st) in
  exists st2 g,
    Backward st input gy = Some (st2, g)
    /\ n_rows g = (W * H * inSize st)%N
    /\ n_cols g = batchSize st
    /\ mem g = flat_map (fun s => mem (Unpooling st (slice (inputTemp st) s)
                                         (slice errT s) (zeros W H)))
                        (range (outSize st)).
Proof.
  intros (Er & Ec & Es & En & Eb & El) Hgy W H errT.
  unfold Backward. fold errT. rewrite Er, Ec, Es. fold W H.
  replace (within (mem gy) _) with true
    by (symmetry; now apply within_le).
  cbn [negb].
  replace (outSize st <? c_slices errT)%N with false
    by (symmetry; apply N.ltb_ge; simpl; lia).
  apply N.eqb_neq in Eb. rewrite Eb. apply N.eqb_neq in Eb.
  eexists. eexists. split; [reflexivity|].
  set (F := fun s m => Unpooling st (slice (inputTemp st) s) (slice errT s) m).
  assert (FL : forall s m, n_rows m = W -> n_cols m = H ->
                 length (mem m) = N.to_nat (W * H) ->
                 length (mem (F s m)) = N.to_nat (W * H))
    by (intros s m _ _ Hm; unfold F; now rewrite Unpooling_length).
  set (zero := zeros_cube W H (outSize st)).
  assert (Hz : (N.to_nat (W * H * outSize st) <= length (cmem zero))%nat)
    by (unfold zero, zeros_cube; simpl; rewrite repeat_length; lia).
  change (unpool_slices st (inputTemp st) errT zero)
    with (sweep F (outSize st) zero).
  destruct (sweep_dims F (outSize st) zero) as (Dr & Dc & Ds).
  pose proof (sweep_mem F FL (outSize st) zero eq_refl eq_refl Hz) as Hm.
  pose proof (swept_length F FL (outSize st) zero eq_refl eq_refl Hz) as Hl.
  assert (Htail : skipn (N.to_nat (outSize st * (W * H))) (cmem zero) = [])
    by (apply skipn_all2; unfold zero, zeros_cube; simpl;
        rewrite repeat_length; lia).
  rewrite Htail, app_nil_r in Hm.
  assert (Hflat : cmem (sweep F (outSize st) zero)
                  = flat_map (fun s => mem (F s (zeros W H)))
                             (range (outSize st))).
  { rewrite Hm. apply flat_map_ext_range. intros s Hs.
    unfold zero. now rewrite slice_zeros. }
  unfold mat_of_mem, c_elem. simpl. rewrite Dr, Dc, Ds. simpl.
  assert (Hq : (W * H * outSize st / batchSize st = W * H * inSize st)%N).
  { rewrite En.
    replace (W * H * (batchSize st * inSize st))%N
      with (W * H * inSize st * batchSize st)%N by lia.
    now apply N.div_mul. }
  rewrite Hq. repeat split.
  transitivity (cmem (sweep F (outSize st) zero)); [|exact Hflat].
  apply firstn_all2. rewrite Hm, Hl, En. lia.
Qed.

(** ** Single-cell windows *)

Section UnitKernel.

Variable st : State.
Hypothesis kW : kernelWidth st = 1%N.
Hypothesis kH : kernelHeight st = 1%N.
Hypothesis sW : strideWidth st = 1%N.
Hypothesis sH : strideHeight st = 1%N.

Lemma span_unit (i R : N) :
  (i < R)%N -> span (i * 1) (N.min (i * 1 + 1) R) = [i].
Proof.
  intros H. unfold span.
  replace (N.min (i * 1 + 1) R - i * 1)%N with 1%N by lia.
  simpl. f_equal. lia.
Qed.

Lemma window_unit (input : mat) (i j : N) :
  (i < n_rows input)%N -> (j < n_cols input)%N ->
  window st input i j = [(i, j)].
Proof.
  intros Hi Hj. unfold window, window_rows, window_cols.
  rewrite kW, kH, sW, sH, !span_unit by assumption. reflexivity.
Qed.

Lemma of_count_1 : of_count 1 = 1%Qc.
Proof. reflexivity. Qed.

Lemma window_mean_unit (input : mat) (i j : N) :
  (i < n_rows input)%N -> (j < n_cols input)%N ->
  window_mean st input i j = at_ input i j.
Proof.
  intros Hi Hj. unfold window_mean, window_count.
  rewrite window_unit by assumption. simpl. rewrite of_count_1.
  field. discriminate.
Qed.

Lemma covers_unit (input : mat) (i j r c : N) :
  (r < n_rows input)%N -> (c < n_cols input)%N ->
  covers st input i j r c = ((i =? r) && (j =? c))%N.
Proof.
  intros Hr Hc. unfold covers. rewrite kW, kH, sW, sH.
  destruct (N.eqb_spec i r) as [->|Hi], (N.eqb_spec j c) as [->|Hj]; simpl.
  - replace (r * 1 <=? r)%N with true by (symmetry; apply N.leb_le; lia).
    replace (r <? N.min (r * 1 + 1) (n_rows input))%N with true
      by (symmetry; apply N.ltb_lt; lia).
    replace (c * 1 <=? c)%N with true by (symmetry; apply N.leb_le; lia).
    replace (c <? N.min (c * 1 + 1) (n_cols input))%N with true
      by (symmetry; apply N.ltb_lt; lia).
    reflexivity.
  - apply andb_false_iff.
    destruct (N.leb_spec (j * 1) c); [|left; apply andb_false_r].
    right. apply N.ltb_ge. lia.
  - apply andb_false_iff. left. apply andb_false_iff. left.
    apply andb_false_iff.
    destruct (N.leb_spec (i * 1) r); [|now left].
    right. apply N.ltb_ge. lia.
  - apply andb_false_iff. left. apply andb_false_iff. left.
    apply andb_false_iff.
    destruct (N.leb_spec (i * 1) r); [|now left].
    right. apply N.ltb_ge. lia.
Qed.

Lemma contribution_unit (input error : mat) (r c : N) :
  (r < n_rows input)%N -> (c < n_cols input)%N ->
  (r < n_rows error)%N -> (c < n_cols error)%N ->
  contribution st input error r c = at_ error r c.
Proof.
  intros Hr Hc Hr' Hc'. unfold contribution.
  rewrite (sum_single _ (n := n_cols error) (r := c)) by
    (try assumption; intros j Hj Hne; apply sum_zero; intros i _;
     rewrite covers_unit by assumption;
     apply N.eqb_neq in Hne; rewrite Hne, andb_false_r; reflexivity).
  rewrite (sum_single _ (n := n_rows error) (r := r)) by
    (try assumption; intros i Hi Hne;
     rewrite covers_unit by assumption;
     apply N.eqb_neq in Hne; rewrite Hne; reflexivity).
  rewrite covers_unit, !N.eqb_refl by assumption. simpl.
  unfold window_count. rewrite window_unit by assumption. simpl.
  rewrite of_count_1. field. discriminate.
Qed.

(** Pooling with single-cell windows copies the input. *)
Lemma Pooling_unit (input output : mat) :
  wf input -> n_rows output = n_rows input -> n_cols output = n_cols input ->
  mem (Pooling st input output) = mem input.
Proof.
  intros Hwf Hr Hc. unfold Pooling. simpl. rewrite Hr, Hc.
  change (grid (window_mean st input) (n_rows input) (n_cols input)
          = mem input).
  transitivity (grid (at_ input) (n_rows input) (n_cols input));
    [|now apply mem_grid].
  apply grid_ext. intros i j Hi Hj. now apply window_mean_unit.
Qed.

(** Unpooling with single-cell windows copies the error into a zero
    gradient. *)
Lemma Unpooling_unit (input error : mat) :
  wf error -> n_rows error = n_rows input -> n_cols error = n_cols input ->
  mem (Unpooling st input error (zeros (n_rows input) (n_cols input)))
  = mem error.
Proof.
  intros Hwf Hr Hc.
  destruct (Unpooling_adds st input error
              (zeros (n_rows input) (n_cols input))) as (_ & _ & Ul & Ug).
  unfold wf, n_elem in Hwf. rewrite Hr, Hc in Hwf.
  apply list_ext.
  - rewrite Ul. simpl. now rewrite repeat_length.
  - intros k Hk. rewrite Ul in Hk. rewrite Ug by exact Hk.
    simpl in Hk. rewrite repeat_length in Hk. simpl.
    rewrite get_repeat by reflexivity.
    assert (HR : n_rows input <> 0%N) by (intros E; rewrite E in Hk; lia).
    rewrite contribution_unit.
    + unfold at_. rewrite Hr. rewrite Qcplus_0_l. f_equal.
      rewrite N.add_comm, N.mul_comm. symmetry. now apply N.div_mod.
    + now apply N.mod_lt.
    + apply N.Div0.div_lt_upper_bound. lia.
    + rewrite Hr. now apply N.mod_lt.
    + rewrite Hc. apply N.Div0.div_lt_upper_bound. lia.
Qed.

End UnitKernel.

Lemma out_dim_unit (fl : bool) (w : N) :
  (w < EXACT)%N -> out_dim fl w 1 1 = Some w.
Proof.
  intros H. unfold out_dim. change (1 =? 0)%N with false. cbv iota.
  rewrite floor_extent, ceiling_extent
    by (try exact H; try reflexivity; discriminate).
  change (Z.of_N 1) with 1%Z.
  replace (Z.of_N w - 1 + 1)%Z with (Z.of_N w) by ring.
  rewrite Z.div_1_r, Z.div_1_r, Z.opp_involutive.
  unfold EXACT in H. apply N2Z.inj_lt in H.
  change (Z.of_N (2 ^ 50)) with (2 ^ 50)%Z in H.
  destruct fl;
    (rewrite to_size_t_some
       by (change (Z.of_N SIZE_MOD) with (2 ^ 64)%Z; lia);
     now rewrite N2Z.id).
Qed.

Lemma mat_ext (a b : mat) :
  n_rows a = n_rows b -> n_cols a = n_cols b -> mem a = mem b -> a = b.
Proof. destruct a, b. simpl. now intros -> -> ->. Qed.

Lemma slice_wf (q : cube) (s : N) :
  (N.to_nat ((s + 1) * slice_elem q) <= length (cmem q))%nat ->
  wf (slice q s).
Proof.
  intros H. unfold wf. rewrite slice_length by exact H. reflexivity.
Qed.

Lemma slices_whole (q : cube) :
  length (cmem q) = N.to_nat (c_elem q) ->
  flat_map (fun s => mem (slice q s)) (range (c_slices q)) = cmem q.
Proof.
  intros H. unfold slice. simpl. rewrite slices_concat.
  apply firstn_all2. unfold c_elem, slice_elem in *. lia.
Qed.

Lemma pool_slices_unit (st : State) (T : cube) :
  kernelWidth st = 1%N -> kernelHeight st = 1%N ->
  strideWidth st = 1%N -> strideHeight st = 1%N ->
  length (cmem T) = N.to_nat (c_elem T) ->
  cmem (pool_slices st T (zeros_cube (c_rows T) (c_cols T) (c_slices T)))
  = cmem T.
Proof.
  intros kW kH sW sH Hlen.
  set (W := c_rows T). set (H := c_cols T). set (n := c_slices T).
  set (F := fun s m => Pooling st (slice T s) m).
  set (zero := zeros_cube W H n).
  assert (FL : forall s m, n_rows m = W -> n_cols m = H ->
                 length (mem m) = N.to_nat (W * H) ->
                 length (mem (F s m)) = N.to_nat (W * H)).
  { intros s m Hr Hc _. unfold F, Pooling. simpl.
    change (length (grid (window_mean st (slice T s)) (n_rows m) (n_cols m))
            = N.to_nat (W * H)).
    now rewrite grid_length, Hr, Hc. }
  assert (Hz : (N.to_nat (W * H * n) <= length (cmem zero))%nat)
    by (unfold zero, zeros_cube; simpl; rewrite repeat_length; lia).
  change (pool_slices st T zero) with (sweep F n zero).
  rewrite (sweep_mem F FL n zero eq_refl eq_refl Hz).
  rewrite (skipn_all2 (n := N.to_nat (n * (W * H)))), app_nil_r
    by (unfold zero, zeros_cube; simpl; rewrite repeat_length; lia).
  rewrite <- (slices_whole T Hlen). fold n.
  apply flat_map_ext_range. intros s Hs.
  unfold zero. rewrite slice_zeros by exact Hs. unfold F.
  apply Pooling_unit; try assumption; try reflexivity.
  apply slice_wf. unfold c_elem, slice_elem in *. fold W H n in Hlen.
  fold W H. nia.
Qed.

Lemma divisible_elems (a d : N) :
  d <> 0%N -> (a mod d = 0)%N -> (d * (a / d) = a)%N.
Proof. intros Hd Hm. symmetry. now apply N.Div0.div_exact. Qed.

(** C8. With a 1 x 1 kernel and stride 1 in both directions, [Forward]
    returns its input, and [Backward] returns the output gradient it is
    given, for every input that meets the shape contract of the layer and
    whose size the layer can address: the divisor
    inputWidth * inputHeight * batchSize fits [size_t], and the input
    dimensions have at most 50 bits. *)
Theorem unit_pooling_is_identity (st : State) (input : mat) :
  kernelWidth st = 1%N -> kernelHeight st = 1%N ->
  strideWidth st = 1%N -> strideHeight st = 1%N ->
  wf input -> (n_elem input < SIZE_MOD)%N ->
  (inputWidth st * inputHeight st * n_cols input)%N <> 0%N ->
  (inputWidth st * inputHeight st * n_cols input < SIZE_MOD)%N ->
  (n_elem input mod (inputWidth st * inputHeight st * n_cols input) = 0)%N ->
  (inputWidth st < EXACT)%N -> (inputHeight st < EXACT)%N ->
  exists st1,
    Forward st input = Some (st1, input)
    /\ forall input' gy : mat,
         wf gy -> n_rows gy = n_rows input -> n_cols gy = n_cols input ->
         exists st2, Backward st1 input' gy = Some (st2, gy).
Proof.
  intros kW kH sW sH Hwf Hsz Hd Hnw Hmod HW HH.
  pose proof (out_dim_unit (floor st) HW) as DW.
  pose proof (out_dim_unit (floor st) HH) as DH.
  rewrite <- sW in DW at 2. rewrite <- kW in DW.
  rewrite <- sH in DH at 2. rewrite <- kH in DH.
  destruct (@Forward_dims st input _ _ Hwf Hsz Hd Hnw DW DH)
    as (st1 & out & HF & _ & _).
  pose proof (@Forward_ready st input st1 out HF
                (@Forward_product st input st1 out Hnw HF)) as Hready.
  destruct (@Forward_exact st input st1 out Hnw HF)
    as (oW & oH & _ & DW' & DH' & kW1 & kH1 & sW1 & sH1 & _ & EW & EH & Eb
        & En & Ei & EoW & EoH & ET & Eout).
  rewrite DW in DW'. injection DW' as <-.
  rewrite DH in DH'. injection DH' as <-.
  set (d := (inputWidth st * inputHeight st * n_cols input)%N) in *.
  set (n := (n_cols input * (n_elem input / d))%N) in *.
  assert (Hn : (inputWidth st * inputHeight st * n = n_elem input)%N).
  { pose proof (@divisible_elems (n_elem input) d Hd Hmod) as E.
    unfold n. unfold d in *. lia. }
  assert (Hb : n_cols input <> 0%N) by (intros E; unfold d in Hd; rewrite E in Hd; lia).
  assert (Hrows : (inputWidth st * inputHeight st * n / n_cols input
                   = n_rows input)%N).
  { rewrite Hn. unfold n_elem. now apply N.div_mul. }
  assert (HT : length (cmem (inputTemp st1)) = N.to_nat (c_elem (inputTemp st1)))
    by apply Hready.
  assert (Hview : cmem (inputTemp st1) = mem input).
  { rewrite ET. unfold cube_view. simpl. apply firstn_all2.
    unfold wf in Hwf. rewrite Hwf, Hn. lia. }
  assert (Hout : out = input).
  { rewrite Eout, Hrows. unfold mat_of_mem.
    pose proof (@pool_slices_unit st (inputTemp st1) kW kH sW sH HT) as HP.
    rewrite ET in HP at 2 3 4. simpl in HP. rewrite HP, Hview.
    rewrite firstn_all2 by (unfold wf, n_elem in Hwf; lia).
    now destruct input. }
  clear Eout. subst out. exists st1. split; [exact HF|].
  intros input' gy Hgy Hgr Hgc.
  assert (Hgn : n_elem gy = n_elem input)
    by (unfold n_elem; now rewrite Hgr, Hgc).
  assert (Hfit : (N.to_nat (outputWidth st1 * outputHeight st1 * outSize st1)
                  <= length (mem gy))%nat).
  { unfold wf in Hgy. rewrite Hgy, Hgn, EoW, EoH, En. fold d n. lia. }
  destruct (@Backward_ready st1 input' gy Hready Hfit)
    as (st2 & g & HB & Gr & Gc & Gm).
  exists st2. rewrite HB. f_equal. f_equal.
  set (errT := cube_view (mem gy) (outputWidth st1) (outputHeight st1)
                         (outSize st1)) in *.
  assert (HerrT : cmem errT = mem gy).
  { unfold errT, cube_view. simpl. apply firstn_all2.
    unfold wf in Hgy. rewrite Hgy, Hgn, EoW, EoH, En. fold d n. lia. }
  assert (Hmem : mem g = mem gy).
  { rewrite Gm, <- HerrT.
    rewrite <- (slices_whole errT)
      by (rewrite HerrT; unfold wf in Hgy; rewrite Hgy, Hgn;
          unfold errT, c_elem; simpl; rewrite EoW, EoH, En; fold d n; lia).
    replace (c_slices errT) with (outSize st1) by reflexivity.
    apply flat_map_ext_range. intros s Hs.
    assert (Hsl : wf (slice errT s)).
    { apply slice_wf. rewrite HerrT. unfold wf in Hgy. rewrite Hgy, Hgn.
      unfold errT, slice_elem. simpl. rewrite EoW, EoH.
      rewrite En in Hs. fold d n in Hs. rewrite <- Hn.
      clear - Hs. nia. }
    destruct Hready as (Er & Ec & _).
    pose proof (@Unpooling_unit st1 (eq_trans kW1 kW) (eq_trans kH1 kH)
                  (eq_trans sW1 sW) (eq_trans sH1 sH)
                  (slice (inputTemp st1) s) (slice errT s) Hsl) as HU.
    simpl in HU. rewrite Er, Ec in HU. apply HU.
    - now rewrite EoW, EW.
    - now rewrite EoH, EH. }
  apply mat_ext; [|congruence|exact Hmem].
  rewrite Gr, Hgr, EW, EH, Ei.
  apply (proj1 (N.mul_cancel_r _ _ (n_cols input) Hb)).
  unfold n_elem, n in Hn. lia.
Qed.

Lemma unit_pooling_is_identity_witness :
  exists st1,
    Forward pool_1x1_on_2x3 sample_6x2 = Some (st1, sample_6x2)
    /\ forall input' gy : mat,
         wf gy -> n_rows gy = n_rows sample_6x2 ->
         n_cols gy = n_cols sample_6x2 ->
         exists st2, Backward st1 input' gy = Some (st2, gy).
Proof.
  apply (@unit_pooling_is_identity pool_1x1_on_2x3 sample_6x2);
    try reflexivity.
  vm_compute. discriminate.
Defined.

(** ** Sums and inner products *)

Lemma sum_plus {T : Type} (f g : T -> Qc) (l : list T) :
  sum (map (fun x => (f x + g x)%Qc) l) = (sum (map f l) + sum (map g l))%Qc.
Proof.
  induction l as [|x l IH]; simpl; [ring|]. rewrite IH. ring.
Qed.

Lemma sum_scale_r {T : Type} (f : T -> Qc) (k : Qc) (l : list T) :
  sum (map (fun x => (f x * k)%Qc) l) = (sum (map f l) * k)%Qc.
Proof.
  induction l as [|x l IH]; simpl; [ring|]. rewrite IH. ring.
Qed.

Lemma sum_scale_l {T : Type} (f : T -> Qc) (k : Qc) (l : list T) :
  sum (map (fun x => (k * f x)%Qc) l) = (k * sum (map f l))%Qc.
Proof.
  induction l as [|x l IH]; simpl; [ring|]. rewrite IH. ring.
Qed.

Lemma sum_swap {T U : Type} (f : T -> U -> Qc) (la : list T) (lb : list U) :
  sum (map (fun a => sum (map (fun b => f a b) lb)) la)
  = sum (map (fun b => sum (map (fun a => f a b) la)) lb).
Proof.
  induction la as [|a la IH]; simpl.
  - symmetry. now apply sum_zero.
  - rewrite IH. symmetry. apply (sum_plus (fun b => f a b)).
Qed.

Lemma sum_flat_map {T U : Type} (f : U -> Qc) (g : T -> list U) (l : list T) :
  sum (map f (flat_map g l)) = sum (map (fun x => sum (map f (g x))) l).
Proof.
  induction l as [|x l IH]; simpl; [reflexivity|].
  now rewrite map_app, sum_app, IH.
Qed.

Lemma span_succ (lo n : N) :
  (lo <= n)%N -> span lo (N.succ n) = span lo n ++ [n].
Proof.
  intros H. unfold span.
  replace (N.succ n - lo)%N with (N.succ (n - lo)) by lia.
  rewrite range_succ, map_app. simpl. f_equal. f_equal. lia.
Qed.

Lemma span_empty (lo hi : N) : (hi <= lo)%N -> span lo hi = [].
Proof.
  intros H. unfold span. replace (hi - lo)%N with 0%N by lia. reflexivity.
Qed.

(** A sum over a span is the sum over the loop range of the terms inside. *)
Lemma sum_span (f : N -> Qc) (lo hi n : N) :
  (hi <= n)%N ->
  sum (map f (span lo hi))
  = sum (map (fun r => if ((lo <=? r) && (r <? hi))%N then f r else 0%Qc)
             (range n)).
Proof.
  revert hi. induction n as [|n IH] using N.peano_ind; intros hi H.
  - rewrite span_empty by lia. reflexivity.
  - rewrite range_succ, map_app, sum_app. simpl.
    destruct (N.eq_dec hi (N.succ n)) as [->|Hne].
    + destruct (N.le_gt_cases lo n) as [Hlo|Hlo].
      * rewrite span_succ, map_app, sum_app by exact Hlo. simpl.
        rewrite (IH n) by lia.
        replace (lo <=? n)%N with true by (symmetry; apply N.leb_le; lia).
        replace (n <? N.succ n)%N with true
          by (symmetry; apply N.ltb_lt; lia).
        simpl. f_equal.
        apply sum_ext. intros r Hr. apply in_range in Hr.
        replace (r <? n)%N with true by (symmetry; apply N.ltb_lt; lia).
        replace (r <? N.succ n)%N with true
          by (symmetry; apply N.ltb_lt; lia).
        reflexivity.
      * rewrite span_empty by lia. simpl.
        replace (lo <=? n)%N with false by (symmetry; apply N.leb_gt; lia).
        simpl. rewrite sum_zero; [ring|].
        intros r Hr. apply in_range in Hr.
        replace (lo <=? r)%N with false by (symmetry; apply N.leb_gt; lia).
        reflexivity.
    + rewrite (IH hi) by lia.
      replace (n <? hi)%N with false by (symmetry; apply N.ltb_ge; lia).
      rewrite andb_false_r. ring.
Qed.

Lemma combine_append {T U : Type} (a1 a2 : list T) (b1 b2 : list U) :
  length a1 = length b1 ->
  combine (a1 ++ a2) (b1 ++ b2) = combine a1 b1 ++ combine a2 b2.
Proof.
  revert b1. induction a1 as [|x a1 IH]; intros [|y b1] H;
    try discriminate; [reflexivity|].
  simpl. f_equal. apply IH. now injection H.
Qed.

Lemma dot_app (a1 a2 b1 b2 : list Qc) :
  length a1 = length b1 ->
  dot (a1 ++ a2) (b1 ++ b2) = (dot a1 b1 + dot a2 b2)%Qc.
Proof.
  intros H. unfold dot. rewrite combine_append by exact H.
  now rewrite map_app, sum_app.
Qed.

Lemma dot_map {T : Type} (f g : T -> Qc) (l : list T) :
  dot (map f l) (map g l) = sum (map (fun x => (f x * g x)%Qc) l).
Proof.
  unfold dot. induction l as [|x l IH]; simpl; [reflexivity|].
  now rewrite IH.
Qed.

Lemma grid_succ (f : N -> N -> Qc) (R C : N) :
  grid f R (N.succ C) = grid f R C ++ map (fun i => f i C) (range R).
Proof.
  unfold grid. rewrite range_succ, flat_map_app. simpl.
  now rewrite app_nil_r.
Qed.

Lemma dot_grid (f g : N -> N -> Qc) (R C : N) :
  dot (grid f R C) (grid g R C)
  = sum (map (fun j => sum (map (fun i => (f i j * g i j)%Qc) (range R)))
             (range C)).
Proof.
  induction C as [|C IH] using N.peano_ind; [reflexivity|].
  rewrite !grid_succ, range_succ, map_app, sum_app. simpl.
  rewrite dot_app by (now rewrite !grid_length).
  rewrite IH. f_equal. rewrite (dot_map (fun i => f i C)). ring.
Qed.

Lemma dot_chunks (f g : N -> list Qc) (n : N) :
  (forall s, (s < n)%N -> length (f s) = length (g s)) ->
  dot (flat_map f (range n)) (flat_map g (range n))
  = sum (map (fun s => dot (f s) (g s)) (range n)).
Proof.
  induction n as [|n IH] using N.peano_ind; intros H; [reflexivity|].
  rewrite range_succ, !flat_map_app, map_app, sum_app. simpl.
  rewrite !app_nil_r.
  assert (Hlen : length (flat_map f (range n)) = length (flat_map g (range n))).
  { clear IH. induction n as [|n IHn] using N.peano_ind; [reflexivity|].
    rewrite range_succ, !flat_map_app, !length_app. simpl.
    rewrite !app_nil_r, IHn, H by (try lia; intros; apply H; lia).
    reflexivity. }
  rewrite dot_app by exact Hlen.
  rewrite IH by (intros; apply H; lia). ring.
Qed.

Lemma dot_firstn (a b : list Qc) (k : nat) :
  (length b <= k)%nat -> dot (firstn k a) b = dot a b.
Proof.
  unfold dot. revert a b. induction k as [|k IH]; intros a b H.
  - destruct b; [|simpl in H; lia]. simpl. now destruct a.
  - destruct a as [|x a]; [reflexivity|].
    destruct b as [|y b]; [reflexivity|]. simpl in *.
    rewrite IH by lia. reflexivity.
Qed.

(** ** The adjoint on one slice *)

Section SliceAdjoint.

Variable st : State.

Lemma covers_split (x : mat) (i j r c : N) :
  covers st x i j r c
  = (((i * strideWidth st <=? r)
      && (r <? N.min (i * strideWidth st + kernelWidth st) (n_rows x)))
     && ((j * strideHeight st <=? c)
         && (c <? N.min (j * strideHeight st + kernelHeight st)
                        (n_cols x))))%N.
Proof. unfold covers. now rewrite <- !andb_assoc. Qed.

(** The sum over the cells of a window is the sum over all the cells that
    the window covers. *)
Lemma window_sum (x : mat) (i j : N) (h : N -> N -> Qc) :
  sum (map (fun rc => h (fst rc) (snd rc)) (window st x i j))
  = sum (map (fun c =>
           sum (map (fun r => if covers st x i j r c then h r c else 0%Qc)
                    (range (n_rows x))))
         (range (n_cols x))).
Proof.
  unfold window. rewrite sum_flat_map.
  rewrite (sum_ext
             (fun c => sum (map (fun rc => h (fst rc) (snd rc))
                                (map (fun r => (r, c)) (window_rows st x i))))
             (fun c => sum (map (fun r => h r c) (window_rows st x i))))
    by (intros c _; now rewrite map_map).
  unfold window_cols.
  rewrite (@sum_span _ _ _ (n_cols x)) by apply N.le_min_r.
  apply sum_ext. intros c _.
  unfold window_rows.
  rewrite (@sum_span _ _ _ (n_rows x)) by apply N.le_min_r.
  destruct ((j * strideHeight st <=? c)
            && (c <? N.min (j * strideHeight st + kernelHeight st)
                           (n_cols x)))%N eqn:Hc.
  - apply sum_ext. intros r _. now rewrite covers_split, Hc, andb_true_r.
  - symmetry. apply sum_zero. intros r _.
    now rewrite covers_split, Hc, andb_false_r.
Qed.

Lemma Unpooling_zeros_mem (x e : mat) :
  mem (Unpooling st x e (zeros (n_rows x) (n_cols x)))
  = grid (contribution st x e) (n_rows x) (n_cols x).
Proof.
  destruct (Unpooling_adds st x e (zeros (n_rows x) (n_cols x)))
    as (_ & _ & Ul & Ug).
  simpl in Ul, Ug. rewrite repeat_length in Ul, Ug.
  apply list_ext.
  - now rewrite Ul, grid_length.
  - intros k Hk. rewrite Ul in Hk. rewrite Ug by exact Hk.
    rewrite get_repeat by reflexivity.
    rewrite get_grid by lia. apply Qcplus_0_l.
Qed.

Lemma sum4_swap (f : N -> N -> N -> N -> Qc) (lj li lc lr : list N) :
  sum (map (fun j => sum (map (fun i =>
         sum (map (fun c => sum (map (fun r => f i j r c) lr)) lc)) li)) lj)
  = sum (map (fun c => sum (map (fun r =>
         sum (map (fun j => sum (map (fun i => f i j r c) li)) lj)) lr)) lc).
Proof.
  rewrite (sum_ext _ (fun j => sum (map (fun c => sum (map (fun i =>
             sum (map (fun r => f i j r c) lr)) li)) lc)))
    by (intros j _; apply sum_swap).
  rewrite sum_swap. apply sum_ext. intros c _.
  rewrite (sum_ext _ (fun j => sum (map (fun r => sum (map (fun i =>
             f i j r c) li)) lr)))
    by (intros j _; apply sum_swap).
  apply sum_swap.
Qed.

(** On one slice, unpooling is the adjoint of pooling:
    <Pooling x, e> = <x, Unpooling e>. *)
Lemma slice_adjoint (x e : mat) :
  wf x -> wf e ->
  dot (mem (Pooling st x (zeros (n_rows e) (n_cols e)))) (mem e)
  = dot (mem x) (mem (Unpooling st x e (zeros (n_rows x) (n_cols x)))).
Proof.
  intros Hx He. rewrite Unpooling_zeros_mem.
  rewrite <- (mem_grid Hx). rewrite <- (mem_grid He).
  change (mem (Pooling st x (zeros (n_rows e) (n_cols e))))
    with (grid (window_mean st x) (n_rows e) (n_cols e)).
  rewrite !dot_grid.
  set (t := fun i j r c =>
              if covers st x i j r c
              then (at_ x r c * (at_ e i j / window_count st x i j))%Qc
              else 0%Qc).
  transitivity
    (sum (map (fun j => sum (map (fun i =>
       sum (map (fun c => sum (map (fun r => t i j r c)
                                   (range (n_rows x))))
                (range (n_cols x))))
       (range (n_rows e)))) (range (n_cols e)))).
  - apply sum_ext. intros j _. apply sum_ext. intros i _.
    unfold window_mean.
    rewrite (window_sum x i j (at_ x)).
    set (k := (at_ e i j / window_count st x i j)%Qc).
    transitivity
      (sum (map (fun c => sum (map (fun r =>
              if covers st x i j r c then at_ x r c else 0%Qc)
              (range (n_rows x)))) (range (n_cols x))) * k)%Qc.
    + unfold k, Qcdiv. ring.
    + rewrite <- sum_scale_r. apply sum_ext. intros c _.
      rewrite <- sum_scale_r. apply sum_ext. intros r _.
      unfold t. fold k. destruct (covers st x i j r c); ring.
  - rewrite sum4_swap. apply sum_ext. intros c _. apply sum_ext. intros r _.
    unfold contribution. rewrite <- sum_scale_l. apply sum_ext. intros j _.
    rewrite <- sum_scale_l. apply sum_ext. intros i _.
    unfold t. destruct (covers st x i j r c); ring.
Qed.

End SliceAdjoint.

(** ** The adjoint on the whole tensor *)

Lemma Pooling_same_kernel (st st' : State) (x o : mat) :
  kernelWidth st' = kernelWidth st -> kernelHeight st' = kernelHeight st ->
  strideWidth st' = strideWidth st -> strideHeight st' = strideHeight st ->
  Pooling st' x o = Pooling st x o.
Proof.
  intros kW kH sW sH.
  unfold Pooling, window_mean, window_count, window, window_rows, window_cols.
  now rewrite kW, kH, sW, sH.
Qed.

(** What [Forward] returns, slice by slice. *)
Lemma Forward_mem (st : State) (input : mat) (st1 : State) (out : mat) :
  Forward st input = Some (st1, out) ->
  outSize st1 = (batchSize st1 * inSize st1)%N ->
  n_rows out = (outputWidth st1 * outputHeight st1 * inSize st1)%N
  /\ n_cols out = batchSize st1
  /\ mem out
     = flat_map (fun s => mem (Pooling st1 (slice (inputTemp st1) s)
                                 (zeros (outputWidth st1) (outputHeight st1))))
                (range (outSize st1)).
Proof.
  intros HF Hprod.
  pose proof (@Forward_ready st input st1 out HF Hprod)
    as (_ & _ & Es & En & Eb & _).
  destruct (@Forward_inv st input st1 out HF)
    as (oW & oH & _ & _ & _ & kW & kH & sW & sH & _ & _ & _ & Ebs & En'
        & Ei & EoW & EoH & ET & Eout & _).
  cbv zeta in En', Eout.
  set (n := outSize st1) in *.
  rewrite <- En' in Eout. rewrite <- Ebs in Eout.
  rewrite EoW, EoH.
  set (F := fun s m => Pooling st (slice (inputTemp st1) s) m).
  set (zero := zeros_cube oW oH n) in *.
  assert (FL : forall s m, n_rows m = oW -> n_cols m = oH ->
                 length (mem m) = N.to_nat (oW * oH) ->
                 length (mem (F s m)) = N.to_nat (oW * oH)).
  { intros s m Hr Hc _. unfold F, Pooling. simpl.
    change (length (grid (window_mean st (slice (inputTemp st1) s))
                         (n_rows m) (n_cols m)) = N.to_nat (oW * oH)).
    now rewrite grid_length, Hr, Hc. }
  assert (Hz : (N.to_nat (oW * oH * n) <= length (cmem zero))%nat)
    by (unfold zero, zeros_cube; simpl; rewrite repeat_length; lia).
  assert (Hsw : pool_slices st (inputTemp st1) zero = sweep F n zero)
    by (unfold pool_slices; now rewrite Es).
  rewrite Hsw in Eout.
  pose proof (sweep_mem F FL n zero eq_refl eq_refl Hz) as Hm.
  pose proof (swept_length F FL n zero eq_refl eq_refl Hz) as Hl.
  rewrite (skipn_all2 (n := N.to_nat (n * (oW * oH)))), app_nil_r in Hm
    by (unfold zero, zeros_cube; simpl; rewrite repeat_length; lia).
  assert (Hq : (oW * oH * n / batchSize st1 = oW * oH * inSize st1)%N).
  { rewrite En.
    replace (oW * oH * (batchSize st1 * inSize st1))%N
      with (oW * oH * inSize st1 * batchSize st1)%N by lia.
    now apply N.div_mul. }
  rewrite Eout, Hq. unfold mat_of_mem.
  split; [reflexivity|]. split; [reflexivity|]. cbn [mem].
  rewrite firstn_all2 by (rewrite Hm, Hl, En; lia).
  rewrite Hm. apply flat_map_ext_range. intros s Hs.
  unfold zero. rewrite slice_zeros by exact Hs. unfold F.
  now rewrite (@Pooling_same_kernel st st1 _ _ kW kH sW sH).
Qed.

(** [Backward] is the adjoint of [Forward]:
    <Forward input, gy> = <input, Backward gy>. *)
Lemma Backward_adjoint (st : State) (input : mat) (st1 : State)
    (out input' gy : mat) :
  wf input -> wf gy ->
  (inputWidth st * inputHeight st * n_cols input < SIZE_MOD)%N ->
  Forward st input = Some (st1, out) ->
  n_rows gy = n_rows out -> n_cols gy = n_cols out ->
  exists st2 g,
    Backward st1 input' gy = Some (st2, g)
    /\ dot (mem out) (mem gy) = dot (mem input) (mem g).
Proof.
  intros Hwf Hgy Hnw HF Hgr Hgc.
  pose proof (@Forward_product st input st1 out Hnw HF) as Hprod.
  pose proof (@Forward_ready st input st1 out HF Hprod) as Hready.
  destruct (@Forward_mem st input st1 out HF Hprod) as (Or & Oc & Om).
  destruct (@Forward_exact st input st1 out Hnw HF)
    as (_ & _ & _ & _ & _ & _ & _ & _ & _ & _ & EW & EH & _ & _ & _ & _ & _
        & ET & _).
  assert (Hlen : length (mem gy)
                 = N.to_nat (outputWidth st1 * outputHeight st1
                             * outSize st1)).
  { unfold wf, n_elem in Hgy. rewrite Hgy, Hgr, Hgc, Or, Oc, Hprod. lia. }
  destruct (@Backward_ready st1 input' gy Hready ltac:(lia))
    as (st2 & g & HB & _ & _ & Gm).
  destruct Hready as (Er & Ec & Es & En & Eb & El).
  exists st2, g. split; [exact HB|].
  set (T := inputTemp st1) in *.
  set (W := inputWidth st1) in *. set (H := inputHeight st1) in *.
  set (oW := outputWidth st1) in *. set (oH := outputHeight st1) in *.
  set (n := outSize st1) in *.
  set (errT := cube_view (mem gy) oW oH n) in *.
  assert (HerrT : cmem errT = mem gy)
    by (unfold errT, cube_view; simpl; apply firstn_all2; lia).
  assert (HE : mem gy = flat_map (fun s => mem (slice errT s)) (range n)).
  { rewrite <- HerrT at 1. symmetry.
    apply (slices_whole errT). rewrite HerrT, Hlen. reflexivity. }
  assert (HT : cmem T = flat_map (fun s => mem (slice T s)) (range n)).
  { symmetry. rewrite <- Es. now apply slices_whole. }
  assert (HsT : forall s, (s < n)%N -> wf (slice T s)).
  { intros s Hs. apply slice_wf. rewrite El.
    unfold c_elem, slice_elem. rewrite Es. fold n. nia. }
  assert (HsE : forall s, (s < n)%N -> wf (slice errT s)).
  { intros s Hs. apply slice_wf. rewrite HerrT, Hlen.
    unfold slice_elem, errT. simpl. nia. }
  rewrite Om, HE at 1.
  rewrite dot_chunks.
  2:{ intros s Hs. simpl. fold (grid (window_mean st1 (slice T s)) oW oH).
      rewrite grid_length. symmetry.
      specialize (HsE s Hs). unfold wf in HsE. exact HsE. }
  rewrite (sum_ext _
             (fun s => dot (mem (slice T s))
                           (mem (Unpooling st1 (slice T s) (slice errT s)
                                   (zeros W H))))).
  2:{ intros s Hs. apply in_range in Hs.
      pose proof (slice_adjoint st1 (HsT s Hs) (HsE s Hs)) as HA.
      rewrite <- Er, <- Ec. exact HA. }
  rewrite <- dot_chunks.
  2:{ intros s Hs. rewrite Unpooling_length. simpl. rewrite repeat_length.
      specialize (HsT s Hs). unfold wf, n_elem in HsT. simpl in HsT.
      rewrite HsT, Er, Ec. reflexivity. }
  rewrite <- HT, <- Gm.
  rewrite ET. unfold cube_view. cbn [cmem].
  apply dot_firstn.
  rewrite Gm.
  assert (Hg : forall m,
             length (flat_map (fun s => mem (Unpooling st1 (slice T s)
                                   (slice errT s) (zeros W H))) (range m))
             = N.to_nat (m * (W * H))).
  { intros m. induction m as [|m IH] using N.peano_ind; [reflexivity|].
    rewrite range_succ, flat_map_app, length_app, IH. simpl.
    rewrite app_nil_r, Unpooling_length. simpl. rewrite repeat_length. lia. }
  rewrite (Hg n), En.
  destruct (@Forward_exact st input st1 out Hnw HF)
    as (_ & _ & _ & _ & _ & _ & _ & _ & _ & _ & _ & _ & Ebs & _ & Ei & _).
  rewrite Ebs, Ei, EW, EH. lia.
Qed.

(** ** The gradient of the averaging *)

Lemma mem_this_inj (l1 l2 : list Qc) :
  map this l1 = map this l2 -> l1 = l2.
Proof.
  revert l2. induction l1 as [|x l1 IH]; intros [|y l2] H;
    try discriminate; [reflexivity|].
  injection H as Hx Hl. f_equal; [|now apply IH].
  apply Qc_is_canon. now rewrite Hx.
Qed.

Lemma mat_this_ext (a b : mat) :
  n_rows a = n_rows b -> n_cols a = n_cols b ->
  map this (mem a) = map this (mem b) -> a = b.
Proof. intros Hr Hc Hm. apply mat_ext; auto using mem_this_inj. Qed.

(** C3. After a [Forward] on an input whose size the layer can address,
    [Backward] on an output gradient of the shape of the output hands to
    every input cell, from each window that covers it, that window's output
    gradient divided by the window's cell count, and adds up what the
    windows hand to one cell; it is the adjoint of the averaging of
    [Forward]: <Forward input, gy> = <input, Backward gy>.  On
    the all-ones 4 x 4 input with kernel 2 x 2, stride 2 and floor mode,
    [Forward] gives the all-ones 2 x 2 output and [Backward] on the all-ones
    output gradient gives 1/4 everywhere. *)
Theorem Backward_distributes_window_means :
  (forall (st : State) (input : mat) (st1 : State) (out input' gy : mat),
      wf input -> wf gy ->
      (inputWidth st * inputHeight st * n_cols input < SIZE_MOD)%N ->
      Forward st input = Some (st1, out) ->
      n_rows gy = n_rows out -> n_cols gy = n_cols out ->
      exists st2 g,
        Backward st1 input' gy = Some (st2, g)
        /\ n_cols g = n_cols input
        /\ forall s r c : N,
             (s < outSize st1)%N ->
             (r < inputWidth st1)%N -> (c < inputHeight st1)%N ->
             get (mem g)
                 (s * (inputWidth st1 * inputHeight st1)
                  + (r + c * inputWidth st1))
             = contribution st1 (slice (inputTemp st1) s)
                 (slice (cube_view (mem gy) (outputWidth st1)
                                   (outputHeight st1) (outSize st1)) s)
                 r c)
  /\ (forall (st : State) (input : mat) (st1 : State) (out input' gy : mat),
        wf input -> wf gy ->
        (inputWidth st * inputHeight st * n_cols input < SIZE_MOD)%N ->
        Forward st input = Some (st1, out) ->
        n_rows gy = n_rows out -> n_cols gy = n_cols out ->
        exists st2 g,
          Backward st1 input' gy = Some (st2, g)
          /\ dot (mem out) (mem gy) = dot (mem input) (mem g))
  /\ (exists st1,
        Forward pool_2x2_on_4x4 (filled 1%Qc 16 1)
        = Some (st1, filled 1%Qc 4 1)
        /\ outputWidth st1 = 2%N /\ outputHeight st1 = 2%N
        /\ forall input' : mat,
             exists st2,
               Backward st1 input' (filled 1%Qc 4 1)
               = Some (st2, filled (q 1 4) 16 1)).
Proof.
  split; [|split].
  - intros st input st1 out input' gy Hwf Hgy Hnw HF Hgr Hgc.
    pose proof (@Forward_product st input st1 out Hnw HF) as Hprod.
    pose proof (@Forward_ready st input st1 out HF Hprod) as Hready.
    destruct (@Forward_mem st input st1 out HF Hprod) as (Or & Oc & _).
    destruct (@Forward_inv st input st1 out HF)
      as (_ & _ & _ & _ & _ & _ & _ & _ & _ & _ & _ & _ & Eb & _).
    assert (Hfit : (N.to_nat (outputWidth st1 * outputHeight st1
                              * outSize st1) <= length (mem gy))%nat).
    { unfold wf, n_elem in Hgy. rewrite Hgy, Hgr, Hgc, Or, Oc, Hprod. lia. }
    destruct (@Backward_ready st1 input' gy Hready Hfit)
      as (st2 & g & HB & _ & Gc & Gm).
    exists st2, g. split; [exact HB|]. split; [congruence|].
    intros s r c Hs Hr Hc.
    set (W := inputWidth st1) in *. set (H := inputHeight st1) in *.
    rewrite Gm.
    match goal with
    | |- get (flat_map ?f _) _ = _ =>
        rewrite (@get_chunks f (W * H)%N (outSize st1) s (r + c * W)%N)
    end.
    + change (r + c * W)%N with (r + c * n_rows (zeros W H))%N.
      rewrite Unpooling_cell by (try apply zeros_wf; assumption).
      rewrite at_zeros. apply Qcplus_0_l.
    + intros t _. rewrite Unpooling_length. simpl. apply repeat_length.
    + exact Hs.
    + nia.
  - intros st input st1 out input' gy Hwf Hgy Hnw HF Hgr Hgc.
    now apply (@Backward_adjoint st input st1 out input' gy).
  - destruct (Forward pool_2x2_on_4x4 (filled 1%Qc 16 1))
      as [[st1 out]|] eqn:E; vm_compute in E; [|discriminate].
    injection E as Est Eout. exists st1. split; [|split; [|split]].
    + f_equal. f_equal. subst out. now apply mat_this_ext.
    + now subst st1.
    + now subst st1.
    + intros input'.
      destruct (Backward st1 input' (filled 1%Qc 4 1))
        as [[st2 g]|] eqn:B; subst st1; vm_compute in B; [|discriminate].
      injection B as Bst Bg. exists st2. f_equal. f_equal. subst g.
      now apply mat_this_ext.
Qed.

Lemma Backward_distributes_window_means_witness :
  wf sample_9x2 /\ wf grad_4x2
  /\ exists st1 out,
       Forward pool_2x2_stride1_on_3x3 sample_9x2 = Some (st1, out)
       /\ n_rows grad_4x2 = n_rows out /\ n_cols grad_4x2 = n_cols out
       /\ (exists st2 g,
             Backward st1 sample_9x2 grad_4x2 = Some (st2, g)
             /\ n_cols g = n_cols sample_9x2
             /\ forall s r c : N,
                  (s < outSize st1)%N ->
                  (r < inputWidth st1)%N -> (c < inputHeight st1)%N ->
                  get (mem g)
                      (s * (inputWidth st1 * inputHeight st1)
                       + (r + c * inputWidth st1))
                  = contribution st1 (slice (inputTemp st1) s)
                      (slice (cube_view (mem grad_4x2) (outputWidth st1)
                                        (outputHeight st1) (outSize st1)) s)
                      r c)
       /\ (exists st2 g,
             Backward st1 sample_9x2 grad_4x2 = Some (st2, g)
             /\ dot (mem out) (mem grad_4x2) = dot (mem sample_9x2) (mem g)).
Proof.
  split; [reflexivity|]. split; [reflexivity|].
  destruct (Forward pool_2x2_stride1_on_3x3 sample_9x2) as [[st1 out]|] eqn:E;
    [|vm_compute in E; discriminate].
  assert (Hdims : n_rows grad_4x2 = n_rows out /\ n_cols grad_4x2 = n_cols out).
  { pose proof E as E'. vm_compute in E'. injection E' as _ <-.
    split; reflexivity. }
  destruct Hdims as [Hr Hc].
  exists st1, out. split; [reflexivity|].
  split; [exact Hr|]. split; [exact Hc|]. split.
  - apply (proj1 Backward_distributes_window_means
             pool_2x2_stride1_on_3x3 sample_9x2 st1 out sample_9x2 grad_4x2);
      [reflexivity | reflexivity | reflexivity | exact E | exact Hr
       | exact Hc].
  - apply (proj1 (proj2 Backward_distributes_window_means)
             pool_2x2_stride1_on_3x3 sample_9x2 st1 out sample_9x2 grad_4x2);
      [reflexivity | reflexivity | reflexivity | exact E | exact Hr
       | exact Hc].
Defined.

End MeanPoolingValues.

(* ===================================================================== *)
(** * RecurrentAttention: one step *)
(* ===================================================================== *)

Module RecurrentAttentionSteps.

Import ArmaFacts RecurrentAttention.
Local Open Scope ra_scope.

Section Steps.

Context {R A : Type} `{LR : Layer R} `{LA : Layer A}.

#[local] Abbreviation State := (State R A).

Lemma ForwardStep_spec (input : mat) (s : State) (gl : mat) :
  let ain := if (forwardStep s =? 0)%N then initialInput s
             else outputParameter (rnnModule s) in
  let aout := snd (layer_forward (core (actionModule s)) ain) in
  let rout := snd (layer_forward (core (rnnModule s)) gl) in
  glimpse input aout = Ok gl ->
  exists s',
    ForwardStep input s = (Ok tt, s')
    /\ history s' = history s ++ fevents (MkFstep ain aout gl rout)
    /\ moduleOutputParameter s'
       = moduleOutputParameter s
         ++ (if deterministic s then [] else [rout; aout])
    /\ outputParameter (rnnModule s') = rout
    /\ outputParameter (actionModule s') = aout
    /\ forwardStep s' = forwardStep s /\ rho s' = rho s
    /\ deterministic s' = deterministic s
    /\ initialInput s' = initialInput s
    /\ backwardStep s' = backwardStep s /\ outSize s' = outSize s.
Proof.
  intros ain aout rout Hgl.
  unfold ForwardStep, bind, get_state.
  replace ((if (forwardStep s =? 0)%N
            then action_Forward (initialInput s)
            else action_Forward (outputParameter (rnnModule s))) s)
    with (action_Forward ain s)
    by (unfold ain; now destruct (forwardStep s =? 0)%N).
  unfold action_Forward, rnn_Forward, modify, lift.
  subst aout rout.
  destruct (layer_forward (core (actionModule s)) ain) as [ca aout].
  simpl in *. rewrite Hgl.
  destruct (layer_forward (core (rnnModule s)) gl) as [cr rout].
  simpl.
  change (range network_size) with [0%N; 1%N].
  destruct (deterministic s) eqn:Hdet; simpl.
  - eexists. split; [reflexivity|]. simpl. rewrite <- app_assoc, app_nil_r.
    simpl. repeat split; auto.
  - eexists. split; [reflexivity|]. simpl. rewrite <- !app_assoc.
    simpl. repeat split; auto.
Qed.

(** A throw inside a step keeps the initial action input. *)
Lemma ForwardStep_frame (input : mat) (s : State) :
  initialInput (snd (ForwardStep input s)) = initialInput s
  /\ outSize (snd (ForwardStep input s)) = outSize s
  /\ rho (snd (ForwardStep input s)) = rho s
  /\ forwardStep (snd (ForwardStep input s)) = forwardStep s.
Proof.
  unfold ForwardStep, bind, get_state.
  set (ain := if (forwardStep s =? 0)%N then initialInput s
              else outputParameter (rnnModule s)).
  replace ((if (forwardStep s =? 0)%N
            then action_Forward (initialInput s)
            else action_Forward (outputParameter (rnnModule s))) s)
    with (action_Forward ain s)
    by (unfold ain; now destruct (forwardStep s =? 0)%N).
  unfold action_Forward, rnn_Forward, modify, lift.
  destruct (layer_forward (core (actionModule s)) ain) as [ca aout].
  simpl.
  destruct (glimpse input aout) as [gl|e]; [|now simpl].
  destruct (layer_forward (core (rnnModule s)) gl) as [cr rout].
  simpl.
  change (range network_size) with [0%N; 1%N].
  destruct (deterministic s); simpl; auto.
Qed.

(** ** The glimpse *)

Lemma size_sub_1 (a : N) :
  (1 <= a)%N -> (a <= SIZE_MOD)%N -> size_sub a 1 = (a - 1)%N.
Proof.
  intros H1 H2. unfold size_sub.
  replace (a + SIZE_MOD - 1)%N with ((a - 1) + 1 * SIZE_MOD)%N by lia.
  rewrite N.Div0.mod_add. apply N.mod_small. lia.
Qed.

Lemma glimpse_ok (input aout : mat) :
  n_cols input = 1%N -> (n_elem input < SIZE_MOD)%N ->
  n_cols aout = 1%N -> (1 <= n_rows aout <= n_elem input)%N ->
  exists gl, glimpse input aout = Ok gl.
Proof.
  intros Hc Hn Hac [Ha1 Ha2].
  assert (Hrows : n_rows input = n_elem input)
    by (unfold n_elem; rewrite Hc; lia).
  assert (Hae : n_elem aout = n_rows aout)
    by (unfold n_elem; rewrite Hac; lia).
  unfold glimpse, set_col. simpl.
  rewrite Hrows, Hc, !N.eqb_refl. simpl.
  unfold set_submat. simpl.
  rewrite Hae, size_sub_1 by lia.
  replace (n_rows aout - 1 <? 0)%N with false
    by (symmetry; apply N.ltb_ge; lia).
  replace (n_elem input <=? n_rows aout - 1)%N with false
    by (symmetry; apply N.leb_gt; lia).
  simpl.
  replace (n_rows aout =? n_rows aout - 1 - 0 + 1)%N with true
    by (symmetry; apply N.eqb_eq; lia).
  rewrite Hac. simpl. eexists. reflexivity.
Qed.

Lemma glimpse_spec (input aout gl : mat) :
  glimpse input aout = Ok gl -> glimpse_columns input aout gl.
Proof.
  unfold glimpse, set_col. simpl.
  destruct ((n_rows input =? n_elem input) && (n_cols input =? 1))%N
    eqn:Hin; simpl; [|intros X; discriminate X].
  apply andb_true_iff in Hin. destruct Hin as [Hr Hc].
  apply N.eqb_eq in Hr. apply N.eqb_eq in Hc.
  unfold set_submat. simpl.
  set (e := size_sub (n_elem aout) 1).
  replace (e <? 0)%N with false by (symmetry; apply N.ltb_ge; lia).
  change (1 <? 1)%N with false. change (2 <=? 1)%N with false.
  cbn [orb]. rewrite orb_false_r.
  destruct (n_elem input <=? e)%N eqn:He; [intros X; discriminate X|].
  apply N.leb_gt in He.
  destruct ((n_rows aout =? e - 0 + 1) && (n_cols aout =? 1))%N
    eqn:Hsz; cbn [negb]; [|intros X; discriminate X].
  apply andb_true_iff in Hsz. destruct Hsz as [Har Hac].
  apply N.eqb_eq in Har. apply N.eqb_eq in Hac.
  assert (Hae : n_elem aout = (e + 1)%N)
    by (unfold n_elem; rewrite Har, Hac; lia).
  intros Hgl. injection Hgl as <-.
  set (n := n_elem input) in *.
  unfold glimpse_columns. simpl. repeat split.
  - unfold at_. cbn [n_rows mem].
    replace (r + 0 * n)%N with r by lia.
    rewrite !get_mapi
      by (rewrite ?mapi_length, repeat_length; lia).
    rewrite N.mod_small, N.div_small by lia.
    change (1 <=? 0)%N with false. rewrite andb_false_r. cbn [andb].
    reflexivity.
  - unfold at_. cbn [n_rows mem].
    rewrite !get_mapi
      by (rewrite ?mapi_length, repeat_length; lia).
    assert (Hn0 : n <> 0%N) by lia.
    replace ((r + 1 * n) mod n)%N with r
      by (rewrite N.Div0.mod_add; symmetry; apply N.mod_small; lia).
    replace ((r + 1 * n) / n)%N with 1%N
      by (rewrite N.div_add by lia; rewrite N.div_small by lia; lia).
    change (1 <=? 1)%N with true. change (1 =? 0)%N with false.
    replace (0 <=? r)%N with true by (symmetry; apply N.leb_le; lia).
    rewrite !andb_true_r. cbn [andb]. rewrite Hae.
    destruct (N.leb_spec r e) as [Hle|Hgt].
    + replace (r <? e + 1)%N with true by (symmetry; apply N.ltb_lt; lia).
      f_equal. lia.
    + replace (r <? e + 1)%N with false by (symmetry; apply N.ltb_ge; lia).
      now apply get_repeat.
Qed.


(** ** The loop of Forward *)

Lemma last_nonempty {T : Type} (x : T) (l : list T) (d d' : T) :
  last (x :: l) d = last (x :: l) d'.
Proof.
  revert x. induction l as [|y l IH]; intros x; [reflexivity|].
  change (last (y :: l) d = last (y :: l) d'). apply IH.
Qed.

(** The state in which [Forward] enters its loop. *)
Lemma Forward_unfold (input : mat) (s : State) :
  Forward input s
  = (let (o, s1) := while (N.to_nat (rho (Forward_entry input s)))
                          forward_cond (forward_body input)
                          (Forward_entry input s) in
     match o with
     | Ok _ => (Ok (outputParameter (rnnModule s1)),
                set_backwardStep 0 (set_forwardStep 0 s1))
     | Throw e => (Throw e, s1)
     end).
Proof.
  unfold Forward, Forward_entry, bind, get_state, when, modify, ret.
  destruct (is_empty (initialInput s)); reflexivity.
Qed.

Section ForwardLoop.

Variable input : mat.

(** The shapes that let the glimpse be built: the input is one column, and
    the action module returns a column that fits beside it. *)
Hypothesis input_column : n_cols input = 1%N.
Hypothesis input_size : (n_elem input < SIZE_MOD)%N.
Hypothesis action_shape : forall (c : A) (x : mat),
  n_cols (snd (layer_forward c x)) = 1%N
  /\ (1 <= n_rows (snd (layer_forward c x)) <= n_elem input)%N.

Lemma Forward_loop (k fuel : nat) (s : State) :
  (forwardStep s + N.of_nat k = rho s)%N -> (k <= fuel)%nat ->
  exists s' tr,
    while fuel forward_cond (forward_body input) s = (Ok tt, s')
    /\ length tr = k
    /\ history s' = history s ++ flat_map fevents tr
    /\ moduleOutputParameter s'
       = moduleOutputParameter s
         ++ (if deterministic s then [] else flat_map fpushed tr)
    /\ fchain input (action_source s) tr
    /\ outputParameter (rnnModule s')
       = last (map f_rout tr) (outputParameter (rnnModule s))
    /\ rho s' = rho s /\ deterministic s' = deterministic s
    /\ initialInput s' = initialInput s /\ outSize s' = outSize s.
Proof.
  revert fuel s. induction k as [|k IH]; intros fuel s Hk Hfuel.
  - exists s, []. destruct fuel; simpl; unfold forward_cond;
      (replace (forwardStep s <? rho s)%N with false
         by (symmetry; apply N.ltb_ge; lia));
      rewrite ?app_nil_r; destruct (deterministic s);
      rewrite ?app_nil_r; repeat split; reflexivity.
  - destruct fuel as [|fuel]; [lia|]. simpl. unfold forward_cond at 1.
    replace (forwardStep s <? rho s)%N with true
      by (symmetry; apply N.ltb_lt; lia).
    set (aout := snd (layer_forward (core (actionModule s))
                        (action_source s))).
    destruct (action_shape (core (actionModule s)) (action_source s))
      as [Hac Har]. fold aout in Hac, Har.
    destruct (@glimpse_ok input aout input_column input_size Hac Har) as [gl Hgl].
    destruct (@ForwardStep_spec input s gl Hgl)
      as (s1 & E1 & Hh & Hst & Hro & Hao & Hfs & Hrho & Hdet & Hini & _ & Hos).
    fold (action_source s) in Hh, Hst, Hao. fold aout in Hh, Hst, Hao.
    set (rout := snd (layer_forward (core (rnnModule s)) gl)) in *.
    unfold forward_body at 1. unfold bind at 1 2. rewrite E1.
    unfold modify at 1.
    set (s2 := set_forwardStep (forwardStep s1 + 1) s1).
    destruct (IH fuel s2) as (s' & tr & E & Hlen & Hh' & Hst' & Hch & Hro'
                              & Hrho' & Hdet' & Hini' & Hos');
      [unfold s2; simpl; lia | lia |].
    exists s', (MkFstep (action_source s) aout gl rout :: tr).
    split; [exact E|]. simpl in Hh', Hst', Hro', Hrho', Hdet', Hini', Hos'.
    assert (Hsrc : action_source s2 = rout).
    { unfold action_source, s2. simpl.
      replace (forwardStep s1 + 1 =? 0)%N with false
        by (symmetry; apply N.eqb_neq; lia).
      exact Hro. }
    rewrite Hsrc in Hch.
    repeat split.
    + simpl. now rewrite Hlen.
    + rewrite Hh', Hh. simpl. now rewrite <- app_assoc.
    + rewrite Hst', Hst, Hdet. destruct (deterministic s); simpl;
        now rewrite <- ?app_assoc.
    + exact Hgl.
    + exact Hch.
    + rewrite Hro', Hro. simpl.
      destruct (map f_rout tr); [reflexivity|apply last_nonempty].
    + congruence.
    + congruence.
    + congruence.
    + congruence.
Qed.


(** [Forward] runs [rho] chained steps and returns the last recurrent
    output. *)
Lemma Forward_run (s : State) :
  exists out s' tr,
    Forward input s = (Ok out, s')
    /\ length tr = N.to_nat (rho s)
    /\ history s' = history s ++ flat_map fevents tr
    /\ moduleOutputParameter s'
       = moduleOutputParameter s
         ++ (if deterministic s then [] else flat_map fpushed tr)
    /\ fchain input (initialInput s') tr
    /\ initialInput s'
       = (if is_empty (initialInput s)
          then zeros (outSize s) (n_cols input) else initialInput s)
    /\ out = last (map f_rout tr) (outputParameter (rnnModule s))
    /\ forwardStep s' = 0%N /\ backwardStep s' = 0%N
    /\ rho s' = rho s /\ deterministic s' = deterministic s
    /\ outSize s' = outSize s.
Proof.
  rewrite Forward_unfold.
  set (s0 := Forward_entry input s).
  assert (F0 : rho s0 = rho s /\ history s0 = history s
               /\ moduleOutputParameter s0 = moduleOutputParameter s
               /\ deterministic s0 = deterministic s
               /\ outSize s0 = outSize s
               /\ outputParameter (rnnModule s0) = outputParameter (rnnModule s)
               /\ forwardStep s0 = 0%N
               /\ initialInput s0
                  = (if is_empty (initialInput s)
                     then zeros (outSize s) (n_cols input)
                     else initialInput s)).
  { unfold s0, Forward_entry.
    destruct (is_empty (initialInput s)); simpl; repeat split. }
  destruct F0 as (Frho & Fh & Fst & Fdet & Fos & Fro & Ffs & Fini).
  destruct (@Forward_loop (N.to_nat (rho s0)) (N.to_nat (rho s0)) s0)
    as (s1 & tr & E & Hlen & Hh & Hst & Hch & Hro & Hrho & Hdet & Hini & Hos);
    [lia | lia |].
  rewrite E.
  eexists. eexists. exists tr. split; [reflexivity|]. simpl.
  assert (Hsrc : action_source s0 = initialInput s1).
  { unfold action_source. rewrite Ffs. simpl. now rewrite Hini. }
  rewrite Hsrc in Hch.
  repeat split; try congruence.
  now rewrite Hst, Fst, Fdet.
Qed.

End ForwardLoop.

(** Whatever happens in the loop, the initial action input stays. *)
Lemma while_initialInput (input : mat) (fuel : nat) (s : State) :
  initialInput (snd (while fuel forward_cond (forward_body input) s))
  = initialInput s.
Proof.
  revert s. induction fuel as [|fuel IH]; intros s; cbn [while];
    destruct (forward_cond s); try reflexivity.
  unfold bind. unfold forward_body at 1. unfold bind.
  destruct (ForwardStep_frame input s) as (Hini & _).
  destruct (ForwardStep input s) as [[[]|e] s1]; cbn [snd] in *.
  - unfold modify at 1. rewrite IH. cbn [initialInput set_forwardStep].
    exact Hini.
  - exact Hini.
Qed.

Lemma Forward_initialInput (input : mat) (s : State) :
  initialInput (snd (Forward input s))
  = (if is_empty (initialInput s)
     then zeros (outSize s) (n_cols input) else initialInput s).
Proof.
  rewrite Forward_unfold.
  set (s0 := Forward_entry input s).
  pose proof (while_initialInput input (N.to_nat (rho s0)) s0) as Hw.
  destruct (while (N.to_nat (rho s0)) forward_cond (forward_body input) s0)
    as [[[]|e] s1]; simpl in *; rewrite Hw; unfold s0, Forward_entry;
    destruct (is_empty (initialInput s)); reflexivity.
Qed.

End Steps.
End RecurrentAttentionSteps.

(* ===================================================================== *)
(** * RecurrentAttention: backpropagation through time *)
(* ===================================================================== *)

Module RecurrentAttentionBackward.

Import ArmaFacts RecurrentAttention RecurrentAttentionSteps.
Local Open Scope ra_scope.

Section Backward.

Context {R A : Type} `{LR : Layer R} `{LA : Layer A}.

#[local] Abbreviation State := (State R A).
#[local] Abbreviation M := (@M R A).

(** ** The snapshot stack *)

Lemma back_snoc (s : State) (l : list mat) (x : mat) :
  moduleOutputParameter s = l ++ [x] -> back s = (Ok x, s).
Proof.
  intros H. unfold back. rewrite H.
  destruct l as [|y l]; [reflexivity|].
  simpl. f_equal. f_equal. apply last_last.
Qed.

Lemma pop_back_snoc (s : State) (l : list mat) (x : mat) :
  moduleOutputParameter s = l ++ [x] ->
  pop_back s = (Ok tt, set_moduleOutputParameter l s).
Proof.
  intros H. unfold pop_back. rewrite H.
  destruct l as [|y l]; [reflexivity|].
  change ((y :: l) ++ [x]) with (y :: l ++ [x]). cbv iota.
  change (y :: l ++ [x]) with ((y :: l) ++ [x]).
  now rewrite removelast_last.
Qed.

(** The two pops of an iteration hand the last snapshot to the action module
    and the one before it to the recurrent module. *)
Lemma restore_snapshots_spec (s : State) (base : list mat) (r a : mat) :
  moduleOutputParameter s = base ++ [r; a] ->
  exists s',
    restore_snapshots s = (Ok tt, s')
    /\ moduleOutputParameter s' = base
    /\ outputParameter (rnnModule s') = r
    /\ outputParameter (actionModule s') = a
    /\ core (rnnModule s') = core (rnnModule s)
    /\ core (actionModule s') = core (actionModule s)
    /\ history s' = history s /\ backwardStep s' = backwardStep s
    /\ rho s' = rho s /\ initialInput s' = initialInput s
    /\ actionError s' = actionError s
    /\ recurrentError s' = recurrentError s
    /\ actionDelta s' = actionDelta s.
Proof.
  intros H. unfold restore_snapshots.
  change (range network_size) with [0%N; 1%N]. cbn [for_each].
  change (size_sub (size_sub network_size 1) 0) with 1%N.
  change (size_sub (size_sub network_size 1) 1) with 0%N.
  unfold bind.
  rewrite (@back_snoc s (base ++ [r]) a) by (now rewrite <- app_assoc).
  unfold network_load at 1. cbn [N.eqb Pos.eqb].
  set (s1 := set_actionModule _ s).
  rewrite (@pop_back_snoc s1 (base ++ [r]) a)
    by (unfold s1; simpl; now rewrite <- app_assoc).
  set (s2 := set_moduleOutputParameter _ s1).
  rewrite (@back_snoc s2 base r) by reflexivity.
  unfold network_load at 1. cbn [N.eqb].
  set (s3 := set_rnnModule _ s2).
  rewrite (@pop_back_snoc s3 base r) by reflexivity.
  unfold ret. eexists. split; [reflexivity|].
  simpl. repeat split.
Qed.


(** ** One iteration *)

Lemma IntermediateGradient_frame (s : State) :
  exists s',
    IntermediateGradient s = (Ok tt, s')
    /\ moduleOutputParameter s' = moduleOutputParameter s
    /\ outputParameter (rnnModule s') = outputParameter (rnnModule s)
    /\ outputParameter (actionModule s') = outputParameter (actionModule s)
    /\ history s' = history s /\ backwardStep s' = backwardStep s
    /\ rho s' = rho s /\ initialInput s' = initialInput s
    /\ actionError s' = actionError s
    /\ recurrentError s' = recurrentError s
    /\ actionDelta s' = actionDelta s /\ rnnDelta s' = rnnDelta s.
Proof.
  unfold IntermediateGradient, modify.
  destruct (layer_gradient (core (actionModule s))
              (outputParameter (actionModule s)) (actionError s)).
  destruct (layer_gradient (core (rnnModule s))
              (outputParameter (rnnModule s)) (recurrentError s)).
  eexists. split; [reflexivity|]. simpl. repeat split.
Qed.

Lemma input_gradient_state (g : mat) (s : State) :
  snd (input_gradient g s) = s.
Proof.
  unfold input_gradient, bind, get_state, lift, ret.
  destruct (col (rnnDelta s) 1); [|reflexivity].
  destruct (backwardStep s =? 0)%N; reflexivity.
Qed.

Lemma input_gradient_ok (g : mat) (s : State) (c g' : mat) :
  col (rnnDelta s) 1 = Ok c ->
  (if (backwardStep s =? 0)%N then Ok c else add_assign g c) = Ok g' ->
  input_gradient g s = (Ok g', s).
Proof.
  intros Hc Hg. unfold input_gradient, bind, get_state, lift, ret.
  rewrite Hc. destruct (backwardStep s =? 0)%N; now rewrite Hg.
Qed.

(** An iteration up to the calls of the two modules: the recurrent error is
    chosen, the snapshots are restored, and the modules run backward. *)
Lemma BackwardStep_calls (gy g : mat) (s : State) (base : list mat)
    (r a : mat) :
  moduleOutputParameter s = base ++ [r; a] ->
  let e := if (backwardStep s =? 0)%N then gy else actionDelta s in
  let ain := if (backwardStep s =? size_sub (rho s) 1)%N
             then a else initialInput s in
  let ad := snd (layer_backward (core (actionModule s)) ain (actionError s)) in
  let rd := snd (layer_backward (core (rnnModule s)) r e) in
  exists s3,
    BackwardStep gy g s
    = (g' <- input_gradient g ;; IntermediateGradient ;; ret g') s3
    /\ history s3
       = history s ++ bevents (MkBstep ain (actionError s) ad r e rd)
    /\ moduleOutputParameter s3 = base
    /\ actionDelta s3 = ad /\ rnnDelta s3 = rd
    /\ outputParameter (rnnModule s3) = r
    /\ outputParameter (actionModule s3) = a
    /\ backwardStep s3 = backwardStep s /\ rho s3 = rho s
    /\ initialInput s3 = initialInput s.
Proof.
  intros Hst e ain ad rd.
  unfold BackwardStep. unfold bind at 1. unfold get_state at 1.
  unfold bind at 1. unfold modify at 1. fold e.
  set (s0 := set_recurrentError e s).
  destruct (@restore_snapshots_spec s0 base r a Hst)
    as (s1 & E1 & Hs1 & Hr1 & Ha1 & Hcr & Hca & Hh1 & Hb1 & Hrho1 & Hi1
        & Hae1 & Hre1 & Had1).
  unfold bind at 1. rewrite E1.
  unfold bind at 1. unfold get_state at 1.
  unfold bind at 1.
  replace ((if (backwardStep s1 =? size_sub (rho s1) 1)%N
            then action_Backward (outputParameter (actionModule s1))
            else action_Backward (initialInput s1)) s1)
    with (action_Backward ain s1)
    by (unfold ain; rewrite Hb1, Hrho1, Ha1, Hi1; simpl;
        now destruct (backwardStep s =? size_sub (rho s) 1)%N).
  unfold action_Backward at 1. unfold modify at 1.
  rewrite Hca, Hae1. simpl (core (actionModule s0)).
  simpl (actionError s0). fold ad.
  destruct (layer_backward (core (actionModule s)) ain (actionError s))
    as [ca ad'] eqn:Ea. simpl in ad. subst ad.
  set (s2 := log _ _).
  unfold bind at 1. unfold get_state at 1. unfold bind at 1.
  unfold rnn_Backward at 1. unfold modify at 1.
  assert (Hr2 : outputParameter (rnnModule s2) = r)
    by (unfold s2; simpl; exact Hr1).
  assert (Hc2 : core (rnnModule s2) = core (rnnModule s))
    by (unfold s2; simpl; rewrite Hcr; reflexivity).
  assert (He2 : recurrentError s2 = e)
    by (unfold s2; simpl; rewrite Hre1; reflexivity).
  rewrite Hr2, Hc2, He2. fold rd.
  destruct (layer_backward (core (rnnModule s)) r e) as [cr rd'] eqn:Er.
  simpl in rd. subst rd.
  set (s3 := log _ _).
  exists s3. split; [reflexivity|].
  unfold s3, s2. simpl.
  rewrite ?Hh1, ?Hs1, ?Hr1, ?Ha1, ?Hb1, ?Hrho1, ?Hi1. simpl.
  rewrite <- ?app_assoc. simpl. repeat split.
Qed.

Lemma BackwardStep_spec (gy g : mat) (s : State) (base : list mat)
    (r a c g' : mat) :
  moduleOutputParameter s = base ++ [r; a] ->
  let e := if (backwardStep s =? 0)%N then gy else actionDelta s in
  let ain := if (backwardStep s =? size_sub (rho s) 1)%N
             then a else initialInput s in
  let ad := snd (layer_backward (core (actionModule s)) ain (actionError s)) in
  let rd := snd (layer_backward (core (rnnModule s)) r e) in
  col rd 1 = Ok c ->
  (if (backwardStep s =? 0)%N then Ok c else add_assign g c) = Ok g' ->
  exists s',
    BackwardStep gy g s = (Ok g', s')
    /\ history s'
       = history s ++ bevents (MkBstep ain (actionError s) ad r e rd)
    /\ moduleOutputParameter s' = base
    /\ actionDelta s' = ad
    /\ outputParameter (rnnModule s') = r
    /\ outputParameter (actionModule s') = a
    /\ backwardStep s' = backwardStep s /\ rho s' = rho s
    /\ initialInput s' = initialInput s.
Proof.
  intros Hst e ain ad rd Hcol Hg.
  destruct (@BackwardStep_calls gy g s base r a Hst)
    as (s3 & E & Hh & Hs & Had & Hrd & Hr & Ha & Hb & Hrho & Hi).
  fold e ain ad rd in Hh, Had, Hrd.
  rewrite E. unfold bind at 1.
  rewrite (@input_gradient_ok g s3 c g') by (rewrite ?Hrd, ?Hb; assumption).
  destruct (IntermediateGradient_frame s3)
    as (s4 & E4 & Hs4 & Hr4 & Ha4 & Hh4 & Hb4 & Hrho4 & Hi4 & _ & _ & Had4 & _).
  unfold bind at 1. rewrite E4. unfold ret.
  exists s4. split; [reflexivity|].
  rewrite Hh4, Hs4, Had4, Hr4, Ha4, Hb4, Hrho4, Hi4.
  repeat split; assumption.
Qed.

(** Whether or not the iteration completes, it has popped one pair and
    restored it: the last element to the action module, the one below it to
    the recurrent module. *)
Lemma BackwardStep_restores (gy g : mat) (s : State) (base : list mat)
    (r a : mat) :
  moduleOutputParameter s = base ++ [r; a] ->
  moduleOutputParameter (snd (BackwardStep gy g s)) = base
  /\ outputParameter (rnnModule (snd (BackwardStep gy g s))) = r
  /\ outputParameter (actionModule (snd (BackwardStep gy g s))) = a.
Proof.
  intros Hst.
  destruct (@BackwardStep_calls gy g s base r a Hst)
    as (s3 & E & _ & Hs & _ & _ & Hr & Ha & _).
  rewrite E. unfold bind.
  pose proof (input_gradient_state g s3) as Hig.
  destruct (input_gradient g s3) as [[g'|e] s3']; simpl in Hig; subst s3'.
  - destruct (IntermediateGradient_frame s3)
      as (s4 & E4 & Hs4 & Hr4 & Ha4 & _).
    rewrite E4. unfold ret. simpl.
    repeat split; congruence.
  - simpl. auto.
Qed.


(** ** The loop of Backward *)

Lemma col_ok (d : mat) :
  (1 < n_cols d)%N -> col d 1 = Ok (column1 d).
Proof.
  intros H. unfold col.
  replace (n_cols d <=? 1)%N with false by (symmetry; apply N.leb_gt; lia).
  reflexivity.
Qed.

Lemma add_assign_ok (g c : mat) :
  n_rows g = n_rows c -> n_cols g = n_cols c ->
  add_assign g c = Ok (plus g c).
Proof.
  intros Hr Hc. unfold add_assign.
  apply N.eqb_eq in Hr. apply N.eqb_eq in Hc. now rewrite Hr, Hc.
Qed.

Lemma Backward_unfold (input gy g : mat) (s : State) :
  Backward input gy g s
  = BackwardLoop (N.to_nat (rho (Backward_entry s))) gy g (Backward_entry s).
Proof.
  unfold Backward, Backward_entry, bind, get_state, when, modify, ret.
  destruct (is_empty (intermediateGradient s) && (backwardStep s =? 0)%N);
    cbv zeta; cbn [backwardStep set_actionError set_attentionGradient
                   set_intermediateGradient];
    destruct (backwardStep s =? 0)%N; reflexivity.
Qed.

Lemma Backward_entry_frame (s : State) :
  rho (Backward_entry s) = rho s
  /\ backwardStep (Backward_entry s) = backwardStep s
  /\ moduleOutputParameter (Backward_entry s) = moduleOutputParameter s
  /\ history (Backward_entry s) = history s
  /\ actionDelta (Backward_entry s) = actionDelta s
  /\ initialInput (Backward_entry s) = initialInput s
  /\ outputParameter (rnnModule (Backward_entry s))
     = outputParameter (rnnModule s)
  /\ outputParameter (actionModule (Backward_entry s))
     = outputParameter (actionModule s).
Proof.
  unfold Backward_entry.
  destruct (is_empty (intermediateGradient s) && (backwardStep s =? 0)%N);
    cbv zeta; cbn [backwardStep set_actionError set_attentionGradient
                   set_intermediateGradient];
    destruct (backwardStep s =? 0)%N; simpl; repeat split.
Qed.

Section Loop.

Variable gy : mat.
Variable D : N.

(** The recurrent module returns an input gradient of [D] rows that has a
    column 1. *)
Hypothesis rnn_delta_shape : forall (c : R) (x e : mat),
  n_rows (snd (layer_backward c x e)) = D
  /\ (1 < n_cols (snd (layer_backward c x e)))%N.

Lemma Backward_loop (qs : list (mat * mat)) :
  forall (fuel : nat) (s : State) (g : mat) (base : list mat),
    moduleOutputParameter s = base ++ flat_map pair_pushed (rev qs) ->
    (backwardStep s + N.of_nat (length qs) = rho s)%N ->
    (length qs <= fuel)%nat ->
    (backwardStep s <> 0%N -> n_rows g = D /\ n_cols g = 1%N) ->
    exists g' s' tr,
      BackwardLoop fuel gy g s = (Ok g', s')
      /\ length tr = length qs
      /\ history s' = history s ++ flat_map bevents tr
      /\ bchain (if (backwardStep s =? 0)%N then gy else actionDelta s) tr
      /\ moduleOutputParameter s' = base
      /\ map b_rin tr = map fst qs
      /\ g' = accumulate (backwardStep s =? 0)%N g (map b_rdelta tr)
      /\ Forall (fun x => n_rows (b_rdelta x) = D) tr
      /\ outputParameter (rnnModule s')
         = last (map fst qs) (outputParameter (rnnModule s))
      /\ outputParameter (actionModule s')
         = last (map snd qs) (outputParameter (actionModule s))
      /\ rho s' = rho s.
Proof.
  induction qs as [|[r a] qs IH]; intros fuel s g base Hst Hk Hfuel Hg.
  - exists g, s, []. simpl in *. rewrite app_nil_r in Hst.
    replace (BackwardLoop fuel gy g s) with (Ok g, s).
    + rewrite app_nil_r. repeat split; auto.
    + destruct fuel; simpl;
        (replace (backwardStep s <? rho s)%N with false
           by (symmetry; apply N.ltb_ge; lia)); reflexivity.
  - destruct fuel as [|fuel]; [simpl in Hfuel; lia|].
    cbn [BackwardLoop].
    replace (backwardStep s <? rho s)%N with true
      by (symmetry; apply N.ltb_lt; simpl in Hk; lia).
    simpl rev in Hst. rewrite flat_map_app in Hst. simpl in Hst.
    rewrite app_assoc in Hst.
    set (base' := base ++ flat_map pair_pushed (rev qs)) in *.
    set (e := if (backwardStep s =? 0)%N then gy else actionDelta s).
    set (ain := if (backwardStep s =? size_sub (rho s) 1)%N
                then a else initialInput s).
    set (ad := snd (layer_backward (core (actionModule s)) ain
                      (actionError s))).
    set (rd := snd (layer_backward (core (rnnModule s)) r e)).
    destruct (rnn_delta_shape (core (rnnModule s)) r e) as [HD Hcols].
    fold rd in HD, Hcols.
    set (g1 := if (backwardStep s =? 0)%N then column1 rd
               else plus g (column1 rd)).
    assert (Hg1 : (if (backwardStep s =? 0)%N then Ok (column1 rd)
                   else add_assign g (column1 rd)) = Ok g1).
    { unfold g1. destruct (N.eqb_spec (backwardStep s) 0) as [|Hne];
        [reflexivity|].
      destruct (Hg Hne) as [Hgr Hgc].
      apply add_assign_ok; simpl; congruence. }
    destruct (@BackwardStep_spec gy g s base' r a (column1 rd) g1 Hst
                (@col_ok rd Hcols) Hg1)
      as (s1 & E1 & Hh1 & Hs1 & Had1 & Hr1 & Ha1 & Hb1 & Hrho1 & _).
    fold e ain ad rd in Hh1, Had1.
    unfold bind at 1. rewrite E1. unfold bind at 1. unfold modify at 1.
    set (s2 := set_backwardStep (backwardStep s1 + 1) s1).
    destruct (IH fuel s2 g1 base)
      as (g' & s' & tr & E & Hlen & Hh & Hch & Hs & Hrin & Hacc & HF & Hro
          & Hao & Hrho).
    + unfold s2. simpl. exact Hs1.
    + unfold s2. simpl. simpl in Hk. lia.
    + simpl in Hfuel. lia.
    + intros _. unfold g1.
      destruct (N.eqb_spec (backwardStep s) 0) as [|Hne]; simpl;
        [split; [exact HD|reflexivity] | exact (Hg Hne)].
    + exists g', s', (MkBstep ain (actionError s) ad r e rd :: tr).
      split; [exact E|].
      assert (Hnz : (backwardStep s2 =? 0)%N = false)
        by (unfold s2; simpl; apply N.eqb_neq; lia).
      rewrite Hnz in Hch, Hacc.
      unfold s2 in Hh, Hch, Hro, Hao, Hrho. simpl in Hh, Hch, Hro, Hao, Hrho.
      repeat split.
      * simpl. now rewrite Hlen.
      * rewrite Hh, Hh1. simpl. now rewrite <- app_assoc.
      * rewrite Had1 in Hch. exact Hch.
      * exact Hs.
      * simpl. now rewrite Hrin.
      * simpl. exact Hacc.
      * constructor; [exact HD|exact HF].
      * rewrite Hro, Hr1. simpl.
        destruct (map fst qs); [reflexivity|apply last_nonempty].
      * rewrite Hao, Ha1. simpl.
        destruct (map snd qs); [reflexivity|apply last_nonempty].
      * congruence.
Qed.


(** [Backward] after a [Forward]: the loop runs [rho] times and pops the
    pairs [ps] from the last to the first. *)
Lemma Backward_run (input' g : mat) (s : State) (base : list mat)
    (ps : list (mat * mat)) :
  backwardStep s = 0%N ->
  moduleOutputParameter s = base ++ flat_map pair_pushed ps ->
  length ps = N.to_nat (rho s) ->
  exists g' s' tr,
    Backward input' gy g s = (Ok g', s')
    /\ length tr = N.to_nat (rho s)
    /\ history s' = history s ++ flat_map bevents tr
    /\ bchain gy tr
    /\ moduleOutputParameter s' = base
    /\ map b_rin tr = rev (map fst ps)
    /\ g' = accumulate true g (map b_rdelta tr)
    /\ Forall (fun x => n_rows (b_rdelta x) = D) tr
    /\ outputParameter (rnnModule s')
       = hd (outputParameter (rnnModule s)) (map fst ps)
    /\ outputParameter (actionModule s')
       = hd (outputParameter (actionModule s)) (map snd ps)
    /\ rho s' = rho s.
Proof.
  intros Hb Hst Hlen. rewrite Backward_unfold.
  destruct (Backward_entry_frame s)
    as (Frho & Fb & Fst & Fh & _ & _ & Fro & Fao).
  set (s0 := Backward_entry s) in *.
  destruct (@Backward_loop (rev ps) (N.to_nat (rho s0)) s0 g base)
    as (g' & s' & tr & E & Hl & Hh & Hch & Hs & Hrin & Hacc & HF & Hro
        & Hao & Hrho).
  - now rewrite rev_involutive, Fst.
  - rewrite length_rev, Hlen, Fb, Hb, Frho. lia.
  - rewrite length_rev, Hlen, Frho. lia.
  - intros Hne. rewrite Fb, Hb in Hne. now elim Hne.
  - rewrite Fb, Hb in Hch, Hacc. simpl in Hch, Hacc.
    exists g', s', tr. split; [exact E|].
    rewrite length_rev in Hl.
    assert (Hlast : forall (T : Type) (l : list T) (d : T),
              last (rev l) d = hd d l).
    { intros T l d. destruct l as [|x l]; [reflexivity|].
      simpl. apply last_last. }
    rewrite map_rev in Hrin.
    rewrite map_rev, Hlast in Hro. rewrite map_rev, Hlast in Hao.
    repeat split; congruence.
Qed.

End Loop.

(** A stack that holds at least [k] pairs. *)
Lemma stack_split (k : nat) (l : list mat) :
  (2 * k <= length l)%nat ->
  exists base ps,
    l = base ++ flat_map pair_pushed ps /\ length ps = k.
Proof.
  induction k as [|k IH]; intros H.
  - exists l, []. simpl. now rewrite app_nil_r.
  - destruct IH as (base & ps & -> & Hlen); [lia|].
    rewrite length_app in H.
    assert (Hps : length (flat_map pair_pushed ps) = (2 * k)%nat).
    { clear H. revert k Hlen. induction ps as [|p ps IHp]; intros k Hlen.
      - simpl in *. lia.
      - destruct k as [|k]; [discriminate|]. simpl in *.
        rewrite (IHp k) by lia. lia. }
    assert (Hb : (2 <= length base)%nat) by lia.
    destruct (exists_last (l := base)) as (b1 & a & ->);
      [intros ->; simpl in Hb; lia|].
    rewrite length_app in Hb. simpl in Hb.
    destruct (exists_last (l := b1)) as (b2 & r & ->);
      [intros ->; simpl in Hb; lia|].
    exists b2, ((r, a) :: ps). split; [|simpl; lia].
    simpl. now rewrite <- !app_assoc.
Qed.

(** ** The accumulated input gradient *)





(** ** Gradient *)

Lemma submat_block (G : mat) (off n : N) :
  (1 <= n)%N -> (off + n <= n_rows G)%N -> (1 <= n_cols G)%N ->
  (n_rows G <= SIZE_MOD)%N ->
  submat G off 0 (size_sub (off + n) 1) 0 = Ok (block G off n).
Proof.
  intros Hn Hr Hc Hs. rewrite size_sub_1 by lia. unfold submat.
  replace (off + n - 1 <? off)%N with false
    by (symmetry; apply N.ltb_ge; lia).
  replace (n_rows G <=? off + n - 1)%N with false
    by (symmetry; apply N.leb_gt; lia).
  replace (n_cols G <=? 0)%N with false
    by (symmetry; apply N.leb_gt; lia).
  cbn [orb N.ltb N.compare]. cbv iota.
  replace (off + n - 1 - off + 1)%N with n by lia.
  unfold block. change (0 - 0 + 1)%N with 1%N.
  change (range 1) with [0%N]. cbn [flat_map]. now rewrite app_nil_r.
Qed.

(** The write that the guard of [Gradient] skips would throw. *)
Lemma submat_empty_range (G : mat) (off : N) :
  (n_rows G < SIZE_MOD)%N -> (off <= SIZE_MOD)%N ->
  submat G off 0 (size_sub (off + 0) 1) 0 = Throw index_out_of_bounds.
Proof.
  intros HG Hoff. unfold submat. rewrite N.add_0_r.
  destruct (N.eq_dec off 0) as [->|Hne].
  - change (size_sub 0 1) with (SIZE_MOD - 1)%N.
    replace (n_rows G <=? SIZE_MOD - 1)%N with true
      by (symmetry; apply N.leb_le; lia).
    now rewrite !orb_true_r.
  - rewrite size_sub_1 by lia.
    replace (off - 1 <? off)%N with true by (symmetry; apply N.ltb_lt; lia).
    reflexivity.
Qed.

Lemma Gradient_spec (input error gradient' : mat) (s : State) :
  let G := attentionGradient s in
  let nr := n_elem (Parameters (rnnModule s)) in
  let na := n_elem (Parameters (actionModule s)) in
  (nr + na <= n_rows G)%N -> (1 <= n_cols G)%N ->
  (n_rows G <= SIZE_MOD)%N ->
  exists s',
    Gradient input error gradient' s = (Ok tt, s')
    /\ gradient (rnnModule s')
       = (if (nr =? 0)%N then gradient (rnnModule s) else block G 0 nr)
    /\ gradient (actionModule s')
       = (if (na =? 0)%N then gradient (actionModule s) else block G nr na)
    /\ attentionGradient s' = G.
Proof.
  intros G nr na Hr Hc Hs.
  unfold Gradient. unfold bind at 1. unfold get_state at 1.
  fold nr. unfold bind at 1.
  destruct (N.eqb_spec nr 0) as [Hnr|Hnr]; cbn [negb].
  - unfold ret at 1. unfold bind at 1. unfold get_state at 1.
    fold na. destruct (N.eqb_spec na 0) as [Hna|Hna]; cbn [negb when].
    + unfold ret. exists s. repeat split.
    + unfold bind at 1. unfold lift at 1. fold G.
      rewrite submat_block by lia. unfold modify.
      eexists. split; [reflexivity|]. simpl. rewrite Hnr. repeat split.
  - unfold bind at 1. unfold lift at 1. fold G.
    rewrite submat_block by lia.
    unfold bind at 1. unfold modify at 1. unfold ret at 1.
    unfold bind at 1. unfold get_state at 1.
    set (s1 := set_rnnModule _ s).
    replace (n_elem (Parameters (actionModule s1))) with na by reflexivity.
    destruct (N.eqb_spec na 0) as [Hna|Hna]; cbn [negb when].
    + unfold ret. exists s1. repeat split.
    + unfold bind at 1. unfold lift at 1.
      replace (attentionGradient s1) with G by reflexivity.
      rewrite submat_block by lia. unfold modify.
      eexists. split; [reflexivity|]. simpl. repeat split.
Qed.

End Backward.
End RecurrentAttentionBackward.

(* ===================================================================== *)
(** * RecurrentAttention: the calls of the two modules *)
(* ===================================================================== *)

Module RecurrentAttentionModules.

Import ArmaFacts RecurrentAttention RecurrentAttentionSteps
  RecurrentAttentionBackward.
Local Open Scope ra_scope.

Section Calls.

Context {R A : Type} `{LR : Layer R} `{LA : Layer A}.

#[local] Abbreviation State := (State R A).

(** ** Forward *)

(** The states in which a step leaves the two modules. *)
Lemma ForwardStep_cores (input : mat) (s : State) (gl : mat) :
  glimpse input (snd (layer_forward (core (actionModule s))
                                    (action_source s))) = Ok gl ->
  core (rnnModule (snd (ForwardStep input s)))
  = fst (layer_forward (core (rnnModule s)) gl)
  /\ core (actionModule (snd (ForwardStep input s)))
     = fst (layer_forward (core (actionModule s)) (action_source s)).
Proof.
  intros Hgl. unfold ForwardStep, bind, get_state.
  replace ((if (forwardStep s =? 0)%N
            then action_Forward (initialInput s)
            else action_Forward (outputParameter (rnnModule s))) s)
    with (action_Forward (action_source s) s)
    by (unfold action_source; now destruct (forwardStep s =? 0)%N).
  unfold action_Forward, rnn_Forward, modify, lift.
  destruct (layer_forward (core (actionModule s)) (action_source s))
    as [ca aout].
  cbn [snd] in Hgl. simpl. rewrite Hgl.
  destruct (layer_forward (core (rnnModule s)) gl) as [cr rout].
  simpl.
  change (range network_size) with [0%N; 1%N].
  destruct (deterministic s); simpl; split; reflexivity.
Qed.

Section ForwardLoop.

Variable input : mat.

Hypothesis input_column : n_cols input = 1%N.
Hypothesis input_size : (n_elem input < SIZE_MOD)%N.
Hypothesis action_shape : forall (c : A) (x : mat),
  n_cols (snd (layer_forward c x)) = 1%N
  /\ (1 <= n_rows (snd (layer_forward c x)) <= n_elem input)%N.

Lemma Forward_loop_calls (k fuel : nat) (s : State) :
  (forwardStep s + N.of_nat k = rho s)%N -> (k <= fuel)%nat ->
  exists s' tr,
    while fuel forward_cond (forward_body input) s = (Ok tt, s')
    /\ length tr = k
    /\ history s' = history s ++ flat_map fevents tr
    /\ fchain input (action_source s) tr
    /\ fcalls (core (rnnModule s)) (core (actionModule s)) tr
              (core (rnnModule s')) (core (actionModule s'))
    /\ outputParameter (rnnModule s')
       = last (map f_rout tr) (outputParameter (rnnModule s))
    /\ outputParameter (actionModule s')
       = last (map f_aout tr) (outputParameter (actionModule s))
    /\ initialInput s' = initialInput s.
Proof.
  revert fuel s. induction k as [|k IH]; intros fuel s Hk Hfuel.
  - exists s, []. destruct fuel; simpl; unfold forward_cond;
      (replace (forwardStep s <? rho s)%N with false
         by (symmetry; apply N.ltb_ge; lia));
      rewrite ?app_nil_r; repeat split; reflexivity.
  - destruct fuel as [|fuel]; [lia|]. simpl. unfold forward_cond at 1.
    replace (forwardStep s <? rho s)%N with true
      by (symmetry; apply N.ltb_lt; lia).
    set (aout := snd (layer_forward (core (actionModule s))
                        (action_source s))).
    destruct (action_shape (core (actionModule s)) (action_source s))
      as [Hac Har]. fold aout in Hac, Har.
    destruct (@glimpse_ok input aout input_column input_size Hac Har)
      as [gl Hgl].
    destruct (@ForwardStep_cores input s gl Hgl) as [Hcr Hca].
    destruct (@ForwardStep_spec _ _ _ _ input s gl Hgl)
      as (s1 & E1 & Hh & _ & Hro & Hao & Hfs & Hrho & _ & Hini & _).
    rewrite E1 in Hcr, Hca. cbn [snd] in Hcr, Hca.
    fold (action_source s) in Hh, Hao. fold aout in Hh, Hao.
    set (rout := snd (layer_forward (core (rnnModule s)) gl)) in *.
    unfold forward_body at 1. unfold bind at 1 2. rewrite E1.
    unfold modify at 1.
    set (s2 := set_forwardStep (forwardStep s1 + 1) s1).
    destruct (IH fuel s2) as (s' & tr & E & Hlen & Hh' & Hch & Hcalls & Hro'
                              & Hao' & Hini');
      [unfold s2; simpl; lia | lia |].
    exists s', (MkFstep (action_source s) aout gl rout :: tr).
    split; [exact E|].
    cbn [s2 set_forwardStep history rnnModule actionModule initialInput]
      in Hh', Hcalls, Hro', Hao', Hini'.
    assert (Hsrc : action_source s2 = rout).
    { unfold action_source, s2. simpl.
      replace (forwardStep s1 + 1 =? 0)%N with false
        by (symmetry; apply N.eqb_neq; lia).
      exact Hro. }
    rewrite Hsrc in Hch. rewrite Hcr, Hca in Hcalls.
    split; [simpl; now rewrite Hlen|].
    split; [rewrite Hh', Hh; simpl; now rewrite <- app_assoc|].
    split; [cbn [fchain f_ain f_aout f_glimpse f_rout]; auto|].
    split; [cbn [fcalls f_ain f_aout f_glimpse f_rout]; auto|].
    split; [|split].
    + rewrite Hro', Hro. simpl.
      destruct (map f_rout tr); [reflexivity|apply last_nonempty].
    + rewrite Hao', Hao. simpl.
      destruct (map f_aout tr); [reflexivity|apply last_nonempty].
    + congruence.
Qed.

(** [Forward] makes [rho] chained steps, each of them the two calls of the
    modules, and returns the last recurrent output. *)
Lemma Forward_calls (s : State) :
  exists out s' tr,
    Forward input s = (Ok out, s')
    /\ length tr = N.to_nat (rho s)
    /\ history s' = history s ++ flat_map fevents tr
    /\ fchain input (initialInput s') tr
    /\ fcalls (core (rnnModule s)) (core (actionModule s)) tr
              (core (rnnModule s')) (core (actionModule s'))
    /\ initialInput s'
       = (if is_empty (initialInput s)
          then zeros (outSize s) (n_cols input) else initialInput s)
    /\ out = outputParameter (rnnModule s')
    /\ outputParameter (rnnModule s')
       = last (map f_rout tr) (outputParameter (rnnModule s))
    /\ outputParameter (actionModule s')
       = last (map f_aout tr) (outputParameter (actionModule s)).
Proof.
  rewrite Forward_unfold.
  set (s0 := Forward_entry input s).
  assert (F0 : rho s0 = rho s /\ history s0 = history s
               /\ rnnModule s0 = rnnModule s
               /\ actionModule s0 = actionModule s
               /\ forwardStep s0 = 0%N
               /\ initialInput s0
                  = (if is_empty (initialInput s)
                     then zeros (outSize s) (n_cols input)
                     else initialInput s)).
  { unfold s0, Forward_entry.
    destruct (is_empty (initialInput s)); simpl; repeat split. }
  destruct F0 as (Frho & Fh & Fr & Fa & Ffs & Fini).
  destruct (@Forward_loop_calls (N.to_nat (rho s0)) (N.to_nat (rho s0)) s0)
    as (s1 & tr & E & Hlen & Hh & Hch & Hcalls & Hro & Hao & Hini);
    [lia | lia |].
  rewrite E.
  eexists. eexists. exists tr. split; [reflexivity|].
  cbn [set_backwardStep set_forwardStep history rnnModule actionModule
       initialInput].
  assert (Hsrc : action_source s0 = initialInput s1).
  { unfold action_source. rewrite Ffs. simpl. now rewrite Hini. }
  rewrite Hsrc in Hch. rewrite Fr, Fa in Hcalls. rewrite Fr in Hro.
  rewrite Fa in Hao.
  repeat split; try assumption; congruence.
Qed.

End ForwardLoop.


(** ** Backward *)

Lemma IntermediateGradient_cores (s : State) :
  core (rnnModule (snd (IntermediateGradient s)))
  = fst (layer_gradient (core (rnnModule s))
           (outputParameter (rnnModule s)) (recurrentError s))
  /\ core (actionModule (snd (IntermediateGradient s)))
     = fst (layer_gradient (core (actionModule s))
              (outputParameter (actionModule s)) (actionError s)).
Proof.
  unfold IntermediateGradient, modify.
  destruct (layer_gradient (core (actionModule s))
              (outputParameter (actionModule s)) (actionError s)).
  destruct (layer_gradient (core (rnnModule s))
              (outputParameter (rnnModule s)) (recurrentError s)).
  split; reflexivity.
Qed.

(** An iteration up to the calls of the two modules, with the states in
    which the calls leave them. *)
Lemma BackwardStep_calls_cores (gy g : mat) (s : State) (base : list mat)
    (r a : mat) :
  moduleOutputParameter s = base ++ [r; a] ->
  let e := if (backwardStep s =? 0)%N then gy else actionDelta s in
  let ain := if (backwardStep s =? size_sub (rho s) 1)%N
             then a else initialInput s in
  let ba := layer_backward (core (actionModule s)) ain (actionError s) in
  let br := layer_backward (core (rnnModule s)) r e in
  exists s3,
    BackwardStep gy g s
    = (g' <- input_gradient g ;; IntermediateGradient ;; ret g') s3
    /\ core (actionModule s3) = fst ba /\ core (rnnModule s3) = fst br
    /\ outputParameter (rnnModule s3) = r
    /\ outputParameter (actionModule s3) = a
    /\ actionError s3 = actionError s /\ recurrentError s3 = e
    /\ actionDelta s3 = snd ba /\ rnnDelta s3 = snd br
    /\ backwardStep s3 = backwardStep s.
Proof.
  intros Hst e ain ba br.
  unfold BackwardStep. unfold bind at 1. unfold get_state at 1.
  unfold bind at 1. unfold modify at 1. fold e.
  set (s0 := set_recurrentError e s).
  destruct (@restore_snapshots_spec _ _ s0 base r a Hst)
    as (s1 & E1 & Hs1 & Hr1 & Ha1 & Hcr & Hca & Hh1 & Hb1 & Hrho1 & Hi1
        & Hae1 & Hre1 & Had1).
  unfold bind at 1. rewrite E1.
  unfold bind at 1. unfold get_state at 1.
  unfold bind at 1.
  replace ((if (backwardStep s1 =? size_sub (rho s1) 1)%N
            then action_Backward (outputParameter (actionModule s1))
            else action_Backward (initialInput s1)) s1)
    with (action_Backward ain s1)
    by (unfold ain; rewrite Hb1, Hrho1, Ha1, Hi1; simpl;
        now destruct (backwardStep s =? size_sub (rho s) 1)%N).
  unfold action_Backward at 1. unfold modify at 1.
  rewrite Hca, Hae1. simpl (core (actionModule s0)).
  simpl (actionError s0). fold ba.
  destruct ba as [ca ad'] eqn:Ea.
  set (s2 := log _ _).
  unfold bind at 1. unfold get_state at 1. unfold bind at 1.
  unfold rnn_Backward at 1. unfold modify at 1.
  assert (Hr2 : outputParameter (rnnModule s2) = r)
    by (unfold s2; simpl; exact Hr1).
  assert (Hc2 : core (rnnModule s2) = core (rnnModule s))
    by (unfold s2; simpl; rewrite Hcr; reflexivity).
  assert (He2 : recurrentError s2 = e)
    by (unfold s2; simpl; rewrite Hre1; reflexivity).
  rewrite Hr2, Hc2, He2. fold br.
  destruct br as [cr rd'] eqn:Er.
  set (s3 := log _ _).
  exists s3. split; [reflexivity|].
  unfold s3, s2. simpl.
  rewrite ?Hr1, ?Ha1, ?Hb1, ?Hae1, ?Hre1. simpl.
  repeat split.
Qed.

(** The members that a completed iteration leaves. *)
Lemma BackwardStep_members (gy g : mat) (s : State) (base : list mat)
    (r a c g' : mat) :
  moduleOutputParameter s = base ++ [r; a] ->
  let e := if (backwardStep s =? 0)%N then gy else actionDelta s in
  let ain := if (backwardStep s =? size_sub (rho s) 1)%N
             then a else initialInput s in
  let ba := layer_backward (core (actionModule s)) ain (actionError s) in
  let br := layer_backward (core (rnnModule s)) r e in
  col (snd br) 1 = Ok c ->
  (if (backwardStep s =? 0)%N then Ok c else add_assign g c) = Ok g' ->
  let s' := snd (BackwardStep gy g s) in
  core (rnnModule s') = fst (layer_gradient (fst br) r e)
  /\ core (actionModule s')
     = fst (layer_gradient (fst ba) a (actionError s))
  /\ actionError s' = actionError s
  /\ recurrentError s' = e
  /\ rnnDelta s' = snd br.
Proof.
  intros Hst e ain ba br Hcol Hg s'.
  destruct (@BackwardStep_calls_cores gy g s base r a Hst)
    as (s3 & E & Hca & Hcr & Hr & Ha & Hae & Hre & Had & Hrd & Hb).
  fold e ain in Hca, Hcr, Hre, Had, Hrd. fold ba in Hca, Had.
  fold br in Hcr, Hrd.
  destruct (IntermediateGradient_cores s3) as [Gr Ga].
  destruct (IntermediateGradient_frame s3)
    as (s4 & E4 & _ & _ & _ & _ & _ & _ & _ & Hae4 & Hre4 & _ & Hrd4).
  rewrite E4 in Gr, Ga. cbn [snd] in Gr, Ga.
  assert (Es : BackwardStep gy g s = (Ok g', s4)).
  { rewrite E. unfold bind at 1.
    rewrite (@input_gradient_ok _ _ g s3 c g')
      by (rewrite ?Hrd, ?Hb; assumption).
    unfold bind at 1. rewrite E4. reflexivity. }
  unfold s'. rewrite Es. cbn [snd].
  rewrite Gr, Ga, Hae4, Hre4, Hrd4, Hcr, Hca, Hr, Ha, Hae, Hre, Hrd.
  repeat split.
Qed.


Lemma Backward_entry_members (s : State) :
  core (rnnModule (Backward_entry s)) = core (rnnModule s)
  /\ core (actionModule (Backward_entry s)) = core (actionModule s)
  /\ recurrentError (Backward_entry s) = recurrentError s.
Proof.
  unfold Backward_entry.
  destruct (is_empty (intermediateGradient s) && (backwardStep s =? 0)%N);
    cbv zeta; cbn [backwardStep set_actionError set_attentionGradient
                   set_intermediateGradient];
    destruct (backwardStep s =? 0)%N; simpl; repeat split.
Qed.

(** The pairs on top of the stack, in the order of the pops. *)
Lemma top_pairs_popped (qs : list (mat * mat)) (base : list mat) :
  top_pairs (length qs) (rev (base ++ flat_map pair_pushed (rev qs))) = qs.
Proof.
  revert base. induction qs as [|[r a] qs IH]; intros base; [reflexivity|].
  cbn [rev length]. rewrite flat_map_app. cbn [flat_map].
  rewrite app_nil_r, app_assoc, rev_app_distr.
  change (rev (pair_pushed (r, a))) with [a; r]. cbn [app top_pairs].
  now rewrite IH.
Qed.

Section Loop.

Variable gy : mat.
Variable D : N.

Hypothesis rnn_delta_shape : forall (c : R) (x e : mat),
  n_rows (snd (layer_backward c x e)) = D
  /\ (1 < n_cols (snd (layer_backward c x e)))%N.

Lemma Backward_loop_calls (qs : list (mat * mat)) :
  forall (fuel : nat) (s : State) (g : mat) (base : list mat),
    moduleOutputParameter s = base ++ flat_map pair_pushed (rev qs) ->
    (backwardStep s + N.of_nat (length qs) = rho s)%N ->
    (length qs <= fuel)%nat ->
    (backwardStep s <> 0%N -> n_rows g = D /\ n_cols g = 1%N) ->
    exists g' s' tr,
      BackwardLoop fuel gy g s = (Ok g', s')
      /\ length tr = length qs
      /\ history s' = history s ++ flat_map bevents tr
      /\ bchain (if (backwardStep s =? 0)%N then gy else actionDelta s) tr
      /\ bcalls (initialInput s) (actionError s) (size_sub (rho s) 1)
                (backwardStep s) (core (rnnModule s)) (core (actionModule s))
                qs tr (core (rnnModule s')) (core (actionModule s'))
      /\ actionDelta s' = last (map b_adelta tr) (actionDelta s)
      /\ recurrentError s' = last (map b_rerr tr) (recurrentError s)
      /\ actionError s' = actionError s.
Proof.
  induction qs as [|[r a] qs IH]; intros fuel s g base Hst Hk Hfuel Hg.
  - exists g, s, []. simpl in *. rewrite app_nil_r in Hst.
    replace (BackwardLoop fuel gy g s) with (Ok g, s).
    + rewrite app_nil_r. repeat split; auto.
    + destruct fuel; simpl;
        (replace (backwardStep s <? rho s)%N with false
           by (symmetry; apply N.ltb_ge; lia)); reflexivity.
  - destruct fuel as [|fuel]; [simpl in Hfuel; lia|].
    cbn [BackwardLoop].
    replace (backwardStep s <? rho s)%N with true
      by (symmetry; apply N.ltb_lt; simpl in Hk; lia).
    simpl rev in Hst. rewrite flat_map_app in Hst. simpl in Hst.
    rewrite app_assoc in Hst.
    set (base' := base ++ flat_map pair_pushed (rev qs)) in *.
    set (e := if (backwardStep s =? 0)%N then gy else actionDelta s).
    set (ain := if (backwardStep s =? size_sub (rho s) 1)%N
                then a else initialInput s).
    set (ba := layer_backward (core (actionModule s)) ain (actionError s)).
    set (br := layer_backward (core (rnnModule s)) r e).
    destruct (rnn_delta_shape (core (rnnModule s)) r e) as [HD Hcols].
    fold br in HD, Hcols.
    set (g1 := if (backwardStep s =? 0)%N then column1 (snd br)
               else plus g (column1 (snd br))).
    assert (Hg1 : (if (backwardStep s =? 0)%N then Ok (column1 (snd br))
                   else add_assign g (column1 (snd br))) = Ok g1).
    { unfold g1. destruct (N.eqb_spec (backwardStep s) 0) as [|Hne];
        [reflexivity|].
      destruct (Hg Hne) as [Hgr Hgc].
      apply add_assign_ok; simpl; congruence. }
    destruct (@BackwardStep_members gy g s base' r a (column1 (snd br)) g1 Hst
                (@col_ok (snd br) Hcols) Hg1)
      as (Mcr & Mca & Mae & Mre & _).
    destruct (@BackwardStep_spec _ _ _ _ gy g s base' r a (column1 (snd br))
                g1 Hst (@col_ok (snd br) Hcols) Hg1)
      as (s1 & E1 & Hh1 & Hs1 & Had1 & _ & _ & Hb1 & Hrho1 & Hi1).
    fold e ain ba br in Hh1, Had1, Mcr, Mca, Mre.
    rewrite E1 in Mcr, Mca, Mae, Mre. cbn [snd] in Mcr, Mca, Mae, Mre.
    unfold bind at 1. rewrite E1. unfold bind at 1. unfold modify at 1.
    set (s2 := set_backwardStep (backwardStep s1 + 1) s1).
    destruct (IH fuel s2 g1 base)
      as (g' & s' & tr & E & Hlen & Hh & Hch & Hcalls & Had & Hre & Hae).
    + unfold s2. simpl. exact Hs1.
    + unfold s2. simpl. simpl in Hk. lia.
    + simpl in Hfuel. lia.
    + intros _. unfold g1.
      destruct (N.eqb_spec (backwardStep s) 0) as [|Hne]; simpl;
        [split; [exact HD|reflexivity] | exact (Hg Hne)].
    + exists g', s', (MkBstep ain (actionError s) (snd ba) r e (snd br) :: tr).
      split; [exact E|].
      assert (Hnz : (backwardStep s2 =? 0)%N = false)
        by (unfold s2; simpl; apply N.eqb_neq; lia).
      rewrite Hnz in Hch.
      cbn [s2 set_backwardStep history actionDelta rnnModule actionModule
           initialInput actionError rho backwardStep recurrentError]
        in Hh, Hch, Hcalls, Had, Hre, Hae.
      rewrite Hi1, Mae, Hrho1, Hb1, Mcr, Mca in Hcalls.
      split; [simpl; now rewrite Hlen|].
      split; [rewrite Hh, Hh1; simpl; now rewrite <- app_assoc|].
      split; [cbn [bchain b_rerr b_adelta]; rewrite Had1 in Hch; auto|].
      split; [cbn [bcalls b_ain b_aerr b_adelta b_rin b_rerr b_rdelta];
              fold ain; fold ba; fold br; repeat split; exact Hcalls|].
      split; [|split].
      * rewrite Had, Had1. simpl.
        destruct (map b_adelta tr); [reflexivity|apply last_nonempty].
      * rewrite Hre, Mre. simpl.
        destruct (map b_rerr tr); [reflexivity|apply last_nonempty].
      * congruence.
Qed.

(** [Backward] after a [Forward]: the loop runs [rho] times, and its
    iterations are the calls of the two modules on the popped snapshots. *)
Lemma Backward_calls (input' g : mat) (s : State) :
  backwardStep s = 0%N ->
  (2 * N.to_nat (rho s) <= length (moduleOutputParameter s))%nat ->
  exists g' s' tr,
    Backward input' gy g s = (Ok g', s')
    /\ length tr = N.to_nat (rho s)
    /\ history s' = history s ++ flat_map bevents tr
    /\ bchain gy tr
    /\ bcalls (initialInput s) (actionError (Backward_entry s))
              (size_sub (rho s) 1) 0
              (core (rnnModule s)) (core (actionModule s))
              (top_pairs (N.to_nat (rho s)) (rev (moduleOutputParameter s)))
              tr (core (rnnModule s')) (core (actionModule s'))
    /\ actionDelta s' = last (map b_adelta tr) (actionDelta s)
    /\ recurrentError s' = last (map b_rerr tr) (recurrentError s)
    /\ actionError s' = actionError (Backward_entry s).
Proof.
  intros Hb Hstack.
  destruct (stack_split _ _ Hstack) as (base & ps & Hst & Hlen).
  rewrite Backward_unfold.
  destruct (Backward_entry_frame s)
    as (Frho & Fb & Fst & Fh & Fad & Fi & _ & _).
  destruct (Backward_entry_members s) as (Fcr & Fca & Fre).
  set (s0 := Backward_entry s) in *.
  destruct (@Backward_loop_calls (rev ps) (N.to_nat (rho s0)) s0 g base)
    as (g' & s' & tr & E & Hl & Hh & Hch & Hcalls & Had & Hre & Hae).
  - now rewrite rev_involutive, Fst.
  - rewrite length_rev, Hlen, Fb, Hb, Frho. lia.
  - rewrite length_rev, Hlen, Frho. lia.
  - intros Hne. rewrite Fb, Hb in Hne. now elim Hne.
  - rewrite Fb, Hb in Hch, Hcalls. simpl in Hch.
    exists g', s', tr. split; [exact E|].
    rewrite length_rev in Hl.
    rewrite Fi, Frho, Fcr, Fca in Hcalls.
    assert (Hq : top_pairs (N.to_nat (rho s)) (rev (moduleOutputParameter s))
                 = rev ps).
    { rewrite <- Hlen, <- (length_rev ps), Hst.
      rewrite <- (rev_involutive ps) at 2. apply top_pairs_popped. }
    rewrite Hq.
    repeat split; try assumption; congruence.
Qed.

End Loop.

End Calls.
End RecurrentAttentionModules.

(* ===================================================================== *)
(** * RecurrentAttention: the properties of the layer *)
(* ===================================================================== *)

Module RecurrentAttentionTheorems.

Import ArmaFacts RecurrentAttention RecurrentAttentionSteps
       RecurrentAttentionBackward RecurrentAttentionModules Toy.

Section Chains.

Lemma fchain_nth (input : mat) (tr : list fstep) :
  forall prev : mat,
    fchain input prev tr ->
    (forall x, nth_error tr 0 = Some x -> f_ain x = prev)
    /\ (forall t x y, nth_error tr t = Some x ->
                      nth_error tr (S t) = Some y -> f_ain y = f_rout x)
    /\ (forall x, In x tr -> glimpse input (f_aout x) = Ok (f_glimpse x)).
Proof.
  induction tr as [|x0 tr IH]; intros prev Hch.
  - repeat split; intros; try discriminate; try contradiction;
      destruct t; discriminate.
  - destruct Hch as (Hin & Hgl & Hch).
    destruct (IH (f_rout x0) Hch) as (I0 & I1 & I2).
    repeat split.
    + intros x Hx. injection Hx as <-. exact Hin.
    + intros t x y Hx Hy. destruct t as [|t].
      * injection Hx as <-. now apply I0.
      * now apply (I1 t).
    + intros x [<-|Hx]; [exact Hgl|now apply I2].
Qed.

Lemma bchain_nth (tr : list bstep) :
  forall err : mat,
    bchain err tr ->
    (forall x, nth_error tr 0 = Some x -> b_rerr x = err)
    /\ (forall k x y, nth_error tr k = Some x ->
                      nth_error tr (S k) = Some y -> b_rerr y = b_adelta x).
Proof.
  induction tr as [|x0 tr IH]; intros err Hch.
  - split; intros; try discriminate; destruct k; discriminate.
  - destruct Hch as (Herr & Hch).
    destruct (IH (b_adelta x0) Hch) as (I0 & I1).
    split.
    + intros x Hx. injection Hx as <-. exact Herr.
    + intros k x y Hx Hy. destruct k as [|k].
      * injection Hx as <-. now apply I0.
      * now apply (I1 k).
Qed.

Lemma fpushed_pairs (tr : list fstep) :
  flat_map fpushed tr
  = flat_map pair_pushed (map (fun x => (f_rout x, f_aout x)) tr).
Proof.
  induction tr as [|x tr IH]; [reflexivity|].
  simpl. now rewrite IH.
Qed.

End Chains.

(** C5. [Forward] makes rho steps, and every step is the two calls of the
    modules that the history records: the action module, in the state the
    step before left it in, maps its input to the action output that the
    glimpse is built from, and the recurrent module maps that glimpse to the
    step's recurrent output; the members of the object hold the states and
    the outputs that the last step leaves.  In step t the action module reads
    the initial action input, a zero matrix, when t = 0 and the recurrent
    module's output of step t - 1 when t > 0; the recurrent module reads a
    glimpse of two columns: column 0 is the external input, column 1 starts
    with the action module's output and is zero below it. *)
Theorem Forward_module_inputs {R A : Type} `{LR : Layer R} `{LA : Layer A}
    (input : mat) (s : State R A) :
  n_cols input = 1%N ->
  (n_elem input < SIZE_MOD)%N ->
  (forall (c : A) (x : mat),
      n_cols (snd (layer_forward c x)) = 1%N
      /\ (1 <= n_rows (snd (layer_forward c x)) <= n_elem input)%N) ->
  (exists r c, initialInput s = zeros r c) ->
  exists out s' tr,
    Forward input s = (Ok out, s')
    /\ length tr = N.to_nat (rho s)
    /\ history s' = history s ++ flat_map fevents tr
    /\ fcalls (core (rnnModule s)) (core (actionModule s)) tr
              (core (rnnModule s')) (core (actionModule s'))
    /\ out = outputParameter (rnnModule s')
    /\ outputParameter (rnnModule s')
       = last (map f_rout tr) (outputParameter (rnnModule s))
    /\ outputParameter (actionModule s')
       = last (map f_aout tr) (outputParameter (actionModule s))
    /\ initialInput s'
       = (if is_empty (initialInput s)
          then zeros (outSize s) (n_cols input) else initialInput s)
    /\ (exists r c, initialInput s' = zeros r c)
    /\ (forall x, nth_error tr 0 = Some x -> f_ain x = initialInput s')
    /\ (forall t x y, nth_error tr t = Some x ->
                      nth_error tr (S t) = Some y -> f_ain y = f_rout x)
    /\ (forall x, In x tr ->
                  glimpse_columns input (f_aout x) (f_glimpse x)).
Proof.
  intros Hc Hs Ha (r0 & c0 & Hz).
  destruct (@Forward_calls R A LR LA input Hc Hs Ha s)
    as (out & s' & tr & E & Hlen & Hh & Hch & Hcalls & Hini & Hout & Hro
        & Hao).
  destruct (fchain_nth _ _ _ Hch) as (C0 & C1 & C2).
  exists out, s', tr.
  split; [exact E|]. split; [exact Hlen|]. split; [exact Hh|].
  split; [exact Hcalls|]. split; [exact Hout|]. split; [exact Hro|].
  split; [exact Hao|]. split; [exact Hini|].
  split; [|split; [exact C0|split; [exact C1|]]].
  - rewrite Hini. destruct (is_empty (initialInput s)); eauto.
  - intros x Hx. apply glimpse_spec. now apply C2.
Qed.

Lemma Forward_module_inputs_witness :
  exists out s' tr,
    Forward input0 layer0 = (Ok out, s')
    /\ length tr = N.to_nat (rho layer0)
    /\ history s' = history layer0 ++ flat_map fevents tr
    /\ fcalls (core (rnnModule layer0)) (core (actionModule layer0)) tr
              (core (rnnModule s')) (core (actionModule s'))
    /\ out = outputParameter (rnnModule s')
    /\ outputParameter (rnnModule s')
       = last (map f_rout tr) (outputParameter (rnnModule layer0))
    /\ outputParameter (actionModule s')
       = last (map f_aout tr) (outputParameter (actionModule layer0))
    /\ initialInput s'
       = (if is_empty (initialInput layer0)
          then zeros (outSize layer0) (n_cols input0)
          else initialInput layer0)
    /\ (exists r c, initialInput s' = zeros r c)
    /\ (forall x, nth_error tr 0 = Some x -> f_ain x = initialInput s')
    /\ (forall t x y, nth_error tr t = Some x ->
                      nth_error tr (S t) = Some y -> f_ain y = f_rout x)
    /\ (forall x, In x tr ->
                  glimpse_columns input0 (f_aout x) (f_glimpse x)).
Proof.
  apply (@Forward_module_inputs _ _ rnn_layer action_layer
           input0 layer0).
  - reflexivity.
  - reflexivity.
  - intros c x. simpl. split; [reflexivity|]. vm_compute.
    split; intros H; discriminate H.
  - exists 0%N, 0%N. reflexivity.
Defined.

(** C1. [Backward] makes rho reverse iterations, and every iteration is the
    two calls of the modules that the history records, on the snapshot pair
    it pops: the action delta is what the action module's [Backward] returns,
    and the member [actionDelta] holds it for the next iteration.  The
    recurrent module's error is the output gradient [gy] in the first reverse
    iteration and, in every later one, the action delta that the iteration
    before it produced; with rho = 1 the only iteration reads [gy]. *)
Theorem Backward_recurrent_error {R A : Type} `{LR : Layer R} `{LA : Layer A}
    (D : N) (input' gy g : mat) (s : State R A) :
  (forall (c : R) (x e : mat),
      n_rows (snd (layer_backward c x e)) = D
      /\ (1 < n_cols (snd (layer_backward c x e)))%N) ->
  backwardStep s = 0%N ->
  (2 * N.to_nat (rho s) <= length (moduleOutputParameter s))%nat ->
  exists g' s' tr,
    Backward input' gy g s = (Ok g', s')
    /\ length tr = N.to_nat (rho s)
    /\ history s' = history s ++ flat_map bevents tr
    /\ bcalls (initialInput s) (actionError (Backward_entry s))
              (size_sub (rho s) 1) 0
              (core (rnnModule s)) (core (actionModule s))
              (top_pairs (N.to_nat (rho s)) (rev (moduleOutputParameter s)))
              tr (core (rnnModule s')) (core (actionModule s'))
    /\ actionDelta s' = last (map b_adelta tr) (actionDelta s)
    /\ recurrentError s' = last (map b_rerr tr) (recurrentError s)
    /\ (forall x, nth_error tr 0 = Some x -> b_rerr x = gy)
    /\ (forall k x y, nth_error tr k = Some x ->
                      nth_error tr (S k) = Some y -> b_rerr y = b_adelta x)
    /\ (rho s = 1%N -> exists x, tr = [x] /\ b_rerr x = gy).
Proof.
  intros Hshape Hb Hstack.
  destruct (@Backward_calls R A LR LA gy D Hshape input' g s Hb Hstack)
    as (g' & s' & tr & E & Hl & Hh & Hch & Hcalls & Had & Hre & _).
  destruct (bchain_nth _ _ Hch) as (C0 & C1).
  exists g', s', tr.
  split; [exact E|]. split; [exact Hl|]. split; [exact Hh|].
  split; [exact Hcalls|]. split; [exact Had|]. split; [exact Hre|].
  split; [exact C0|]. split; [exact C1|].
  intros Hrho. rewrite Hrho in Hl.
  destruct tr as [|x [|y tr]]; try discriminate.
  exists x. split; [reflexivity|]. now apply C0.
Qed.

Lemma Backward_recurrent_error_witness :
  exists g' s' tr,
    Backward input0 gy0 empty_mat trained0 = (Ok g', s')
    /\ length tr = N.to_nat (rho trained0)
    /\ history s' = history trained0 ++ flat_map bevents tr
    /\ bcalls (initialInput trained0) (actionError (Backward_entry trained0))
              (size_sub (rho trained0) 1) 0
              (core (rnnModule trained0)) (core (actionModule trained0))
              (top_pairs (N.to_nat (rho trained0))
                         (rev (moduleOutputParameter trained0)))
              tr (core (rnnModule s')) (core (actionModule s'))
    /\ actionDelta s' = last (map b_adelta tr) (actionDelta trained0)
    /\ recurrentError s' = last (map b_rerr tr) (recurrentError trained0)
    /\ (forall x, nth_error tr 0 = Some x -> b_rerr x = gy0)
    /\ (forall k x y, nth_error tr k = Some x ->
                      nth_error tr (S k) = Some y -> b_rerr y = b_adelta x)
    /\ (rho trained0 = 1%N ->
        exists x, tr = [x] /\ b_rerr x = gy0).
Proof.
  apply (@Backward_recurrent_error _ _ rnn_layer action_layer 3
           input0 gy0 empty_mat trained0).
  - intros c x e. split; reflexivity.
  - reflexivity.
  - vm_compute. lia.
Defined.




(** C4. In training mode [Forward] pushes one snapshot pair per step, the
    recurrent module's output and then the action module's output, [rho]
    pairs in all; the matching [Backward] pops [rho] pairs, the last pushed
    first, loads each popped snapshot as the output of its module, and leaves
    the stack as it was before the [Forward]: empty if it was empty. *)
Theorem snapshot_stack_is_balanced {R A : Type} `{LR : Layer R}
    `{LA : Layer A} (D : N) (input : mat) (s : State R A) :
  n_cols input = 1%N ->
  (n_elem input < SIZE_MOD)%N ->
  (forall (c : A) (x : mat),
      n_cols (snd (layer_forward c x)) = 1%N
      /\ (1 <= n_rows (snd (layer_forward c x)) <= n_elem input)%N) ->
  (forall (c : R) (x e : mat),
      n_rows (snd (layer_backward c x e)) = D
      /\ (1 < n_cols (snd (layer_backward c x e)))%N) ->
  deterministic s = false ->
  exists out s1 ftr,
    Forward input s = (Ok out, s1)
    /\ length ftr = N.to_nat (rho s)
    /\ history s1 = history s ++ flat_map fevents ftr
    /\ moduleOutputParameter s1
       = moduleOutputParameter s ++ flat_map fpushed ftr
    /\ (forall input' gy g : mat,
          exists g' s2 btr,
            Backward input' gy g s1 = (Ok g', s2)
            /\ length btr = N.to_nat (rho s)
            /\ history s2 = history s1 ++ flat_map bevents btr
            /\ map b_rin btr = rev (map f_rout ftr)
            /\ outputParameter (rnnModule s2)
               = hd (outputParameter (rnnModule s1)) (map f_rout ftr)
            /\ outputParameter (actionModule s2)
               = hd (outputParameter (actionModule s1)) (map f_aout ftr)
            /\ moduleOutputParameter s2 = moduleOutputParameter s
            /\ (moduleOutputParameter s = [] ->
                moduleOutputParameter s2 = []))
    /\ (forall (s0 : State R A) (gy g : mat) (base : list mat) (r a : mat),
          moduleOutputParameter s0 = base ++ [r; a] ->
          moduleOutputParameter (snd (BackwardStep gy g s0)) = base
          /\ outputParameter (rnnModule (snd (BackwardStep gy g s0))) = r
          /\ outputParameter (actionModule (snd (BackwardStep gy g s0))) = a).
Proof.
  intros Hc Hs Ha Hshape Hdet.
  destruct (@Forward_run R A LR LA input Hc Hs Ha s)
    as (out & s1 & ftr & E & Hlen & Hh & Hst & _ & _ & _ & _ & Hb & Hrho & _).
  rewrite Hdet in Hst.
  exists out, s1, ftr.
  split; [exact E|]. split; [exact Hlen|]. split; [exact Hh|].
  split; [exact Hst|]. split.
  - intros input' gy g.
    rewrite fpushed_pairs in Hst.
    destruct (@Backward_run R A LR LA gy D Hshape input' g s1
                (moduleOutputParameter s)
                (map (fun x => (f_rout x, f_aout x)) ftr) Hb Hst)
      as (g' & s2 & btr & EB & Hl & HhB & _ & HsB & Hrin & _ & _ & Hro & Hao
          & _).
    { now rewrite length_map, Hlen, Hrho. }
    rewrite map_map in Hrin, Hro, Hao. simpl in Hrin, Hro, Hao.
    exists g', s2, btr.
    split; [exact EB|]. split; [now rewrite Hl, Hrho|].
    split; [exact HhB|]. split; [exact Hrin|].
    split; [exact Hro|]. split; [exact Hao|].
    split; [exact HsB|]. intros Hempty. now rewrite HsB.
  - intros s0 gy g base r a Hs0. now apply BackwardStep_restores.
Qed.

Lemma snapshot_stack_is_balanced_witness :
  exists out s1 ftr,
    Forward input0 layer0 = (Ok out, s1)
    /\ length ftr = N.to_nat (rho layer0)
    /\ history s1 = history layer0 ++ flat_map fevents ftr
    /\ moduleOutputParameter s1
       = moduleOutputParameter layer0 ++ flat_map fpushed ftr
    /\ (forall input' gy g : mat,
          exists g' s2 btr,
            Backward input' gy g s1 = (Ok g', s2)
            /\ length btr = N.to_nat (rho layer0)
            /\ history s2 = history s1 ++ flat_map bevents btr
            /\ map b_rin btr = rev (map f_rout ftr)
            /\ outputParameter (rnnModule s2)
               = hd (outputParameter (rnnModule s1)) (map f_rout ftr)
            /\ outputParameter (actionModule s2)
               = hd (outputParameter (actionModule s1)) (map f_aout ftr)
            /\ moduleOutputParameter s2 = moduleOutputParameter layer0
            /\ (moduleOutputParameter layer0 = [] ->
                moduleOutputParameter s2 = []))
    /\ (forall (s0 : State rnn action) (gy g : mat) (base : list mat)
               (r a : mat),
          moduleOutputParameter s0 = base ++ [r; a] ->
          moduleOutputParameter (snd (BackwardStep gy g s0)) = base
          /\ outputParameter (rnnModule (snd (BackwardStep gy g s0))) = r
          /\ outputParameter (actionModule (snd (BackwardStep gy g s0))) = a).
Proof.
  apply (@snapshot_stack_is_balanced _ _ rnn_layer action_layer 3
           input0 layer0).
  - reflexivity.
  - reflexivity.
  - intros c x. simpl. split; [reflexivity|]. vm_compute.
    split; intros H; discriminate H.
  - intros c x e. split; reflexivity.
  - reflexivity.
Defined.

(** C7. [Gradient] hands the two modules their blocks of the attention
    gradient: rows 0 .. nr - 1 to the recurrent module, where nr is its number
    of parameters, and the na rows after them to the action module.  A module
    without parameters keeps its gradient and no range is taken for it: the
    range would be empty, and taking it throws. *)
Theorem Gradient_splits_by_offset {R A : Type} `{LR : Layer R}
    `{LA : Layer A} (input error gradient' : mat) (s : State R A) :
  let G := attentionGradient s in
  let nr := n_elem (Parameters (rnnModule s)) in
  let na := n_elem (Parameters (actionModule s)) in
  (nr + na <= n_rows G)%N -> (1 <= n_cols G)%N ->
  (n_rows G < SIZE_MOD)%N ->
  exists s',
    Gradient input error gradient' s = (Ok tt, s')
    /\ gradient (rnnModule s')
       = (if (nr =? 0)%N then gradient (rnnModule s) else block G 0 nr)
    /\ gradient (actionModule s')
       = (if (na =? 0)%N then gradient (actionModule s) else block G nr na)
    /\ (forall off, (off <= SIZE_MOD)%N ->
          submat G off 0 (size_sub (off + 0) 1) 0
          = Throw index_out_of_bounds).
Proof.
  intros G nr na Hr Hc Hs.
  destruct (@Gradient_spec R A LR LA input error gradient' s)
    as (s' & E & Gr & Ga & _); try assumption.
  - fold G. lia.
  - exists s'. repeat split; try assumption.
    intros off Hoff. now apply submat_empty_range.
Qed.

Lemma Gradient_splits_by_offset_witness :
  exists s',
    Gradient input0 gy0 empty_mat backpropagated0 = (Ok tt, s')
    /\ gradient (rnnModule s')
       = (if (n_elem (Parameters (rnnModule backpropagated0)) =? 0)%N
          then gradient (rnnModule backpropagated0)
          else block (attentionGradient backpropagated0) 0
                 (n_elem (Parameters (rnnModule backpropagated0))))
    /\ gradient (actionModule s')
       = (if (n_elem (Parameters (actionModule backpropagated0)) =? 0)%N
          then gradient (actionModule backpropagated0)
          else block (attentionGradient backpropagated0)
                 (n_elem (Parameters (rnnModule backpropagated0)))
                 (n_elem (Parameters (actionModule backpropagated0))))
    /\ (forall off, (off <= SIZE_MOD)%N ->
          submat (attentionGradient backpropagated0) off 0
                 (size_sub (off + 0) 1) 0
          = Throw index_out_of_bounds).
Proof.
  apply (@Gradient_splits_by_offset _ _ rnn_layer action_layer
           input0 gy0 empty_mat backpropagated0).
  - vm_compute. intros H. discriminate H.
  - vm_compute. intros H. discriminate H.
  - reflexivity.
Defined.

(** C10, as the code has it.  [Forward] allocates the initial action input,
    as zeros of shape (outSize, columns of its input), whenever the buffer is
    empty on entry, and leaves a buffer that is not empty as it is, whatever
    the number of columns of the input.  So when outSize is positive and the
    first input has a column, the first call fixes the buffer for the calls
    that follow. *)
Theorem initialInput_allocated_when_empty {R A : Type} `{LR : Layer R}
    `{LA : Layer A} :
  (forall (s : State R A) (input : mat),
      initialInput (snd (Forward input s))
      = (if is_empty (initialInput s)
         then zeros (outSize s) (n_cols input) else initialInput s))
  /\ (forall (s : State R A) (input1 input2 : mat),
        is_empty (initialInput s) = true ->
        outSize s <> 0%N -> n_cols input1 <> 0%N ->
        initialInput (snd (Forward input1 s))
        = zeros (outSize s) (n_cols input1)
        /\ initialInput (snd (Forward input2 (snd (Forward input1 s))))
           = initialInput (snd (Forward input1 s))).
Proof.
  split.
  - intros s input. apply Forward_initialInput.
  - intros s input1 input2 Hempty Hout Hcols.
    rewrite !Forward_initialInput, Hempty. split; [reflexivity|].
    replace (is_empty (zeros (outSize s) (n_cols input1))) with false;
      [reflexivity|].
    symmetry. unfold is_empty, zeros, n_elem. simpl.
    apply N.eqb_neq. lia.
Qed.

Lemma initialInput_allocated_when_empty_witness :
  initialInput (snd (Forward input0 layer0))
  = zeros (outSize layer0) (n_cols input0)
  /\ initialInput (snd (Forward input_2cols (snd (Forward input0 layer0))))
     = initialInput (snd (Forward input0 layer0)).
Proof.
  apply (proj2 (@initialInput_allocated_when_empty _ _ rnn_layer action_layer)
           layer0 input0 input_2cols).
  - reflexivity.
  - vm_compute. intros H. discriminate H.
  - vm_compute. intros H. discriminate H.
Defined.

(** C10, as the claim states it, fails.  On a layer whose outSize is 0 the
    buffer allocated by the first [Forward] is still empty, so the second
    [Forward] allocates it again, with the column count of its own input,
    before it throws on the two columns of that input. *)
Lemma initialInput_reallocated :
  is_empty (initialInput narrow0) = true
  /\ (exists out, fst (Forward input0 narrow0) = Ok out)
  /\ initialInput (snd (Forward input0 narrow0)) = Mat 0 1 []
  /\ fst (Forward input_2cols (snd (Forward input0 narrow0)))
     = Throw incompatible_dimensions
  /\ initialInput (snd (Forward input_2cols (snd (Forward input0 narrow0))))
     = Mat 0 2 []
  /\ initialInput (snd (Forward input_2cols (snd (Forward input0 narrow0))))
     <> initialInput (snd (Forward input0 narrow0)).
Proof.
  split; [reflexivity|]. split.
  - destruct (Forward input0 narrow0) as [[out|e] s1] eqn:E.
    + exists out. reflexivity.
    + vm_compute in E. discriminate E.
  - vm_compute. repeat split. intros H. discriminate H.
Qed.

End RecurrentAttentionTheorems.

(* ===================================================================== *)
(** * MeanPooling: the output extent and its edge cases *)
(* ===================================================================== *)

Module MeanPoolingExtent.

Import ArmaFacts CubeFacts MeanPooling MeanPoolingFacts MeanPoolingValues.

(** The stored extent, in integers. *)
Lemma out_dim_floor (iw k s o : N) :
  (iw < EXACT)%N -> (k < EXACT)%N -> (s < EXACT)%N ->
  out_dim true iw k s = Some o ->
  s <> 0%N
  /\ (0 <= Z.of_N iw - Z.of_N k + Z.of_N s)%Z
  /\ Z.of_N o = ((Z.of_N iw - Z.of_N k + Z.of_N s) / Z.of_N s)%Z.
Proof.
  intros Bi Bk Bs.
  unfold out_dim. destruct (N.eqb_spec s 0) as [|Hs]; [discriminate|].
  rewrite floor_extent by assumption. unfold to_size_t.
  set (z := ((Z.of_N iw - Z.of_N k + Z.of_N s) / Z.of_N s)%Z).
  destruct (Z.leb_spec 0 z) as [H0|]; [|discriminate].
  destruct (Z.ltb_spec z (Z.of_N SIZE_MOD)); [|discriminate].
  cbn [andb]. intros E. injection E as <-.
  split; [assumption|]. split; [|lia].
  destruct (Z.lt_ge_cases (Z.of_N iw - Z.of_N k + Z.of_N s) 0) as [Hn|]; [|lia].
  assert (z < 0)%Z by (apply Z.div_lt_upper_bound; lia). lia.
Qed.

Lemma out_dim_ceil (iw k s o : N) :
  (iw < EXACT)%N -> (k < EXACT)%N -> (s < EXACT)%N ->
  out_dim false iw k s = Some o ->
  s <> 0%N
  /\ Z.of_N o = (- ((- (Z.of_N iw - Z.of_N k + Z.of_N s)) / Z.of_N s))%Z.
Proof.
  intros Bi Bk Bs.
  unfold out_dim. destruct (N.eqb_spec s 0) as [|Hs]; [discriminate|].
  rewrite ceiling_extent by assumption. unfold to_size_t.
  set (z := (- ((- (Z.of_N iw - Z.of_N k + Z.of_N s)) / Z.of_N s))%Z).
  destruct (Z.leb_spec 0 z) as [H0|]; [|discriminate].
  destruct (Z.ltb_spec z (Z.of_N SIZE_MOD)); [|discriminate].
  cbn [andb]. intros E. injection E as <-.
  split; [assumption|]. lia.
Qed.

(** Floor division and its ceiling counterpart, as bounds. *)
Lemma floor_bounds (a s : Z) :
  (0 < s)%Z -> (s * (a / s) <= a < s * (a / s) + s)%Z.
Proof.
  intros Hs. pose proof (Z.div_mod a s ltac:(lia)).
  pose proof (Z.mod_pos_bound a s Hs). lia.
Qed.

Lemma ceiling_bounds (a s : Z) :
  (0 < s)%Z -> (s * (- ((- a) / s)) - s < a <= s * (- ((- a) / s)))%Z.
Proof.
  intros Hs. pose proof (floor_bounds (- a) Hs). lia.
Qed.

(** Floor mode: every window lies inside the input, and one more would
    not. *)
Lemma floor_fit (iw k s o : N) :
  (iw < EXACT)%N -> (k < EXACT)%N -> (s < EXACT)%N ->
  out_dim true iw k s = Some o ->
  (forall i, (i < o)%N -> (i * s + k <= iw)%N)
  /\ (iw < o * s + k)%N.
Proof.
  intros Bi Bk Bs H. apply out_dim_floor in H; try assumption.
  destruct H as (Hs & H0 & Ho). clear Bi Bk Bs.
  pose proof (@floor_bounds (Z.of_N iw - Z.of_N k + Z.of_N s) (Z.of_N s)
                ltac:(lia)) as [Hlo Hhi].
  rewrite <- Ho in Hlo, Hhi. split.
  - intros i Hi. nia.
  - nia.
Qed.

(** Ceil mode: the last window reaches the end of the input, and starts
    less than a stride after the last place where a whole window fits. *)
Lemma ceil_cover (iw k s o : N) :
  (iw < EXACT)%N -> (k < EXACT)%N -> (s < EXACT)%N ->
  out_dim false iw k s = Some o ->
  (Z.of_N iw <= (Z.of_N o - 1) * Z.of_N s + Z.of_N k
   < Z.of_N iw + Z.of_N s)%Z.
Proof.
  intros Bi Bk Bs H. apply out_dim_ceil in H; try assumption.
  destruct H as (Hs & Ho). clear Bi Bk Bs.
  pose proof (@ceiling_bounds (Z.of_N iw - Z.of_N k + Z.of_N s) (Z.of_N s)
                ltac:(lia)) as [Hlo Hhi].
  rewrite <- Ho in Hlo, Hhi. nia.
Qed.

(** The two modes differ by at most one window, and agree exactly when the
    stride divides the distance the window can travel. *)
Lemma floor_ceil (iw k s a b : N) :
  (iw < EXACT)%N -> (k < EXACT)%N -> (s < EXACT)%N ->
  out_dim true iw k s = Some a ->
  out_dim false iw k s = Some b ->
  (a <= b <= a + 1)%N
  /\ (a = b <-> ((Z.of_N iw - Z.of_N k) mod Z.of_N s = 0)%Z).
Proof.
  intros Bi Bk Bs Ha Hb. apply out_dim_floor in Ha; try assumption.
  destruct Ha as (Hs & H0 & Ha).
  apply out_dim_ceil in Hb; try assumption. destruct Hb as (_ & Hb).
  clear Bi Bk Bs.
  set (x := (Z.of_N iw - Z.of_N k + Z.of_N s)%Z) in *.
  set (z := Z.of_N s) in *.
  assert (Hz : (0 < z)%Z) by (unfold z; lia).
  pose proof (@floor_bounds x z Hz) as [F1 F2].
  pose proof (@ceiling_bounds x z Hz) as [C1 C2].
  rewrite <- Ha in F1, F2. rewrite <- Hb in C1, C2.
  assert (Hm : ((Z.of_N iw - Z.of_N k) mod z = x mod z)%Z).
  { unfold x. replace (Z.of_N iw - Z.of_N k + z)%Z
      with (Z.of_N iw - Z.of_N k + 1 * z)%Z by lia.
    now rewrite Z.mod_add by lia. }
  rewrite Hm.
  pose proof (Z.div_mod x z ltac:(lia)) as Hd.
  pose proof (Z.mod_pos_bound x z Hz) as Hr.
  rewrite <- Ha in Hd.
  split; [nia|]. split.
  - intros E. subst b. nia.
  - intros E. rewrite E in Hd. assert (Z.of_N a = Z.of_N b) by nia. lia.
Qed.

End MeanPoolingExtent.

Module MeanPoolingEdges.

Import ArmaFacts CubeFacts MeanPooling MeanPoolingFacts MeanPoolingValues
  MeanPoolingExtent MeanPoolingRuns.

Lemma Forward_result (st : State) (input : mat) :
  Forward st input <> None ->
  Forward st input = Some (forwarded st input, pooled st input).
Proof.
  unfold forwarded, pooled.
  destruct (Forward st input) as [[st1 out]|]; [reflexivity|congruence].
Qed.

Lemma Backward_result (st : State) (x gy : mat) :
  Backward st x gy <> None ->
  Backward st x gy = Some (backwarded st x gy, unpooled st x gy).
Proof.
  unfold backwarded, unpooled.
  destruct (Backward st x gy) as [[st2 g]|]; [reflexivity|congruence].
Qed.

(** When the stored extent exists. *)
Lemma out_dim_defined (fl : bool) (iw k s : N) :
  (iw < EXACT)%N -> (k < EXACT)%N -> (s < EXACT)%N ->
  (exists o, out_dim fl iw k s = Some o)
  <-> (s <> 0 /\ k < iw + (if fl then s + 1 else 2 * s))%N.
Proof.
  intros Bi Bk Bs. unfold out_dim.
  destruct (N.eqb_spec s 0) as [->|Hs].
  { split; [intros [o Ho]; discriminate Ho | intros [H _]; congruence]. }
  rewrite floor_extent, ceiling_extent by assumption.
  unfold EXACT in Bi, Bk, Bs. apply N2Z.inj_lt in Bi, Bk, Bs.
  change (Z.of_N (2 ^ 50)) with (2 ^ 50)%Z in Bi, Bk, Bs.
  set (x := (Z.of_N iw - Z.of_N k + Z.of_N s)%Z).
  assert (Hz : (0 < Z.of_N s)%Z) by lia.
  assert (Hx : (x < 2 ^ 51)%Z) by (unfold x; lia).
  change (Z.of_N SIZE_MOD) with (2 ^ 64)%Z in *.
  destruct fl.
  - pose proof (@floor_bounds x (Z.of_N s) Hz) as [F1 F2].
    unfold to_size_t. change (Z.of_N SIZE_MOD) with (2 ^ 64)%Z.
    destruct (Z.leb_spec 0 (x / Z.of_N s)) as [H0|H0];
      destruct (Z.ltb_spec (x / Z.of_N s) (2 ^ 64)) as [H1|H1];
      cbn [andb]; split; try (intros [o Ho]; discriminate Ho);
      try (intros _; split; [assumption|unfold x in *; nia]);
      try (intros _; eexists; reflexivity);
      intros [_ Hk]; exfalso; unfold x in *; nia.
  - pose proof (@ceiling_bounds x (Z.of_N s) Hz) as [C1 C2].
    unfold to_size_t. change (Z.of_N SIZE_MOD) with (2 ^ 64)%Z.
    destruct (Z.leb_spec 0 (- (- x / Z.of_N s))) as [H0|H0];
      destruct (Z.ltb_spec (- (- x / Z.of_N s)) (2 ^ 64)) as [H1|H1];
      cbn [andb]; split; try (intros [o Ho]; discriminate Ho);
      try (intros _; split; [assumption|unfold x in *; nia]);
      try (intros _; eexists; reflexivity);
      intros [_ Hk]; exfalso; unfold x in *; nia.
Qed.

(** A divisor that is zero in [size_t], or a zero stride, leaves no defined
    result. *)
Lemma Forward_undefined (st : State) (input : mat) :
  size_mul (size_mul (inputWidth st) (inputHeight st)) (n_cols input) = 0%N
  \/ strideWidth st = 0%N \/ strideHeight st = 0%N ->
  Forward st input = None.
Proof.
  intros H. unfold Forward.
  destruct (SIZE_MOD <=? n_elem input)%N; [reflexivity|].
  destruct (N.eqb_spec (size_mul (size_mul (inputWidth st) (inputHeight st))
                                 (n_cols input)) 0) as [|Hd]; [reflexivity|].
  destruct (negb (within _ _)); [reflexivity|].
  destruct H as [H|[H|H]]; [contradiction| |].
  - unfold out_dim at 1. rewrite H. reflexivity.
  - unfold out_dim at 2. rewrite H.
    destruct (out_dim _ _ _ _); reflexivity.
Qed.

(** X1. When [Forward] has a defined result.  A divisor
    inputWidth * inputHeight * batchSize that is zero in [size_t], also by
    wrapping around, or a zero stride leaves none: in particular an input
    without columns, and a layer whose input dimensions were never set, have
    no defined [Forward].  On an input whose size the layer can address (the
    divisor fits [size_t]) and for input dimensions, kernel and strides of at
    most 50 bits, [Forward] has a defined result exactly when the divisor is
    not zero, both strides are not zero, and the kernel exceeds the input by
    at most one stride in floor mode (by less than two strides in ceil
    mode); anything else divides by zero or converts a negative extent to
    [size_t]. *)
Theorem Forward_defined (st : State) (input : mat) :
  (size_mul (size_mul (inputWidth st) (inputHeight st)) (n_cols input) = 0%N
   \/ strideWidth st = 0%N \/ strideHeight st = 0%N ->
   Forward st input = None)
  /\ (wf input -> (n_elem input < SIZE_MOD)%N ->
      (inputWidth st * inputHeight st * n_cols input < SIZE_MOD)%N ->
      exact_sizes st ->
      ((exists r, Forward st input = Some r)
       <-> ((inputWidth st * inputHeight st * n_cols input <> 0)%N
            /\ strideWidth st <> 0%N /\ strideHeight st <> 0%N
            /\ (kernelWidth st
                < inputWidth st
                  + (if floor st then strideWidth st + 1
                     else 2 * strideWidth st))%N
            /\ (kernelHeight st
                < inputHeight st
                  + (if floor st then strideHeight st + 1
                     else 2 * strideHeight st))%N))).
Proof.
  split; [apply Forward_undefined|].
  intros Hwf Hn Hnw (BiW & BiH & BkW & BkH & BsW & BsH).
  pose proof (@out_dim_defined (floor st) (inputWidth st) (kernelWidth st)
                (strideWidth st) BiW BkW BsW) as DW.
  pose proof (@out_dim_defined (floor st) (inputHeight st) (kernelHeight st)
                (strideHeight st) BiH BkH BsH) as DH.
  split.
  - intros [[st1 out] HF]. apply (Forward_exact _ _ Hnw) in HF.
    destruct HF as (oW & oH & Hd & EW & EH & _).
    destruct (proj1 DW (ex_intro _ oW EW)) as [sW kW].
    destruct (proj1 DH (ex_intro _ oH EH)) as [sH kH].
    repeat split; assumption.
  - intros (Hd & sW & sH & kW & kH).
    destruct (proj2 DW (conj sW kW)) as [oW EW].
    destruct (proj2 DH (conj sH kH)) as [oH EH].
    destruct (@Forward_dims st input oW oH Hwf Hn Hd Hnw EW EH)
      as (st1 & out & HF & _).
    now exists (st1, out).
Qed.

Lemma Forward_defined_witness :
  (exists r, Forward pool_2x2_on_4x4 (zeros 16 1) = Some r)
  /\ Forward pool_2x2_on_4x4 (zeros 16 0) = None
  /\ Forward (MeanPoolingType 2 2 2 2 true) (zeros 16 1) = None.
Proof.
  split; [|split].
  - apply (proj2 (Forward_defined pool_2x2_on_4x4 (zeros 16 1)));
      vm_compute; repeat split; discriminate.
  - apply (proj1 (Forward_defined pool_2x2_on_4x4 (zeros 16 0))).
    left. reflexivity.
  - apply (proj1 (Forward_defined (MeanPoolingType 2 2 2 2 true)
                    (zeros 16 1))).
    left. reflexivity.
Defined.

(** X4. In floor mode, for input dimensions, kernel and strides of at most
    50 bits, every window that [Forward] counts lies inside the input, in
    both directions, and the count is maximal: one more window would leave
    the input. *)
Theorem floor_windows_fit (st : State) (input : mat) (st1 : State)
    (out : mat) :
  exact_sizes st ->
  Forward st input = Some (st1, out) ->
  floor st = true ->
  (forall i, (i < outputWidth st1)%N ->
     (i * strideWidth st + kernelWidth st <= inputWidth st)%N)
  /\ (forall j, (j < outputHeight st1)%N ->
        (j * strideHeight st + kernelHeight st <= inputHeight st)%N)
  /\ (inputWidth st < outputWidth st1 * strideWidth st + kernelWidth st)%N
  /\ (inputHeight st < outputHeight st1 * strideHeight st + kernelHeight st)%N.
Proof.
  intros (BiW & BiH & BkW & BkH & BsW & BsH) HF Hfl. apply Forward_inv in HF.
  destruct HF as (oW & oH & _ & EW & EH & _ & _ & _ & _ & _ & _ & _ & _ & _
                  & _ & -> & -> & _).
  rewrite Hfl in EW, EH.
  destruct (floor_fit BiW BkW BsW EW) as [W1 W2].
  destruct (floor_fit BiH BkH BsH EH) as [H1 H2].
  repeat split; assumption.
Qed.

Lemma floor_windows_fit_witness :
  (6 < outputWidth (forwarded pool_3x3_floor_on_6x6 sample_36x1) * 2 + 3)%N.
Proof.
  destruct (@floor_windows_fit pool_3x3_floor_on_6x6 sample_36x1
              (forwarded pool_3x3_floor_on_6x6 sample_36x1)
              (pooled pool_3x3_floor_on_6x6 sample_36x1))
    as (_ & _ & H & _).
  - vm_compute. repeat split.
  - apply Forward_result. intros E. vm_compute in E. discriminate E.
  - reflexivity.
  - exact H.
Defined.

(** X5. In ceil mode, for input dimensions, kernel and strides of at most
    50 bits, the last window that [Forward] counts reaches the end of the
    input, in both directions, and it starts less than one stride after the
    last place where a whole window fits. *)
Theorem ceil_windows_cover (st : State) (input : mat) (st1 : State)
    (out : mat) :
  exact_sizes st ->
  Forward st input = Some (st1, out) ->
  floor st = false ->
  (Z.of_N (inputWidth st)
   <= (Z.of_N (outputWidth st1) - 1) * Z.of_N (strideWidth st)
      + Z.of_N (kernelWidth st)
   < Z.of_N (inputWidth st) + Z.of_N (strideWidth st))%Z
  /\ (Z.of_N (inputHeight st)
      <= (Z.of_N (outputHeight st1) - 1) * Z.of_N (strideHeight st)
         + Z.of_N (kernelHeight st)
      < Z.of_N (inputHeight st) + Z.of_N (strideHeight st))%Z.
Proof.
  intros (BiW & BiH & BkW & BkH & BsW & BsH) HF Hfl. apply Forward_inv in HF.
  destruct HF as (oW & oH & _ & EW & EH & _ & _ & _ & _ & _ & _ & _ & _ & _
                  & _ & -> & -> & _).
  rewrite Hfl in EW, EH.
  split; [exact (ceil_cover BiW BkW BsW EW)
         | exact (ceil_cover BiH BkH BsH EH)].
Qed.

Lemma ceil_windows_cover_witness :
  (6 <= (Z.of_N (outputWidth (forwarded pool_3x3_ceil_on_6x6 sample_36x1)) - 1)
        * 2 + 3 < 6 + 2)%Z.
Proof.
  destruct (@ceil_windows_cover pool_3x3_ceil_on_6x6 sample_36x1
              (forwarded pool_3x3_ceil_on_6x6 sample_36x1)
              (pooled pool_3x3_ceil_on_6x6 sample_36x1))
    as (H & _).
  - vm_compute. repeat split.
  - apply Forward_result. intros E. vm_compute in E. discriminate E.
  - reflexivity.
  - exact H.
Defined.

End MeanPoolingEdges.

Module MeanPoolingShapes.

Import ArmaFacts CubeFacts MeanPooling MeanPoolingFacts MeanPoolingValues
  MeanPoolingExtent MeanPoolingEdges MeanPoolingRuns.

Lemma length_flat_map_const {T U : Type} (f : T -> list U) (l : list T)
    (n : nat) :
  (forall x, length (f x) = n) ->
  length (flat_map f l) = (length l * n)%nat.
Proof.
  intros H. induction l as [|x l IH]; [reflexivity|].
  simpl. rewrite length_app, H, IH. lia.
Qed.

Lemma Pooling_length (st : State) (x o : mat) :
  length (mem (Pooling st x o)) = N.to_nat (n_rows o * n_cols o).
Proof.
  unfold Pooling. cbn [mem].
  rewrite (@length_flat_map_const _ _ _ _ (N.to_nat (n_rows o))).
  - rewrite range_length. lia.
  - intros j. now rewrite length_map, range_length.
Qed.

(** X2. On an input whose size the layer can address,
    inputWidth * inputHeight * batchSize below 2^64, [Forward] returns one
    column per column of the input; each of them holds
    outputWidth * outputHeight elements for each of the
    n_elem / (inputWidth * inputHeight * batchSize) channels, and the memory
    of the output holds exactly these elements.  The configuration of the
    layer is left as it was. *)
Theorem Forward_output_shape (st : State) (input : mat) (st1 : State)
    (out : mat) :
  wf input ->
  (inputWidth st * inputHeight st * n_cols input < SIZE_MOD)%N ->
  Forward st input = Some (st1, out) ->
  n_cols out = n_cols input
  /\ n_rows out
     = (outputWidth st1 * outputHeight st1
        * (n_elem input
           / (inputWidth st * inputHeight st * n_cols input)))%N
  /\ wf out
  /\ (kernelWidth st1, kernelHeight st1, strideWidth st1, strideHeight st1,
      floor st1, inputWidth st1, inputHeight st1)
     = (kernelWidth st, kernelHeight st, strideWidth st, strideHeight st,
        floor st, inputWidth st, inputHeight st).
Proof.
  intros Hwf Hnw HF.
  pose proof (@Forward_product st input st1 out Hnw HF) as Hprod.
  destruct (@Forward_mem st input st1 out HF Hprod) as (Er & Ec & Em).
  destruct (@Forward_exact st input st1 out Hnw HF)
    as (oW & oH & _ & _ & _ & -> & -> & -> & -> & -> & -> & -> & Eb & En
        & Ei & _ & _ & _ & _).
  cbv zeta in En. rewrite Eb in Ec. rewrite Ei in Er.
  repeat split; try assumption.
  unfold wf, n_elem. rewrite Em, Er, Ec.
  rewrite (@length_flat_map_const _ _ _ _
             (N.to_nat (outputWidth st1 * outputHeight st1))).
  - rewrite range_length, En. lia.
  - intros s. now rewrite Pooling_length.
Qed.

Lemma Forward_output_shape_witness :
  n_cols (pooled pool_3x3_ceil_on_6x6 sample_36x1) = 1%N
  /\ n_rows (pooled pool_3x3_ceil_on_6x6 sample_36x1) = 9%N.
Proof.
  destruct (@Forward_output_shape pool_3x3_ceil_on_6x6 sample_36x1
              (forwarded pool_3x3_ceil_on_6x6 sample_36x1)
              (pooled pool_3x3_ceil_on_6x6 sample_36x1))
    as (Hc & Hr & _).
  - reflexivity.
  - reflexivity.
  - apply Forward_result. intros E. vm_compute in E. discriminate E.
  - split; [exact Hc|]. rewrite Hr. reflexivity.
Defined.

(** X3. After a [Forward] on an input that meets the shape contract (its
    element count is a multiple of inputWidth * inputHeight * batchSize,
    which fits [size_t]), [Backward] has a result for every output gradient
    of the shape of the output, and the input gradient it returns has the
    shape of that input. *)
Theorem Backward_gradient_shape (st : State) (input : mat) (st1 : State)
    (out : mat) :
  wf input ->
  (inputWidth st * inputHeight st * n_cols input < SIZE_MOD)%N ->
  (n_elem input mod (inputWidth st * inputHeight st * n_cols input) = 0)%N ->
  Forward st input = Some (st1, out) ->
  forall x gy : mat,
  wf gy -> n_rows gy = n_rows out -> n_cols gy = n_cols out ->
  exists st2 g,
    Backward st1 x gy = Some (st2, g)
    /\ n_rows g = n_rows input /\ n_cols g = n_cols input /\ wf g.
Proof.
  intros Hwf Hnw Hmod HF x gy Hgy Hgr Hgc.
  pose proof (@Forward_product st input st1 out Hnw HF) as Hprod.
  pose proof (@Forward_ready st input st1 out HF Hprod) as Hready.
  destruct (@Forward_mem st input st1 out HF Hprod) as (Or & Oc & _).
  assert (Hfit : (N.to_nat (outputWidth st1 * outputHeight st1
                            * outSize st1) <= length (mem gy))%nat).
  { unfold wf, n_elem in Hgy. rewrite Hgy, Hgr, Hgc, Or, Oc, Hprod. lia. }
  destruct (@Backward_ready st1 x gy Hready Hfit)
    as (st2 & g & HB & Er & Ec & Em).
  destruct (@Forward_exact st input st1 out Hnw HF)
    as (oW & oH & Hd & _ & _ & _ & _ & _ & _ & _ & EW & EH & Eb & En
        & Ei & _ & _ & _ & _).
  cbv zeta in En.
  exists st2, g. split; [exact HB|].
  set (d := (inputWidth st * inputHeight st * n_cols input)%N) in *.
  pose proof (@divisible_elems _ _ Hd Hmod) as Hdiv. fold d in Ei.
  assert (Hb : n_cols input <> 0%N).
  { intros E. apply Hd. unfold d. rewrite E. apply N.mul_0_r. }
  assert (Hrows : (inputWidth st1 * inputHeight st1 * inSize st1
                   = n_rows input)%N).
  { rewrite EW, EH, Ei.
    apply (proj1 (N.mul_cancel_r _ _ (n_cols input) Hb)).
    change (n_rows input * n_cols input)%N with (n_elem input).
    rewrite <- Hdiv at 2. unfold d. lia. }
  rewrite Er, Ec, Eb. split; [exact Hrows|]. split; [reflexivity|].
  unfold wf, n_elem. rewrite Em, Er, Ec, Hrows, Eb.
  rewrite (@length_flat_map_const _ _ _ _
             (N.to_nat (inputWidth st1 * inputHeight st1))).
  - rewrite range_length, En, <- Hrows, Ei. fold d. lia.
  - intros s. rewrite Unpooling_length. unfold zeros. cbn [mem].
    now rewrite repeat_length.
Qed.

Lemma Backward_gradient_shape_witness :
  exists st2 g,
    Backward (forwarded pool_3x3_ceil_on_6x6 sample_36x1) sample_36x1
             (filled (q 1 1) 9 1) = Some (st2, g)
    /\ n_rows g = 36%N /\ n_cols g = 1%N /\ wf g.
Proof.
  apply (@Backward_gradient_shape pool_3x3_ceil_on_6x6 sample_36x1
           (forwarded pool_3x3_ceil_on_6x6 sample_36x1)
           (pooled pool_3x3_ceil_on_6x6 sample_36x1)).
  - reflexivity.
  - reflexivity.
  - reflexivity.
  - apply Forward_result. intros E. vm_compute in E. discriminate E.
  - reflexivity.
  - vm_compute. reflexivity.
  - vm_compute. reflexivity.
Defined.

End MeanPoolingShapes.

Module MeanPoolingPersistence.

Import ArmaFacts CubeFacts MeanPooling MeanPoolingFacts MeanPoolingValues
  MeanPoolingExtent MeanPoolingEdges MeanPoolingRuns MeanPoolingArchive
  MeanPoolingShapes.

(** X6. Two layers that differ only in the rounding mode, with an input
    width, a kernel and a stride of at most 50 bits, store output extents
    that differ by at most one: the ceil-mode layer counts the same windows
    as the floor-mode layer when the stride divides
    inputWidth - kernelWidth, and one more (a clipped one) otherwise. *)
Theorem rounding_modes_differ_by_one (st st' : State) (input : mat)
    (st1 st1' : State) (out out' : mat) :
  (inputWidth st < EXACT)%N -> (kernelWidth st < EXACT)%N ->
  (strideWidth st < EXACT)%N ->
  floor st = true -> floor st' = false ->
  (kernelWidth st', strideWidth st', inputWidth st')
  = (kernelWidth st, strideWidth st, inputWidth st) ->
  Forward st input = Some (st1, out) ->
  Forward st' input = Some (st1', out') ->
  (outputWidth st1 <= outputWidth st1' <= outputWidth st1 + 1)%N
  /\ (outputWidth st1 = outputWidth st1'
      <-> ((Z.of_N (inputWidth st) - Z.of_N (kernelWidth st))
           mod Z.of_N (strideWidth st) = 0)%Z).
Proof.
  intros Bi Bk Bs Hfl Hfl' Hcfg HF HF'. injection Hcfg as Ek Es Ei.
  apply Forward_inv in HF.
  destruct HF as (oW & oH & _ & EW & _ & _ & _ & _ & _ & _ & _ & _ & _ & _
                  & _ & -> & _).
  apply Forward_inv in HF'.
  destruct HF' as (oW' & oH' & _ & EW' & _ & _ & _ & _ & _ & _ & _ & _ & _ & _
                   & _ & -> & _).
  rewrite Hfl in EW. rewrite Hfl', Ek, Es, Ei in EW'.
  exact (floor_ceil Bi Bk Bs EW EW').
Qed.

Lemma rounding_modes_differ_by_one_witness :
  (outputWidth (forwarded pool_3x3_floor_on_6x6 sample_36x1)
   <= outputWidth (forwarded pool_3x3_ceil_on_6x6 sample_36x1)
   <= outputWidth (forwarded pool_3x3_floor_on_6x6 sample_36x1) + 1)%N.
Proof.
  destruct (@rounding_modes_differ_by_one
              pool_3x3_floor_on_6x6 pool_3x3_ceil_on_6x6 sample_36x1
              (forwarded pool_3x3_floor_on_6x6 sample_36x1)
              (forwarded pool_3x3_ceil_on_6x6 sample_36x1)
              (pooled pool_3x3_floor_on_6x6 sample_36x1)
              (pooled pool_3x3_ceil_on_6x6 sample_36x1))
    as (H & _).
  - reflexivity.
  - reflexivity.
  - reflexivity.
  - reflexivity.
  - reflexivity.
  - reflexivity.
  - apply Forward_result. intros E. vm_compute in E. discriminate E.
  - apply Forward_result. intros E. vm_compute in E. discriminate E.
  - exact H.
Defined.

(** ** What [Forward] depends on *)

Lemma sweep_ext (F G : N -> mat -> mat) (n : N) (q0 : cube) :
  (forall s m, F s m = G s m) -> sweep F n q0 = sweep G n q0.
Proof.
  intros H. unfold sweep.
  induction n as [|n IH] using N.peano_ind; [reflexivity|].
  now rewrite !for_succ, IH, H.
Qed.

(** Two objects with the same configuration compute the same output and the
    same cache. *)
Lemma Forward_configuration (st st' : State) (input : mat) :
  configuration st' = configuration st ->
  match Forward st' input, Forward st input with
  | Some (s1', o'), Some (s1, o) =>
      o' = o /\ serialize_save s1' = serialize_save s1
      /\ inSize s1' = inSize s1 /\ outSize s1' = outSize s1
      /\ offset s1' = offset s1
      /\ inputTemp s1' = inputTemp s1 /\ outputTemp s1' = outputTemp s1
  | None, None => True
  | _, _ => False
  end.
Proof.
  unfold configuration. intros E. injection E as kW kH sW sH fl iW iH.
  unfold Forward. rewrite kW, kH, sW, sH, fl, iW, iH.
  destruct (SIZE_MOD <=? n_elem input)%N; [exact I|].
  destruct (_ =? 0)%N; [exact I|].
  destruct (negb (within _ _)); [exact I|].
  destruct (out_dim (floor st) (inputWidth st) (kernelWidth st)
              (strideWidth st)) as [oW|]; [|exact I].
  destruct (out_dim (floor st) (inputHeight st) (kernelHeight st)
              (strideHeight st)) as [oH|]; [|exact I].
  assert (EP : forall a b, pool_slices st' a b = pool_slices st a b).
  { intros a b. unfold pool_slices. apply sweep_ext. intros s m.
    now apply Pooling_same_kernel. }
  rewrite EP. unfold serialize_save. cbn [kernelWidth kernelHeight strideWidth
    strideHeight batchSize floor inputWidth inputHeight outputWidth
    outputHeight inSize outSize offset inputTemp outputTemp].
  repeat split; reflexivity.
Qed.

(** X26. [Forward] has no memory.  Its output and the cache it leaves are
    determined by the configuration of the layer and the input: after a
    [Forward] on any batch, a [Forward] on another batch gives what it gives
    on the layer before the first call. *)
Theorem Forward_has_no_memory (st : State) (x y : mat) (st1 : State)
    (o1 : mat) :
  Forward st x = Some (st1, o1) ->
  option_map (fun r => (snd r, cache (fst r))) (Forward st1 y)
  = option_map (fun r => (snd r, cache (fst r))) (Forward st y).
Proof.
  intros HF.
  assert (Hcfg : configuration st1 = configuration st).
  { unfold configuration.
    destruct (@Forward_inv st x st1 o1 HF)
      as (oW & oH & _ & _ & _ & -> & -> & -> & -> & -> & -> & -> & _).
    reflexivity. }
  pose proof (@Forward_configuration st st1 y Hcfg) as H.
  destruct (Forward st1 y) as [[s1' o']|];
    destruct (Forward st y) as [[s1 o]|]; try contradiction;
    [|reflexivity].
  destruct H as (-> & Hsave & Hin & Hout & Hoff & HiT & HoT).
  unfold serialize_save in Hsave.
  injection Hsave as _ _ _ _ Hb _ _ _ HoW HoH.
  cbn [option_map fst snd]. unfold cache.
  now rewrite Hin, Hout, Hoff, Hb, HoW, HoH, HiT, HoT.
Qed.

Lemma Forward_has_no_memory_witness :
  option_map (fun r => (snd r, cache (fst r)))
             (Forward after_forward sample_9x2)
  = option_map (fun r => (snd r, cache (fst r)))
               (Forward pool_2x2_stride1_on_3x3 sample_9x2).
Proof.
  destruct (Forward pool_2x2_stride1_on_3x3 sample_9x2) as [[st1 o1]|] eqn:E.
  - assert (Ea : after_forward = st1)
      by (unfold after_forward; now rewrite E).
    rewrite Ea, <- E.
    exact (@Forward_has_no_memory pool_2x2_stride1_on_3x3 sample_9x2
             sample_9x2 st1 o1 E).
  - exfalso. vm_compute in E. discriminate E.
Defined.

(** X7. Round trip of [serialize].  Loading the archive of a layer into any
    object succeeds; it restores the ten persisted members and touches no
    other; and the restored object computes, on every input, the [Forward]
    output that the saved layer computes (or has no defined result where the
    saved layer has none). *)
Theorem serialize_round_trip (st st0 : State) :
  exists st',
    serialize_load (serialize_save st) st0 = Some st'
    /\ serialize_save st' = serialize_save st
    /\ (inSize st', outSize st', offset st', reset st', deterministic st')
       = (inSize st0, outSize st0, offset st0, reset st0, deterministic st0)
    /\ (inputTemp st', outputTemp st', gTemp st')
       = (inputTemp st0, outputTemp st0, gTemp st0)
    /\ forall input, output_of (Forward st' input) = output_of (Forward st input).
Proof.
  eexists. split; [reflexivity|].
  split; [reflexivity|]. split; [reflexivity|]. split; [reflexivity|].
  intros input.
  match goal with
  | |- output_of (Forward ?a input) = _ =>
      pose proof (@Forward_configuration st a input eq_refl) as H
  end.
  unfold output_of.
  destruct (Forward _ input) as [[s1' o']|];
    destruct (Forward st input) as [[s1 o]|]; try contradiction;
    [|reflexivity].
  destruct H as (-> & _). reflexivity.
Qed.

(** X8. The cache of [Forward] is not persisted.  A layer restored into a
    freshly constructed object holds the batch size of the saved layer but
    neither its input view nor its slice count: a [Backward] on it, before
    any [Forward], returns a gradient with no rows for every output
    gradient. *)
Theorem Backward_after_load (st : State) (kW kH sW sH : N) (fl : bool)
    (x gy : mat) :
  batchSize st <> 0%N ->
  exists st' st2,
    serialize_load (serialize_save st) (MeanPoolingType kW kH sW sH fl)
    = Some st'
    /\ Backward st' x gy = Some (st2, Mat 0 (batchSize st) []).
Proof.
  intros Hb. eexists. eexists. split; [reflexivity|].
  unfold Backward.
  cbn [inputTemp outSize batchSize outputWidth outputHeight MeanPoolingType
       empty_cube c_slices c_rows c_cols cube_view].
  change (0 <? 0)%N with false.
  replace (within (mem gy) _) with true
    by (symmetry; apply within_le; rewrite N.mul_0_r; apply Nat.le_0_l).
  cbn [negb]. cbv iota.
  apply N.eqb_neq in Hb. rewrite Hb.
  unfold unpool_slices, sweep. cbn [c_slices cube_view]. rewrite for_0.
  unfold mat_of_mem, c_elem, zeros_cube. cbn [c_rows c_cols c_slices cmem].
  rewrite N.Div0.div_0_l. cbn [N.mul N.to_nat firstn].
  reflexivity.
Qed.

Lemma Backward_after_load_witness :
  exists st2, Backward restored sample_9x2 grad_4x2 = Some (st2, Mat 0 2 []).
Proof.
  destruct (@Backward_after_load after_forward 0 0 0 0 false
              sample_9x2 grad_4x2) as (st' & st2 & E1 & E2).
  - vm_compute. discriminate.
  - exists st2. unfold restored. rewrite E1. exact E2.
Defined.

(** X9. [Backward] writes nothing that it or [Forward] reads: a second
    [Backward] with the same output gradient, whatever its input argument,
    returns the same input gradient and leaves the state as the first one
    left it. *)
Theorem Backward_repeatable (st : State) (x gy : mat) (st2 : State)
    (g : mat) :
  Backward st x gy = Some (st2, g) ->
  forall x', Backward st2 x' gy = Some (st2, g).
Proof.
  unfold Backward. intros H x'.
  destruct (within (mem gy) _) eqn:E0; cbn [negb] in H; [|discriminate].
  destruct (_ <? _)%N eqn:E1; [discriminate|].
  destruct (batchSize st =? 0)%N eqn:E2; [discriminate|].
  injection H as <- <-.
  cbn [inputTemp outSize batchSize outputWidth outputHeight kernelWidth
       kernelHeight strideWidth strideHeight floor inSize inputWidth
       inputHeight reset deterministic offset outputTemp].
  rewrite E0, E1, E2. cbn [negb].
  assert (EU : forall a b c (s' : State),
             kernelWidth s' = kernelWidth st ->
             kernelHeight s' = kernelHeight st ->
             strideWidth s' = strideWidth st ->
             strideHeight s' = strideHeight st ->
             unpool_slices s' a b c = unpool_slices st a b c).
  { intros a b c s' k1 k2 k3 k4. unfold unpool_slices. apply sweep_ext.
    intros s m. now apply Unpooling_same_kernel. }
  rewrite EU by reflexivity. reflexivity.
Qed.

Lemma Backward_repeatable_witness :
  exists g,
    Backward after_forward sample_9x2 grad_4x2 = Some (after_backward, g)
    /\ Backward after_backward sample_6x2 grad_4x2 = Some (after_backward, g).
Proof.
  destruct (Backward after_forward sample_9x2 grad_4x2) as [[st2 g]|] eqn:E.
  - exists g.
    assert (Ea : after_backward = st2)
      by (unfold after_backward; now rewrite E).
    rewrite Ea. split; [reflexivity|].
    exact (@Backward_repeatable after_forward sample_9x2 grad_4x2 st2 g E
             sample_6x2).
  - exfalso. vm_compute in E. discriminate E.
Defined.

End MeanPoolingPersistence.

(* ===================================================================== *)
(** * MeanPooling: the samples of a batch *)
(* ===================================================================== *)

Module MeanPoolingBatch.

Import ArmaFacts CubeFacts MeanPooling MeanPoolingFacts MeanPoolingValues
  MeanPoolingExtent MeanPoolingEdges MeanPoolingRuns MeanPoolingShapes.

Lemma range_add (m n : N) :
  range (m + n) = range m ++ map (fun t => (m + t)%N) (range n).
Proof.
  induction n as [|n IH] using N.peano_ind.
  - now rewrite N.add_0_r, app_nil_r.
  - rewrite N.add_succ_r, !range_succ, IH, map_app, app_assoc. reflexivity.
Qed.

(** A slice of a view on two memories, one after the other, lies in the
    first or in the second. *)
Lemma slice_join_l (mA mB : list Qc) (r c nA n s : N) :
  length mA = N.to_nat (r * c * nA) -> (s < nA)%N ->
  (N.to_nat (r * c * n) >= length mA)%nat ->
  slice (cube_view (mA ++ mB) r c n) s = slice (cube_view mA r c nA) s.
Proof.
  intros HA Hs Hn. unfold slice, cube_view, slice_elem.
  cbn [c_rows c_cols cmem]. f_equal.
  rewrite (firstn_all2 mA) by lia.
  rewrite firstn_app, (firstn_all2 mA) by lia.
  rewrite skipn_app.
  replace (N.to_nat (s * (r * c)) - length mA)%nat with 0%nat by nia.
  cbn [skipn]. rewrite firstn_app.
  replace (N.to_nat (r * c) - length (skipn (N.to_nat (s * (r * c))) mA))%nat
    with 0%nat by (rewrite length_skipn; nia).
  cbn [firstn]. now rewrite app_nil_r.
Qed.

Lemma slice_join_r (mA mB : list Qc) (r c nA nB t : N) :
  length mA = N.to_nat (r * c * nA) ->
  length mB = N.to_nat (r * c * nB) ->
  slice (cube_view (mA ++ mB) r c (nA + nB)) (nA + t)
  = slice (cube_view mB r c nB) t.
Proof.
  intros HA HB. unfold slice, cube_view, slice_elem.
  cbn [c_rows c_cols cmem]. f_equal.
  rewrite (firstn_all2 mB) by lia.
  rewrite (firstn_all2 (mA ++ mB)) by (rewrite length_app; lia).
  rewrite skipn_app, (skipn_all2 mA) by lia.
  cbn [app]. f_equal. f_equal. lia.
Qed.

(** [Forward] on a batch of whole channels: [k] channels of
    inputWidth x inputHeight elements in every column.  The products of the
    sizes do not wrap around, because the elements of the batch are counted
    in a [size_t]. *)
Lemma Forward_channels (st : State) (A : mat) (k : N) (sA : State)
    (oA : mat) :
  wf A -> n_rows A = (inputWidth st * inputHeight st * k)%N ->
  Forward st A = Some (sA, oA) ->
  exists oW oH,
    (inputWidth st * inputHeight st)%N <> 0%N /\ n_cols A <> 0%N
    /\ out_dim (floor st) (inputWidth st) (kernelWidth st) (strideWidth st)
       = Some oW
    /\ out_dim (floor st) (inputHeight st) (kernelHeight st) (strideHeight st)
       = Some oH
    /\ kernelWidth sA = kernelWidth st /\ kernelHeight sA = kernelHeight st
    /\ strideWidth sA = strideWidth st /\ strideHeight sA = strideHeight st
    /\ inputWidth sA = inputWidth st /\ inputHeight sA = inputHeight st
    /\ batchSize sA = n_cols A /\ outSize sA = (n_cols A * k)%N
    /\ inSize sA = k
    /\ outputWidth sA = oW /\ outputHeight sA = oH
    /\ inputTemp sA
       = cube_view (mem A) (inputWidth st) (inputHeight st) (n_cols A * k).
Proof.
  intros Hwf Hr HF.
  destruct (@Forward_inv st A sA oA HF)
    as (oW & oH & Hd & EW & EH & kW & kH & sW & sH & _ & iW & iH & Eb & En
        & Ei & EoW & EoH & ET & _ & Hn & _).
  cbv zeta in Hd, En, Ei, ET.
  set (e := (inputWidth st * inputHeight st)%N) in *.
  set (a := n_cols A) in *.
  assert (He : e <> 0%N).
  { intros E0. apply Hd. unfold size_mul at 2. fold e. rewrite E0.
    reflexivity. }
  assert (Ha : a <> 0%N) by (intros E0; apply Hd; rewrite E0; apply size_mul_0_r).
  assert (Hel : n_elem A = (e * k * a)%N) by (unfold n_elem; now rewrite Hr).
  assert (Hk : (n_elem A
                / size_mul (size_mul (inputWidth st) (inputHeight st)) a = k
                /\ size_mul a k = a * k)%N).
  { destruct (N.eq_dec k 0) as [->|Hk0].
    - rewrite Hel, N.mul_0_r, N.mul_0_l, N.Div0.div_0_l. split; [reflexivity|].
      unfold size_mul. now rewrite N.mul_0_r.
    - assert (Hnw : (e * a < SIZE_MOD)%N) by nia.
      unfold e in Hnw. rewrite (divisor_exact _ _ _ Hnw). fold e. split.
      + rewrite Hel. replace (e * k * a)%N with (k * (e * a))%N by lia.
        apply N.div_mul. lia.
      + apply size_mul_small. nia. }
  destruct Hk as [Hq Hs]. rewrite Hq in En, Ei, ET. rewrite Hs in En, ET.
  exists oW, oH. repeat split; assumption.
Qed.

(** X22. The samples of a batch do not influence each other.  [Forward] on
    two batches put side by side returns the two outputs side by side, for
    batches of whole channels (the number of rows is a multiple of
    inputWidth * inputHeight), when the layer can address the joined batch:
    its element count and the divisor inputWidth * inputHeight * batchSize
    fit [size_t]. *)
Theorem Forward_batches_side_by_side (st : State) (A B : mat) (k : N)
    (sA sB : State) (oA oB : mat) :
  wf A -> wf B ->
  n_rows A = (inputWidth st * inputHeight st * k)%N ->
  n_rows B = n_rows A ->
  Forward st A = Some (sA, oA) ->
  Forward st B = Some (sB, oB) ->
  (n_elem (join_rows A B) < SIZE_MOD)%N ->
  (inputWidth st * inputHeight st * n_cols (join_rows A B) < SIZE_MOD)%N ->
  exists sJ,
    Forward st (join_rows A B) = Some (sJ, join_rows oA oB)
    /\ batchSize sJ = (batchSize sA + batchSize sB)%N.
Proof.
  intros HwA HwB HrA HrB HFA HFB HnJ HnwJ.
  assert (HrB' : n_rows B = (inputWidth st * inputHeight st * k)%N)
    by congruence.
  destruct (@Forward_channels st A k sA oA HwA HrA HFA)
    as (oW & oH & He & Ha & EW & EH & kWA & kHA & sWA & sHA & _ & _ & EbA
        & EnA & EiA & EoWA & EoHA & ETA).
  destruct (@Forward_channels st B k sB oB HwB HrB' HFB)
    as (oW' & oH' & _ & Hb & EW' & EH' & kWB & kHB & sWB & sHB & _ & _ & EbB
        & EnB & EiB & EoWB & EoHB & ETB).
  rewrite EW in EW'. injection EW' as <-.
  rewrite EH in EH'. injection EH' as <-.
  set (e := (inputWidth st * inputHeight st)%N) in *.
  set (a := n_cols A) in *. set (b := n_cols B) in *.
  set (J := join_rows A B) in *.
  assert (HwJ : wf J).
  { unfold wf, J, join_rows, n_elem in *. cbn [mem n_rows n_cols].
    rewrite length_app, HwA, HwB, HrB. lia. }
  assert (HrJ : n_rows J = (e * k)%N) by exact HrA.
  assert (HdJ : (e * n_cols J)%N <> 0%N)
    by (cbn [J join_rows n_cols]; fold a b; nia).
  destruct (@Forward_dims st J oW oH HwJ HnJ HdJ HnwJ EW EH)
    as (sJ & oJ & HFJ & _).
  destruct (@Forward_channels st J k sJ oJ HwJ HrJ HFJ)
    as (oW' & oH' & _ & _ & EW' & EH' & kWJ & kHJ & sWJ & sHJ & _ & _ & EbJ
        & EnJ & EiJ & EoWJ & EoHJ & ETJ).
  rewrite EW in EW'. injection EW' as <-.
  rewrite EH in EH'. injection EH' as <-.
  fold e in ETJ.
  cbn [J join_rows n_cols mem] in EbJ, EnJ, ETJ. fold a b in EbJ, EnJ, ETJ.
  assert (PA : outSize sA = (batchSize sA * inSize sA)%N)
    by now rewrite EnA, EbA, EiA.
  assert (PB : outSize sB = (batchSize sB * inSize sB)%N)
    by now rewrite EnB, EbB, EiB.
  assert (PJ : outSize sJ = (batchSize sJ * inSize sJ)%N)
    by now rewrite EnJ, EbJ, EiJ.
  destruct (@Forward_mem st A sA oA HFA PA) as (RA & CA & MA).
  destruct (@Forward_mem st B sB oB HFB PB) as (RB & CB & MB).
  destruct (@Forward_mem st J sJ oJ HFJ PJ) as (RJ & CJ & MJ).
  exists sJ. split; [|now rewrite EbJ, EbA, EbB].
  rewrite HFJ. f_equal. f_equal. apply mat_ext.
  - cbn [join_rows n_rows]. rewrite RJ, RA, EoWJ, EoHJ, EoWA, EoHA, EiJ, EiA.
    reflexivity.
  - cbn [join_rows n_cols]. now rewrite CJ, CA, CB, EbJ, EbA, EbB.
  - cbn [join_rows mem]. rewrite MJ, MA, MB.
    rewrite EoWJ, EoHJ, EoWA, EoHA, EoWB, EoHB, EnJ, EnA, EnB, ETJ, ETA, ETB.
    fold e a b.
    assert (LA : length (mem A) = N.to_nat (inputWidth st * inputHeight st
                                            * (a * k))).
    { unfold wf, n_elem in HwA. fold a in HwA. rewrite HwA, HrA.
      fold e. lia. }
    assert (LB : length (mem B) = N.to_nat (inputWidth st * inputHeight st
                                            * (b * k))).
    { unfold wf, n_elem in HwB. fold b in HwB. rewrite HwB, HrB, HrA.
      fold e. lia. }
    replace ((a + b) * k)%N with (a * k + b * k)%N by lia.
    rewrite range_add, flat_map_app. f_equal.
    + apply flat_map_ext_range. intros s Hs.
      rewrite (@Pooling_same_kernel st sJ), (@Pooling_same_kernel st sA)
        by assumption.
      rewrite (@slice_join_l (mem A) (mem B) _ _ (a * k)) by (fold e; lia).
      reflexivity.
    + rewrite flat_map_concat_map, map_map, <- flat_map_concat_map.
      apply flat_map_ext_range. intros t Ht.
      rewrite (@Pooling_same_kernel st sJ), (@Pooling_same_kernel st sB)
        by assumption.
      rewrite (@slice_join_r (mem A) (mem B) _ _ (a * k) (b * k))
        by assumption.
      reflexivity.
Qed.

Lemma Forward_batches_side_by_side_witness :
  exists sJ,
    Forward pool_2x2_on_2x3 (join_rows sample_6x1 sample_6x1')
    = Some (sJ, join_rows (pooled pool_2x2_on_2x3 sample_6x1)
                          (pooled pool_2x2_on_2x3 sample_6x1'))
    /\ batchSize sJ = 2%N.
Proof.
  destruct (@Forward_batches_side_by_side pool_2x2_on_2x3
              sample_6x1 sample_6x1' 1
              (forwarded pool_2x2_on_2x3 sample_6x1)
              (forwarded pool_2x2_on_2x3 sample_6x1')
              (pooled pool_2x2_on_2x3 sample_6x1)
              (pooled pool_2x2_on_2x3 sample_6x1'))
    as (sJ & E & Hb).
  - reflexivity.
  - reflexivity.
  - reflexivity.
  - reflexivity.
  - apply Forward_result. intros E. vm_compute in E. discriminate E.
  - apply Forward_result. intros E. vm_compute in E. discriminate E.
  - reflexivity.
  - reflexivity.
  - exists sJ. split; [exact E|]. rewrite Hb. reflexivity.
Defined.

(** X23. The same holds for the gradients.  After a [Forward] on two
    batches put side by side, [Backward] on two output gradients put side by
    side returns side by side the input gradients that the two batches give
    on their own. *)
Theorem Backward_batches_side_by_side (st : State) (A B : mat) (k : N)
    (sA sB sJ : State) (oA oB oJ gyA gyB x : mat) (sA' sB' : State)
    (gA gB : mat) :
  wf A -> wf B ->
  n_rows A = (inputWidth st * inputHeight st * k)%N ->
  n_rows B = n_rows A ->
  Forward st A = Some (sA, oA) ->
  Forward st B = Some (sB, oB) ->
  Forward st (join_rows A B) = Some (sJ, oJ) ->
  wf gyA -> n_rows gyA = n_rows oA -> n_cols gyA = n_cols oA ->
  wf gyB -> n_rows gyB = n_rows oB -> n_cols gyB = n_cols oB ->
  Backward sA x gyA = Some (sA', gA) ->
  Backward sB x gyB = Some (sB', gB) ->
  exists sJ',
    Backward sJ x (join_rows gyA gyB) = Some (sJ', join_rows gA gB).
Proof.
  intros HwA HwB HrA HrB HFA HFB HFJ HwyA RyA CyA HwyB RyB CyB HBA HBB.
  assert (HrB' : n_rows B = (inputWidth st * inputHeight st * k)%N)
    by congruence.
  destruct (@Forward_channels st A k sA oA HwA HrA HFA)
    as (oW & oH & He & Ha & EW & EH & kWA & kHA & sWA & sHA & EiWA & EiHA
        & EbA & EnA & EiA & EoWA & EoHA & ETA).
  destruct (@Forward_channels st B k sB oB HwB HrB' HFB)
    as (oW' & oH' & _ & Hb & EW' & EH' & kWB & kHB & sWB & sHB & EiWB & EiHB
        & EbB & EnB & EiB & EoWB & EoHB & ETB).
  rewrite EW in EW'. injection EW' as <-.
  rewrite EH in EH'. injection EH' as <-.
  set (e := (inputWidth st * inputHeight st)%N) in *.
  set (a := n_cols A) in *. set (b := n_cols B) in *.
  set (J := join_rows A B) in *.
  assert (HwJ : wf J).
  { unfold wf, J, join_rows, n_elem in *. cbn [mem n_rows n_cols].
    rewrite length_app, HwA, HwB, HrB. lia. }
  assert (HrJ : n_rows J = (e * k)%N) by exact HrA.
  destruct (@Forward_channels st J k sJ oJ HwJ HrJ HFJ)
    as (oW' & oH' & _ & _ & EW' & EH' & kWJ & kHJ & sWJ & sHJ & EiWJ & EiHJ
        & EbJ & EnJ & EiJ & EoWJ & EoHJ & ETJ).
  rewrite EW in EW'. injection EW' as <-.
  rewrite EH in EH'. injection EH' as <-.
  fold e in ETJ.
  cbn [J join_rows n_cols mem] in EbJ, EnJ, ETJ. fold a b in EbJ, EnJ, ETJ.
  assert (PA : outSize sA = (batchSize sA * inSize sA)%N)
    by now rewrite EnA, EbA, EiA.
  assert (PB : outSize sB = (batchSize sB * inSize sB)%N)
    by now rewrite EnB, EbB, EiB.
  assert (PJ : outSize sJ = (batchSize sJ * inSize sJ)%N)
    by now rewrite EnJ, EbJ, EiJ.
  destruct (@Forward_mem st A sA oA HFA PA) as (RA & CA & _).
  destruct (@Forward_mem st B sB oB HFB PB) as (RB & CB & _).
  assert (LyA : length (mem gyA) = N.to_nat (oW * oH * (a * k))).
  { unfold wf, n_elem in HwyA. rewrite HwyA, RyA, CyA, RA, CA, EoWA, EoHA,
      EiA, EbA. lia. }
  assert (LyB : length (mem gyB) = N.to_nat (oW * oH * (b * k))).
  { unfold wf, n_elem in HwyB. rewrite HwyB, RyB, CyB, RB, CB, EoWB, EoHB,
      EiB, EbB. lia. }
  destruct (@Backward_ready sA x gyA (@Forward_ready st A sA oA HFA PA))
    as (sA2 & gA2 & HBA2 & GRA & GCA & GMA);
    [rewrite EoWA, EoHA, EnA; lia|].
  rewrite HBA in HBA2. injection HBA2 as <- <-.
  destruct (@Backward_ready sB x gyB (@Forward_ready st B sB oB HFB PB))
    as (sB2 & gB2 & HBB2 & GRB & GCB & GMB);
    [rewrite EoWB, EoHB, EnB; lia|].
  rewrite HBB in HBB2. injection HBB2 as <- <-.
  destruct (@Backward_ready sJ x (join_rows gyA gyB)
              (@Forward_ready st J sJ oJ HFJ PJ))
    as (sJ2 & gJ & HBJ & GRJ & GCJ & GMJ);
    [rewrite EoWJ, EoHJ, EnJ; cbn [join_rows mem]; rewrite length_app; lia|].
  exists sJ2. rewrite HBJ. f_equal. f_equal. apply mat_ext.
  - cbn [join_rows n_rows]. rewrite GRJ, GRA, EiWJ, EiHJ, EiWA, EiHA, EiJ, EiA.
    reflexivity.
  - cbn [join_rows n_cols]. now rewrite GCJ, GCA, GCB, EbJ, EbA, EbB.
  - cbn [join_rows mem]. rewrite GMJ, GMA, GMB.
    rewrite EiWJ, EiHJ, EiWA, EiHA, EiWB, EiHB, EoWJ, EoHJ, EoWA, EoHA,
      EoWB, EoHB, EnJ, EnA, EnB, ETJ, ETA, ETB.
    assert (LA : length (mem A) = N.to_nat (inputWidth st * inputHeight st
                                            * (a * k))).
    { unfold wf, n_elem in HwA. fold a in HwA. rewrite HwA, HrA.
      fold e. lia. }
    assert (LB : length (mem B) = N.to_nat (inputWidth st * inputHeight st
                                            * (b * k))).
    { unfold wf, n_elem in HwB. fold b in HwB. rewrite HwB, HrB, HrA.
      fold e. lia. }
    replace ((a + b) * k)%N with (a * k + b * k)%N by lia.
    rewrite range_add, flat_map_app. f_equal.
    + apply flat_map_ext_range. intros s Hs.
      rewrite (@Unpooling_same_kernel st sJ), (@Unpooling_same_kernel st sA)
        by assumption.
      rewrite (@slice_join_l (mem A) (mem B) _ _ (a * k)) by (fold e; lia).
      rewrite (@slice_join_l (mem gyA) (mem gyB) _ _ (a * k)) by lia.
      reflexivity.
    + rewrite flat_map_concat_map, map_map, <- flat_map_concat_map.
      apply flat_map_ext_range. intros t Ht.
      rewrite (@Unpooling_same_kernel st sJ), (@Unpooling_same_kernel st sB)
        by assumption.
      rewrite (@slice_join_r (mem A) (mem B) _ _ (a * k) (b * k))
        by assumption.
      rewrite (@slice_join_r (mem gyA) (mem gyB) _ _ (a * k) (b * k))
        by assumption.
      reflexivity.
Qed.

Lemma Backward_batches_side_by_side_witness :
  exists sJ',
    Backward (forwarded pool_2x2_on_2x3 (join_rows sample_6x1 sample_6x1'))
             sample_6x1 (join_rows grad_2x1 grad_2x1')
    = Some (sJ',
            join_rows
              (unpooled (forwarded pool_2x2_on_2x3 sample_6x1)
                        sample_6x1 grad_2x1)
              (unpooled (forwarded pool_2x2_on_2x3 sample_6x1')
                        sample_6x1 grad_2x1')).
Proof.
  apply (@Backward_batches_side_by_side pool_2x2_on_2x3
           sample_6x1 sample_6x1' 1
           (forwarded pool_2x2_on_2x3 sample_6x1)
           (forwarded pool_2x2_on_2x3 sample_6x1')
           (forwarded pool_2x2_on_2x3 (join_rows sample_6x1 sample_6x1'))
           (pooled pool_2x2_on_2x3 sample_6x1)
           (pooled pool_2x2_on_2x3 sample_6x1')
           (pooled pool_2x2_on_2x3 (join_rows sample_6x1 sample_6x1'))
           grad_2x1 grad_2x1' sample_6x1
           (backwarded (forwarded pool_2x2_on_2x3 sample_6x1)
                       sample_6x1 grad_2x1)
           (backwarded (forwarded pool_2x2_on_2x3 sample_6x1')
                       sample_6x1 grad_2x1')).
  - reflexivity.
  - reflexivity.
  - reflexivity.
  - reflexivity.
  - apply Forward_result. intros E. vm_compute in E. discriminate E.
  - apply Forward_result. intros E. vm_compute in E. discriminate E.
  - apply Forward_result. intros E. vm_compute in E. discriminate E.
  - reflexivity.
  - vm_compute. reflexivity.
  - vm_compute. reflexivity.
  - reflexivity.
  - vm_compute. reflexivity.
  - vm_compute. reflexivity.
  - apply Backward_result. intros E. vm_compute in E. discriminate E.
  - apply Backward_result. intros E. vm_compute in E. discriminate E.
Defined.

End MeanPoolingBatch.

(* ===================================================================== *)
(** * RecurrentAttention: what the methods keep *)
(* ===================================================================== *)

Module RecurrentAttentionKeeps.

Import ArmaFacts RecurrentAttention RecurrentAttentionSteps
  RecurrentAttentionBackward RecurrentAttentionLife.
Local Open Scope ra_scope.

Section Keeps.

Context {R A : Type} `{LR : Layer R} `{LA : Layer A}.

#[local] Abbreviation State := (State R A).
#[local] Abbreviation M := (@M R A).

Variable P : State -> Prop.

Lemma keeps_ret {T : Type} (x : T) : keeps P (ret x).
Proof. intros s Hs. exact Hs. Qed.

Lemma keeps_lift {T : Type} (o : outcome T) : keeps P (lift o).
Proof. intros s Hs. exact Hs. Qed.

Lemma keeps_get_state : keeps P get_state.
Proof. intros s Hs. exact Hs. Qed.

Lemma keeps_modify (f : State -> State) :
  (forall s, P s -> P (f s)) -> keeps P (modify f).
Proof. intros H s Hs. now apply H. Qed.

Lemma keeps_bind {T U : Type} (m : M T) (k : T -> M U) :
  keeps P m -> (forall x, keeps P (k x)) -> keeps P (bind m k).
Proof.
  intros Hm Hk s Hs. unfold bind. specialize (Hm s Hs).
  destruct (m s) as [[x|e] s']; cbn [snd] in *.
  - now apply Hk.
  - exact Hm.
Qed.

Lemma keeps_when (b : bool) (m : M unit) : keeps P m -> keeps P (when b m).
Proof. intros H. destruct b; [exact H | apply keeps_ret]. Qed.

Lemma keeps_for_each (ls : list N) (body : N -> M unit) :
  (forall l, keeps P (body l)) -> keeps P (for_each ls body).
Proof.
  intros H. induction ls as [|l ls IH]; cbn [for_each].
  - apply keeps_ret.
  - apply keeps_bind; [apply H | intros _; exact IH].
Qed.

Lemma keeps_while (fuel : nat) (cond : State -> bool) (body : M unit) :
  keeps P body -> keeps P (while fuel cond body).
Proof.
  intros H. induction fuel as [|fuel IH]; intros s Hs; cbn [while];
    destruct (cond s); try exact Hs.
  apply (@keeps_bind _ _ body (fun _ => while fuel cond body));
    [exact H | intros _; exact IH | exact Hs].
Qed.

Lemma keeps_BackwardLoop (gy : mat) :
  (forall g, keeps P (BackwardStep gy g)) ->
  (forall s, P s -> P (set_backwardStep (backwardStep s + 1) s)) ->
  forall fuel g, keeps P (BackwardLoop fuel gy g).
Proof.
  intros Hstep Hinc. induction fuel as [|fuel IH]; intros g s Hs;
    cbn [BackwardLoop]; destruct (backwardStep s <? rho s)%N; try exact Hs.
  apply (@keeps_bind _ _ (BackwardStep gy g)
           (fun g' => modify (fun s => set_backwardStep (backwardStep s + 1) s)
                      ;; BackwardLoop fuel gy g')); [apply Hstep| |exact Hs].
  intros g'. apply keeps_bind; [now apply keeps_modify|].
  intros _. apply IH.
Qed.

(** The same for a property that the body keeps only under the condition
    of the loop. *)
Lemma keeps_while_guarded (fuel : nat) (cond : State -> bool)
    (body : M unit) :
  (forall s, P s -> cond s = true -> P (snd (body s))) ->
  keeps P (while fuel cond body).
Proof.
  intros H. induction fuel as [|fuel IH]; intros s Hs; cbn [while];
    destruct (cond s) eqn:Ec; try exact Hs.
  unfold bind. specialize (H s Hs Ec).
  destruct (body s) as [[x|e] s1]; cbn [snd] in *.
  - now apply IH.
  - exact H.
Qed.

Lemma keeps_BackwardLoop_guarded (gy : mat) :
  (forall g s, P s -> (backwardStep s <? rho s)%N = true ->
     match BackwardStep gy g s with
     | (Ok _, s1) => P (set_backwardStep (backwardStep s1 + 1) s1)
     | (Throw _, s1) => P s1
     end) ->
  forall fuel g, keeps P (BackwardLoop fuel gy g).
Proof.
  intros H. induction fuel as [|fuel IH]; intros g s Hs;
    cbn [BackwardLoop]; destruct (backwardStep s <? rho s)%N eqn:Ec;
    try exact Hs.
  unfold bind at 1. specialize (H g s Hs Ec).
  destruct (BackwardStep gy g s) as [[g1|e] s1]; cbn [snd] in *.
  - unfold bind at 1. unfold modify at 1. now apply IH.
  - exact H.
Qed.

Lemma keeps_back : keeps P back.
Proof.
  intros s Hs. unfold back. now destruct (moduleOutputParameter s).
Qed.

Lemma keeps_network_OutputParameter (l : N) :
  keeps P (network_OutputParameter l).
Proof.
  intros s Hs. unfold network_OutputParameter.
  destruct (l =? 0)%N; [exact Hs|]. now destruct (l =? 1)%N.
Qed.

Lemma keeps_network_load (l : N) (m : mat) :
  (forall s v, P s -> P (set_rnnModule v s)) ->
  (forall s v, P s -> P (set_actionModule v s)) ->
  keeps P (network_load l m).
Proof.
  intros Hr Ha s Hs. unfold network_load.
  destruct (l =? 0)%N; [now apply Hr|].
  destruct (l =? 1)%N; [now apply Ha|exact Hs].
Qed.

Lemma keeps_pop_back :
  (forall s v, P s -> P (set_moduleOutputParameter v s)) -> keeps P pop_back.
Proof.
  intros H s Hs. unfold pop_back.
  destruct (moduleOutputParameter s) eqn:E; [exact Hs|]. now apply H.
Qed.

End Keeps.

(** The structure of a method is walked down to its writes. *)
Ltac keeps_walk :=
  repeat match goal with
  | |- keeps _ _ => solve [auto 1]
  | |- keeps _ (bind _ _) => apply keeps_bind
  | |- keeps _ (ret _) => apply keeps_ret
  | |- keeps _ (lift _) => apply keeps_lift
  | |- keeps _ get_state => apply keeps_get_state
  | |- keeps _ back => apply keeps_back
  | |- keeps _ (network_OutputParameter _) => apply keeps_network_OutputParameter
  | |- keeps _ (when _ _) => apply keeps_when
  | |- keeps _ (for_each _ _) => apply keeps_for_each
  | |- keeps _ (while _ _ _) => apply keeps_while
  | |- keeps _ (if ?c then _ else _) => destruct c
  | |- keeps _ (modify _) => apply keeps_modify
  | |- keeps _ (network_load _ _) => apply keeps_network_load
  | |- keeps _ pop_back => apply keeps_pop_back
  | |- forall _, _ => intro
  end.

(** A write of a member that the property does not read. *)
Ltac keeps_write :=
  repeat match goal with
  | |- context [let (_, _) := ?x in _] => destruct x
  end;
  try assumption.

Section Members.

Context {R A : Type} `{LR : Layer R} `{LA : Layer A}.

#[local] Abbreviation State := (State R A).
#[local] Abbreviation M := (@M R A).

(** *** The unroll count *)

Lemma Forward_keeps_rho (input : mat) (v : N) :
  keeps (fun s : State => rho s = v) (Forward input).
Proof.
  unfold Forward, forward_body, ForwardStep, action_Forward, rnn_Forward,
    push_back.
  keeps_walk; keeps_write.
Qed.

Lemma Backward_keeps_rho (input gy g : mat) (v : N) :
  keeps (fun s : State => rho s = v) (Backward input gy g).
Proof.
  unfold Backward. keeps_walk; keeps_write.
  apply keeps_BackwardLoop; [|intros; assumption].
  unfold BackwardStep, restore_snapshots, action_Backward, rnn_Backward,
    input_gradient, IntermediateGradient.
  keeps_walk; keeps_write.
Qed.

(** *** The snapshot stack *)

Lemma push_pair_paired :
  keeps (@stack_paired R A)
        (for_each (range network_size)
           (fun l => m <- network_OutputParameter l ;; push_back m)).
Proof.
  intros s Hs. change (range network_size) with [0%N; 1%N].
  unfold stack_paired in *. cbn. rewrite !length_app. cbn [length].
  replace (length (moduleOutputParameter s) + 1 + 1)%nat
    with (S (S (length (moduleOutputParameter s)))) by lia.
  exact Hs.
Qed.

Lemma paired_split (l : list mat) :
  Nat.even (length l) = true -> l <> [] ->
  exists base r a, l = base ++ [r; a].
Proof.
  intros He Hn.
  destruct (@exists_last _ l Hn) as (l1 & a & ->).
  destruct l1 as [|x l1] using rev_ind.
  - discriminate He.
  - exists l1, x, a. now rewrite <- app_assoc.
Qed.

Lemma restore_snapshots_paired :
  keeps (@stack_paired R A) restore_snapshots.
Proof.
  intros s Hs. unfold stack_paired in *.
  destruct (moduleOutputParameter s) as [|x l] eqn:E.
  - unfold restore_snapshots. change (range network_size) with [0%N; 1%N].
    cbn [for_each]. unfold bind at 1. unfold bind at 1. unfold back.
    rewrite E. cbn [snd]. now rewrite E.
  - rewrite <- E in Hs.
    destruct (@paired_split (moduleOutputParameter s) Hs) as (base & r & a & Eb);
      [rewrite E; discriminate|].
    destruct (@restore_snapshots_spec _ _ s base r a Eb)
      as (s' & -> & Es & _).
    cbn [snd]. rewrite Es. rewrite Eb, length_app in Hs. cbn [length] in Hs.
    replace (length base + 2)%nat with (S (S (length base))) in Hs by lia.
    exact Hs.
Qed.

Lemma Forward_keeps_paired (input : mat) :
  keeps (@stack_paired R A) (Forward input).
Proof.
  pose proof push_pair_paired.
  unfold Forward, forward_body, ForwardStep, action_Forward, rnn_Forward.
  keeps_walk; keeps_write.
Qed.

Lemma Backward_keeps_paired (input gy g : mat) :
  keeps (@stack_paired R A) (Backward input gy g).
Proof.
  pose proof restore_snapshots_paired.
  unfold Backward. keeps_walk; keeps_write.
  apply keeps_BackwardLoop; [|intros; assumption].
  unfold BackwardStep, action_Backward, rnn_Backward,
    input_gradient, IntermediateGradient.
  keeps_walk; keeps_write.
Qed.

Lemma Gradient_keeps_paired (input error gradient' : mat) :
  keeps (@stack_paired R A) (Gradient input error gradient').
Proof. unfold Gradient. keeps_walk; keeps_write. Qed.

(** *** The initial action input *)

Lemma zeros_is_zeros (r c : N) : is_zeros (zeros r c).
Proof. now exists r, c. Qed.

Lemma Forward_keeps_initialInput (input : mat) :
  keeps (fun s : State => is_zeros (initialInput s)) (Forward input).
Proof.
  unfold Forward, forward_body, ForwardStep, action_Forward, rnn_Forward,
    push_back.
  keeps_walk; keeps_write. apply zeros_is_zeros.
Qed.

Lemma Backward_keeps_initialInput (input gy g : mat) :
  keeps (fun s : State => is_zeros (initialInput s)) (Backward input gy g).
Proof.
  unfold Backward. keeps_walk; keeps_write.
  apply keeps_BackwardLoop; [|intros; assumption].
  unfold BackwardStep, restore_snapshots, action_Backward, rnn_Backward,
    input_gradient, IntermediateGradient.
  keeps_walk; keeps_write.
Qed.

Lemma Gradient_keeps_initialInput (input error gradient' : mat) :
  keeps (fun s : State => is_zeros (initialInput s))
        (Gradient input error gradient').
Proof. unfold Gradient. keeps_walk; keeps_write. Qed.

(** *** The error of the action module *)

Lemma action_errors_app (h1 h2 : list event) :
  action_errors (h1 ++ h2) = action_errors h1 ++ action_errors h2.
Proof. apply flat_map_app. Qed.

Lemma action_Forward_zero (x : mat) :
  keeps (@action_error_zero R A) (action_Forward x).
Proof.
  apply keeps_modify. intros s [Ha Hh]. cbv zeta.
  destruct (layer_forward (core (actionModule s)) x) as [c out].
  split; [exact Ha|]. cbn [history log set_actionModule].
  rewrite action_errors_app. cbn. now rewrite app_nil_r.
Qed.

Lemma rnn_Forward_zero (x : mat) :
  keeps (@action_error_zero R A) (rnn_Forward x).
Proof.
  apply keeps_modify. intros s [Ha Hh]. cbv zeta.
  destruct (layer_forward (core (rnnModule s)) x) as [c out].
  split; [exact Ha|]. cbn [history log set_rnnModule].
  rewrite action_errors_app. cbn. now rewrite app_nil_r.
Qed.

Lemma action_Backward_zero (x : mat) :
  keeps (@action_error_zero R A) (action_Backward x).
Proof.
  apply keeps_modify. intros s [Ha Hh]. cbv zeta.
  destruct (layer_backward (core (actionModule s)) x (actionError s))
    as [c d].
  split; [exact Ha|]. cbn [history log set_actionModule set_actionDelta].
  rewrite action_errors_app. apply Forall_app. split; [exact Hh|].
  cbn. now constructor.
Qed.

Lemma rnn_Backward_zero (x : mat) :
  keeps (@action_error_zero R A) (rnn_Backward x).
Proof.
  apply keeps_modify. intros s [Ha Hh]. cbv zeta.
  destruct (layer_backward (core (rnnModule s)) x (recurrentError s))
    as [c d].
  split; [exact Ha|]. cbn [history log set_rnnModule set_rnnDelta].
  rewrite action_errors_app. cbn. now rewrite app_nil_r.
Qed.

Lemma Forward_keeps_zero (input : mat) :
  keeps (@action_error_zero R A) (Forward input).
Proof.
  pose proof action_Forward_zero. pose proof rnn_Forward_zero.
  unfold Forward, forward_body, ForwardStep, push_back.
  keeps_walk; keeps_write.
Qed.

Lemma Backward_keeps_zero (input gy g : mat) :
  keeps (@action_error_zero R A) (Backward input gy g).
Proof.
  pose proof action_Backward_zero. pose proof rnn_Backward_zero.
  unfold Backward. keeps_walk; keeps_write.
  - match goal with H : action_error_zero _ |- _ => destruct H as [_ Hh] end.
    split; [apply zeros_is_zeros | exact Hh].
  - apply keeps_BackwardLoop; [|intros; assumption].
    unfold BackwardStep, restore_snapshots, input_gradient,
      IntermediateGradient.
    keeps_walk; keeps_write.
Qed.

Lemma Gradient_keeps_zero (input error gradient' : mat) :
  keeps (@action_error_zero R A) (Gradient input error gradient').
Proof. unfold Gradient. keeps_walk; keeps_write. Qed.


End Members.

(** *** The cursors *)

Section Cursors.

Context {R A : Type} `{LR : Layer R} `{LA : Layer A}.

#[local] Abbreviation State := (State R A).

Lemma ForwardStep_keeps_cursors (input : mat) (v : N * N * N) :
  keeps (fun s : State => (forwardStep s, backwardStep s, rho s) = v)
        (ForwardStep input).
Proof.
  unfold ForwardStep, action_Forward, rnn_Forward, push_back.
  keeps_walk; keeps_write.
Qed.

Lemma BackwardStep_keeps_cursors (gy g : mat) (v : N * N * N) :
  keeps (fun s : State => (forwardStep s, backwardStep s, rho s) = v)
        (BackwardStep gy g).
Proof.
  unfold BackwardStep, restore_snapshots, action_Backward, rnn_Backward,
    input_gradient, IntermediateGradient.
  keeps_walk; keeps_write.
Qed.

Lemma forward_loop_bounded (input : mat) (fuel : nat) :
  keeps (fun s : State => (forwardStep s <= rho s)%N)
        (while fuel forward_cond (forward_body input)).
Proof.
  apply keeps_while_guarded. intros s Hs Ec.
  unfold forward_cond in Ec. apply N.ltb_lt in Ec.
  unfold forward_body, bind.
  pose proof (@ForwardStep_keeps_cursors input _ s eq_refl) as Hk.
  destruct (ForwardStep input s) as [[[]|e] s1]; cbn [snd] in *;
    injection Hk as Hf Hb Hr.
  - unfold modify. cbn [snd forwardStep rho set_forwardStep]. lia.
  - lia.
Qed.

Lemma backward_loop_bounded (gy : mat) (fuel : nat) (g : mat) :
  keeps (fun s : State => (backwardStep s <= rho s)%N)
        (BackwardLoop fuel gy g).
Proof.
  apply keeps_BackwardLoop_guarded. clear g. intros g s Hs Ec.
  apply N.ltb_lt in Ec.
  pose proof (@BackwardStep_keeps_cursors gy g _ s eq_refl) as Hk.
  destruct (BackwardStep gy g s) as [[g1|e] s1]; cbn [snd] in *;
    injection Hk as Hf Hb Hr.
  - cbn [backwardStep rho set_backwardStep]. lia.
  - lia.
Qed.

Lemma Forward_keeps_backwardStep_bound (input : mat) :
  keeps (fun s : State => (backwardStep s <= rho s)%N) (Forward input).
Proof.
  unfold Forward, forward_body, ForwardStep, action_Forward, rnn_Forward,
    push_back.
  keeps_walk; keeps_write.
  cbn [backwardStep rho set_backwardStep]. lia.
Qed.

Lemma Forward_keeps_forwardStep_bound (input : mat) :
  keeps (fun s : State => (forwardStep s <= rho s)%N) (Forward input).
Proof.
  intros s _. rewrite Forward_unfold.
  set (s0 := Forward_entry input s).
  assert (H0 : (forwardStep s0 <= rho s0)%N).
  { unfold s0, Forward_entry. cbn [forwardStep set_forwardStep]. lia. }
  pose proof (@forward_loop_bounded input (N.to_nat (rho s0)) s0 H0) as Hw.
  destruct (while _ _ _ s0) as [[[]|e] s1]; cbn [snd] in *.
  - cbn [forwardStep rho set_backwardStep set_forwardStep]. lia.
  - exact Hw.
Qed.

Lemma Backward_keeps_forwardStep_bound (input gy g : mat) :
  keeps (fun s : State => (forwardStep s <= rho s)%N) (Backward input gy g).
Proof.
  unfold Backward. keeps_walk; keeps_write.
  apply keeps_BackwardLoop; [|intros; assumption].
  unfold BackwardStep, restore_snapshots, action_Backward, rnn_Backward,
    input_gradient, IntermediateGradient.
  keeps_walk; keeps_write.
Qed.

Lemma Backward_keeps_backwardStep_bound (input gy g : mat) :
  keeps (fun s : State => (backwardStep s <= rho s)%N) (Backward input gy g).
Proof.
  intros s Hs. rewrite Backward_unfold.
  destruct (Backward_entry_frame s) as (Erho & Eb & _).
  apply backward_loop_bounded. now rewrite Erho, Eb.
Qed.

Lemma Gradient_keeps_cursors (input error gradient' : mat) (v : N * N * N) :
  keeps (fun s : State => (forwardStep s, backwardStep s, rho s) = v)
        (Gradient input error gradient').
Proof. unfold Gradient. keeps_walk; keeps_write. Qed.

End Cursors.

End RecurrentAttentionKeeps.

(* ===================================================================== *)
(** * RecurrentAttention: failures and idle calls *)
(* ===================================================================== *)

Module RecurrentAttentionEdges.

Import ArmaFacts RecurrentAttention RecurrentAttentionSteps
  RecurrentAttentionBackward RecurrentAttentionLife RecurrentAttentionKeeps.
Local Open Scope ra_scope.

Section Edges.

Context {R A : Type} `{LR : Layer R} `{LA : Layer A}.

#[local] Abbreviation State := (State R A).
#[local] Abbreviation M := (@M R A).

(** ** The glimpse *)

Lemma glimpse_wide_input (input aout : mat) :
  n_cols input <> 1%N -> glimpse input aout = Throw incompatible_dimensions.
Proof.
  intros Hc. unfold glimpse, set_col. cbn [n_cols n_rows zeros].
  change (2 <=? 0)%N with false. cbv iota.
  apply N.eqb_neq in Hc. rewrite Hc, andb_false_r. reflexivity.
Qed.

Lemma set_col_input (input : mat) :
  n_cols input = 1%N ->
  exists g, set_col (zeros (n_elem input) 2) 0 input = Ok g
            /\ n_rows g = n_elem input /\ n_cols g = 2%N.
Proof.
  intros Hc. unfold set_col. cbn [n_cols n_rows zeros].
  change (2 <=? 0)%N with false. cbv iota.
  assert (Hr : n_rows input = n_elem input)
    by (unfold n_elem; rewrite Hc; lia).
  rewrite Hc, Hr, N.eqb_refl. cbn [andb negb N.eqb Pos.eqb].
  eexists. split; [reflexivity|]. split; reflexivity.
Qed.

Lemma glimpse_misfit (input aout : mat) :
  n_cols input = 1%N -> (n_elem input < SIZE_MOD)%N ->
  (n_elem aout <= SIZE_MOD)%N ->
  (n_elem aout = 0 \/ n_elem input < n_elem aout)%N ->
  glimpse input aout = Throw index_out_of_bounds.
Proof.
  intros Hc Hn Ha Hbad. unfold glimpse.
  destruct (@set_col_input input Hc) as (g & -> & Hr & Hk).
  unfold set_submat. rewrite Hr, Hk.
  assert (Hs : (n_elem input <=? size_sub (n_elem aout) 1)%N = true).
  { apply N.leb_le. destruct Hbad as [E|Hlt].
    - rewrite E. change (size_sub 0 1) with (SIZE_MOD - 1)%N. lia.
    - rewrite size_sub_1 by lia. lia. }
  rewrite Hs, orb_true_r. reflexivity.
Qed.

(** ** The first step of [Forward] *)

(** A glimpse that cannot be built in the first step ends [Forward]: the
    action module has run once, nothing is pushed, and the cursors are not
    reset. *)
Lemma Forward_first_glimpse_fails (input : mat) (s : State) (e : error) :
  rho s <> 0%N ->
  glimpse input (first_action_output input s) = Throw e ->
  exists s',
    Forward input s = (Throw e, s')
    /\ history s'
       = history s
         ++ [EvForward Action (initialInput s') (first_action_output input s)]
    /\ moduleOutputParameter s' = moduleOutputParameter s
    /\ outputParameter (actionModule s') = first_action_output input s
    /\ rnnModule s' = rnnModule s
    /\ forwardStep s' = 0%N /\ backwardStep s' = backwardStep s.
Proof.
  intros Hrho Hgl. rewrite Forward_unfold.
  unfold first_action_output in *.
  set (s0 := Forward_entry input s) in *.
  assert (F0 : rho s0 = rho s /\ forwardStep s0 = 0%N
               /\ history s0 = history s
               /\ moduleOutputParameter s0 = moduleOutputParameter s
               /\ actionModule s0 = actionModule s
               /\ rnnModule s0 = rnnModule s
               /\ backwardStep s0 = backwardStep s).
  { unfold s0, Forward_entry.
    destruct (is_empty (initialInput s)); cbn; repeat split. }
  destruct F0 as (Frho & Ffs & Fh & Fst & Fa & Fr & Fb).
  destruct (N.to_nat (rho s0)) as [|fuel] eqn:Ef; [lia|].
  cbn [while]. unfold forward_cond. rewrite Ffs.
  replace (0 <? rho s0)%N with true by (symmetry; apply N.ltb_lt; lia).
  unfold bind at 1. unfold forward_body at 1. unfold bind at 1.
  unfold ForwardStep, bind, get_state. rewrite Ffs. cbn [N.eqb].
  unfold action_Forward, modify, lift. rewrite <- Fa in Hgl |- *.
  destruct (layer_forward (core (actionModule s0)) (initialInput s0))
    as [ca aout].
  cbn [snd] in Hgl. cbn [outputParameter actionModule log set_actionModule].
  rewrite Hgl. eexists. split; [reflexivity|].
  cbn [history moduleOutputParameter outputParameter actionModule rnnModule
       forwardStep backwardStep initialInput log set_actionModule snd].
  rewrite Fh, Fst, Fr, Fb, Ffs. repeat split.
Qed.

(** ** The mode and the stack do not reach the computation *)

Lemma ForwardStep_without_snapshots (input : mat) (s : State) :
  ForwardStep input (without_snapshots s)
  = (fst (ForwardStep input s), without_snapshots (snd (ForwardStep input s))).
Proof.
  unfold ForwardStep, bind, get_state.
  cbn [forwardStep initialInput rnnModule without_snapshots set_deterministic
       set_moduleOutputParameter].
  set (ain := if (forwardStep s =? 0)%N then initialInput s
              else outputParameter (rnnModule s)).
  replace ((if (forwardStep s =? 0)%N
            then action_Forward (initialInput s)
            else action_Forward (outputParameter (rnnModule s))) s)
    with (action_Forward ain s)
    by (unfold ain; now destruct (forwardStep s =? 0)%N).
  replace ((if (forwardStep s =? 0)%N
            then action_Forward (initialInput s)
            else action_Forward (outputParameter (rnnModule s)))
             (without_snapshots s))
    with (action_Forward ain (without_snapshots s))
    by (unfold ain; now destruct (forwardStep s =? 0)%N).
  unfold action_Forward, rnn_Forward, modify, lift.
  cbn [actionModule without_snapshots set_deterministic
       set_moduleOutputParameter].
  destruct (layer_forward (core (actionModule s)) ain) as [ca aout].
  cbn [outputParameter actionModule log set_actionModule].
  destruct (glimpse input aout) as [gl|e]; [|reflexivity].
  cbn [rnnModule log set_actionModule without_snapshots set_deterministic
       set_moduleOutputParameter].
  destruct (layer_forward (core (rnnModule s)) gl) as [cr rout].
  cbn [deterministic log set_rnnModule set_actionModule negb when].
  change (range network_size) with [0%N; 1%N].
  destruct (deterministic s); reflexivity.
Qed.

Lemma forward_loop_without_snapshots (input : mat) (fuel : nat) (s : State) :
  while fuel forward_cond (forward_body input) (without_snapshots s)
  = (fst (while fuel forward_cond (forward_body input) s),
     without_snapshots (snd (while fuel forward_cond (forward_body input) s))).
Proof.
  revert s. induction fuel as [|fuel IH]; intros s; cbn [while];
    change (forward_cond (without_snapshots s)) with (forward_cond s);
    destruct (forward_cond s); try reflexivity.
  unfold bind. unfold forward_body at 1 3 5. unfold bind.
  rewrite ForwardStep_without_snapshots.
  destruct (ForwardStep input s) as [[[]|e] s1]; cbn [fst snd];
    [|reflexivity].
  unfold modify.
  change (set_forwardStep (forwardStep (without_snapshots s1) + 1)
            (without_snapshots s1))
    with (without_snapshots (set_forwardStep (forwardStep s1 + 1) s1)).
  apply IH.
Qed.

Lemma Forward_without_snapshots (input : mat) (s : State) :
  Forward input (without_snapshots s)
  = (fst (Forward input s), without_snapshots (snd (Forward input s))).
Proof.
  rewrite !Forward_unfold.
  replace (Forward_entry input (without_snapshots s))
    with (without_snapshots (Forward_entry input s))
    by (unfold Forward_entry;
        change (initialInput (without_snapshots s)) with (initialInput s);
        now destruct (is_empty (initialInput s))).
  set (s0 := Forward_entry input s).
  change (rho (without_snapshots s0)) with (rho s0).
  rewrite forward_loop_without_snapshots.
  destruct (while (N.to_nat (rho s0)) forward_cond (forward_body input) s0)
    as [[[]|e] s1]; reflexivity.
Qed.

(** ** The loop of [Backward] *)

(** The loop returns only in a state where its condition fails. *)
Lemma BackwardLoop_exit (gy : mat) (fuel : nat) (g g' : mat) (s s' : State) :
  BackwardLoop fuel gy g s = (Ok g', s') -> backward_cond s' = false.
Proof.
  revert g s. induction fuel as [|fuel IH]; intros g s; cbn [BackwardLoop];
    destruct (backwardStep s <? rho s)%N eqn:Ec;
    try (intros E; injection E as <- <-; exact Ec);
    try discriminate.
  unfold bind at 1.
  destruct (BackwardStep gy g s) as [[g1|e] s1]; [|discriminate].
  unfold bind at 1. unfold modify at 1. apply IH.
Qed.

Lemma BackwardLoop_idle (gy g : mat) (fuel : nat) (s : State) :
  backward_cond s = false -> BackwardLoop fuel gy g s = (Ok g, s).
Proof.
  unfold backward_cond. intros H.
  destruct fuel; cbn [BackwardLoop]; now rewrite H.
Qed.

Lemma Backward_entry_idle (s : State) :
  backwardStep s <> 0%N -> Backward_entry s = s.
Proof.
  intros H. apply N.eqb_neq in H. unfold Backward_entry.
  rewrite H, andb_false_r. now rewrite H.
Qed.

(** ** The snapshot stack, too short *)

Lemma restore_snapshots_underflow (s : State) :
  (length (moduleOutputParameter s) < 2)%nat ->
  exists s',
    restore_snapshots s = (Throw undefined_behaviour, s')
    /\ history s' = history s /\ moduleOutputParameter s' = []
    /\ backwardStep s' = backwardStep s /\ rho s' = rho s
    /\ rnnModule s' = rnnModule s
    /\ core (actionModule s') = core (actionModule s).
Proof.
  intros Hlen. unfold restore_snapshots.
  change (range network_size) with [0%N; 1%N]. cbn [for_each].
  change (size_sub (size_sub network_size 1) 0) with 1%N.
  change (size_sub (size_sub network_size 1) 1) with 0%N.
  destruct (moduleOutputParameter s) as [|x [|y l]] eqn:E;
    [| |cbn [length] in Hlen; lia].
  - unfold bind at 1. unfold bind at 1. unfold back. rewrite E.
    exists s. repeat split. exact E.
  - unfold bind at 1. unfold bind at 1. unfold back at 1. rewrite E.
    unfold bind at 1. unfold network_load at 1. cbn [N.eqb Pos.eqb last].
    unfold pop_back at 1.
    cbn [moduleOutputParameter set_actionModule]. rewrite E.
    cbn [removelast].
    unfold bind at 1. unfold bind at 1. unfold back.
    cbn [moduleOutputParameter set_moduleOutputParameter].
    eexists. split; [reflexivity|]. cbn. repeat split.
Qed.

(** The first iteration of [Backward] on such a stack. *)
Lemma Backward_underflow (input gy g : mat) (s : State) :
  rho s <> 0%N -> backwardStep s = 0%N ->
  (length (moduleOutputParameter s) < 2)%nat ->
  exists s',
    Backward input gy g s = (Throw undefined_behaviour, s')
    /\ history s' = history s
    /\ moduleOutputParameter s' = []
    /\ backwardStep s' = 0%N /\ rho s' = rho s.
Proof.
  intros Hrho Hb Hlen. rewrite Backward_unfold.
  destruct (Backward_entry_frame s) as (Erho & Eb & Est & Eh & _).
  set (s0 := Backward_entry s) in *.
  destruct (N.to_nat (rho s0)) as [|fuel] eqn:Ef; [lia|].
  cbn [BackwardLoop].
  replace (backwardStep s0 <? rho s0)%N with true
    by (symmetry; apply N.ltb_lt; lia).
  unfold bind at 1. unfold BackwardStep at 1.
  unfold bind at 1. unfold get_state at 1.
  unfold bind at 1. unfold modify at 1.
  unfold bind at 1.
  set (s1 := set_recurrentError _ s0).
  destruct (@restore_snapshots_underflow s1)
    as (s2 & E & Hh & Hst & Hbs & Hr2 & _).
  - unfold s1. cbn [moduleOutputParameter set_recurrentError].
    now rewrite Est.
  - rewrite E. exists s2. split; [reflexivity|].
    rewrite Hh, Hbs, Hr2. unfold s1.
    cbn [history backwardStep rho set_recurrentError].
    repeat split; congruence.
Qed.

End Edges.

End RecurrentAttentionEdges.

(* ===================================================================== *)
(** * RecurrentAttention: properties of the calls *)
(* ===================================================================== *)

Module RecurrentAttentionCalls.

Import ArmaFacts RecurrentAttention RecurrentAttentionSteps
  RecurrentAttentionBackward RecurrentAttentionLife RecurrentAttentionKeeps
  RecurrentAttentionEdges.
Import Toy.
Local Open Scope ra_scope.

(** X10. [Forward] takes one sample at a time.  With rho > 0 and an input
    that does not have exactly one column, the assignment
    [glimpseInput.col(0) = input] of the first step throws: the action module
    has been run once, no snapshot has been pushed, and the cursors have not
    been reset. *)
Theorem Forward_rejects_wide_input {R A : Type} `{LR : Layer R}
    `{LA : Layer A} (input : mat) (s : State R A) :
  rho s <> 0%N ->
  n_cols input <> 1%N ->
  exists s',
    Forward input s = (Throw incompatible_dimensions, s')
    /\ history s'
       = history s
         ++ [EvForward Action (initialInput s') (first_action_output input s)]
    /\ moduleOutputParameter s' = moduleOutputParameter s
    /\ backwardStep s' = backwardStep s.
Proof.
  intros Hrho Hc.
  destruct (@Forward_first_glimpse_fails R A LR LA input s
              incompatible_dimensions Hrho)
    as (s' & E & Hh & Hst & _ & _ & _ & Hb).
  - now apply glimpse_wide_input.
  - exists s'. repeat split; assumption.
Qed.

Lemma Forward_rejects_wide_input_witness :
  exists s',
    Forward input_2cols layer0 = (Throw incompatible_dimensions, s')
    /\ moduleOutputParameter s' = [].
Proof.
  destruct (@Forward_rejects_wide_input _ _ _ _ input_2cols layer0)
    as (s' & E & _ & Hst & _).
  - vm_compute. discriminate.
  - vm_compute. discriminate.
  - exists s'. split; [exact E | exact Hst].
Defined.

(** X11. An action module that returns no element, or more elements than
    the input has, ends [Forward] in the first step: the last row
    [n_elem - 1] of the block written into the glimpse wraps around for an
    empty output, and lies outside the glimpse for a long one, so that
    [submat] throws. *)
Theorem Forward_rejects_misfit_action {R A : Type} `{LR : Layer R}
    `{LA : Layer A} (input : mat) (s : State R A) :
  rho s <> 0%N ->
  n_cols input = 1%N -> (n_elem input < SIZE_MOD)%N ->
  (n_elem (first_action_output input s) <= SIZE_MOD)%N ->
  (n_elem (first_action_output input s) = 0
   \/ n_elem input < n_elem (first_action_output input s))%N ->
  exists s',
    Forward input s = (Throw index_out_of_bounds, s')
    /\ moduleOutputParameter s' = moduleOutputParameter s
    /\ rnnModule s' = rnnModule s.
Proof.
  intros Hrho Hc Hn Ha Hbad.
  destruct (@Forward_first_glimpse_fails R A LR LA input s
              index_out_of_bounds Hrho)
    as (s' & E & _ & Hst & _ & Hr & _).
  - now apply glimpse_misfit.
  - exists s'. repeat split; assumption.
Qed.

Lemma Forward_rejects_misfit_action_witness :
  exists s', Forward input0 muted0 = (Throw index_out_of_bounds, s').
Proof.
  destruct (@Forward_rejects_misfit_action _ _ _ _ input0 muted0)
    as (s' & E & _).
  - vm_compute. discriminate.
  - reflexivity.
  - reflexivity.
  - vm_compute. discriminate.
  - left. reflexivity.
  - exists s'. exact E.
Defined.

(** X12. [Backward] on a snapshot stack that holds fewer than two snapshots
    takes [back()] of an empty vector in its first iteration: it has no
    defined behaviour, no sub-module has been called, and the stack is left
    empty.  A [Backward] before any [Forward] is such a call. *)
Theorem Backward_stack_underflow {R A : Type} `{LR : Layer R}
    `{LA : Layer A} (input gy g : mat) (s : State R A) :
  rho s <> 0%N -> backwardStep s = 0%N ->
  (length (moduleOutputParameter s) < 2)%nat ->
  exists s',
    Backward input gy g s = (Throw undefined_behaviour, s')
    /\ history s' = history s
    /\ moduleOutputParameter s' = []
    /\ backwardStep s' = 0%N.
Proof.
  intros Hrho Hb Hlen.
  destruct (@Backward_underflow R A LR LA input gy g s Hrho Hb Hlen)
    as (s' & E & Hh & Hst & Hbs & _).
  exists s'. repeat split; assumption.
Qed.

Lemma Backward_stack_underflow_witness :
  exists s',
    Backward input0 gy0 empty_mat layer0 = (Throw undefined_behaviour, s')
    /\ history s' = [].
Proof.
  destruct (@Backward_stack_underflow _ _ _ _ input0 gy0 empty_mat layer0)
    as (s' & E & Hh & _).
  - vm_compute. discriminate.
  - reflexivity.
  - cbn. lia.
  - exists s'. split; [exact E | exact Hh].
Defined.

(** X13. A [Backward] that returned has moved its cursor to rho, and only
    [Forward] moves it back: a second [Backward] without a [Forward] in
    between runs no iteration, calls no sub-module, changes nothing, and
    hands back the [g] it was given, whatever its arguments. *)
Theorem second_Backward_is_idle {R A : Type} `{LR : Layer R}
    `{LA : Layer A} (input gy g : mat) (s : State R A) (g1 : mat)
    (s1 : State R A) :
  rho s <> 0%N -> (backwardStep s <= rho s)%N ->
  Backward input gy g s = (Ok g1, s1) ->
  backwardStep s1 = rho s
  /\ forall input' gy' g', Backward input' gy' g' s1 = (Ok g', s1).
Proof.
  intros Hrho Hle HB.
  assert (Erho : rho s1 = rho s).
  { pose proof (@Backward_keeps_rho R A LR LA input gy g (rho s) s eq_refl)
      as H.
    now rewrite HB in H. }
  assert (Hup : (backwardStep s1 <= rho s1)%N).
  { pose proof (@Backward_keeps_backwardStep_bound R A LR LA input gy g s Hle)
      as H.
    now rewrite HB in H. }
  rewrite Backward_unfold in HB. apply BackwardLoop_exit in HB.
  unfold backward_cond in HB. apply N.ltb_ge in HB.
  split; [lia|].
  intros input' gy' g'. rewrite Backward_unfold.
  rewrite Backward_entry_idle by lia.
  apply BackwardLoop_idle. unfold backward_cond. apply N.ltb_ge. lia.
Qed.

Lemma second_Backward_is_idle_witness :
  Backward input_2cols empty_mat gy0 backpropagated0
  = (Ok gy0, backpropagated0).
Proof.
  destruct (Backward input0 gy0 empty_mat trained0) as [[g1|e] s1] eqn:E.
  - assert (Es : backpropagated0 = s1)
      by (unfold backpropagated0; now rewrite E).
    rewrite Es.
    apply (@second_Backward_is_idle _ _ _ _ input0 gy0 empty_mat trained0
             g1 s1).
    + vm_compute. discriminate.
    + vm_compute. discriminate.
    + exact E.
  - exfalso. vm_compute in E. discriminate E.
Defined.



(** X15. With rho = 0 the layer calls no sub-module.  [Forward] returns the
    output parameter that the recurrent module holds (an empty matrix on a
    fresh layer) and pushes nothing; [Backward] returns the [g] it was
    given. *)
Theorem zero_rho_is_idle {R A : Type} `{LR : Layer R}
    `{LA : Layer A} (input gy g : mat) (s : State R A) :
  rho s = 0%N ->
  (exists s',
      Forward input s = (Ok (outputParameter (rnnModule s)), s')
      /\ history s' = history s
      /\ moduleOutputParameter s' = moduleOutputParameter s)
  /\ (exists s',
         Backward input gy g s = (Ok g, s')
         /\ history s' = history s
         /\ moduleOutputParameter s' = moduleOutputParameter s).
Proof.
  intros Hrho. split.
  - rewrite Forward_unfold.
    set (s0 := Forward_entry input s).
    assert (F0 : rho s0 = 0%N /\ history s0 = history s
                 /\ moduleOutputParameter s0 = moduleOutputParameter s
                 /\ rnnModule s0 = rnnModule s).
    { unfold s0, Forward_entry.
      destruct (is_empty (initialInput s)); cbn; repeat split; exact Hrho. }
    destruct F0 as (Frho & Fh & Fst & Fr).
    rewrite Frho. cbn [N.to_nat while]. unfold forward_cond.
    rewrite Frho.
    replace (forwardStep s0 <? 0)%N with false
      by (symmetry; apply N.ltb_ge; lia).
    rewrite Fr. eexists. split; [reflexivity|].
    cbn [history moduleOutputParameter set_backwardStep set_forwardStep].
    split; assumption.
  - rewrite Backward_unfold.
    destruct (Backward_entry_frame s) as (Erho & _ & Est & Eh & _).
    rewrite BackwardLoop_idle.
    + eexists. split; [reflexivity|]. split; assumption.
    + unfold backward_cond. apply N.ltb_ge. lia.
Qed.

Lemma zero_rho_is_idle_witness :
  exists s', Forward input0 still0 = (Ok empty_mat, s') /\ history s' = [].
Proof.
  destruct (@zero_rho_is_idle _ _ _ _ input0 gy0 empty_mat still0 eq_refl)
    as [(s' & E & Hh & _) _].
  exists s'. split; [exact E | exact Hh].
Defined.

(** X20. Inference disables [Backward].  In deterministic mode a [Forward]
    on a one-column input returns and pushes no snapshot; a [Backward] that
    follows it on the empty stack has no defined behaviour, and calls no
    sub-module. *)
Theorem inference_disables_Backward {R A : Type} `{LR : Layer R}
    `{LA : Layer A} (input : mat) (s : State R A) :
  n_cols input = 1%N -> (n_elem input < SIZE_MOD)%N ->
  (forall (c : A) (x : mat),
     n_cols (snd (layer_forward c x)) = 1%N
     /\ (1 <= n_rows (snd (layer_forward c x)) <= n_elem input)%N) ->
  deterministic s = true -> moduleOutputParameter s = [] -> rho s <> 0%N ->
  exists out s1,
    Forward input s = (Ok out, s1)
    /\ moduleOutputParameter s1 = []
    /\ forall input' gy g,
       exists s2,
         Backward input' gy g s1 = (Throw undefined_behaviour, s2)
         /\ history s2 = history s1.
Proof.
  intros Hc Hn Hshape Hdet Hst Hrho.
  destruct (@Forward_run R A LR LA input Hc Hn Hshape s)
    as (out & s1 & tr & E & _ & _ & Hst1 & _ & _ & _ & _ & Hb1 & Hr1 & _).
  rewrite Hdet, Hst in Hst1. cbn [app] in Hst1.
  exists out, s1. split; [exact E|]. split; [exact Hst1|].
  intros input' gy g.
  destruct (@Backward_underflow R A LR LA input' gy g s1)
    as (s2 & E2 & Hh2 & _).
  - now rewrite Hr1.
  - exact Hb1.
  - rewrite Hst1. cbn. lia.
  - exists s2. split; assumption.
Qed.

Lemma inference_disables_Backward_witness :
  exists out s1,
    Forward input0 inference0 = (Ok out, s1)
    /\ moduleOutputParameter s1 = []
    /\ forall input' gy g,
       exists s2,
         Backward input' gy g s1 = (Throw undefined_behaviour, s2)
         /\ history s2 = history s1.
Proof.
  apply (@inference_disables_Backward _ _ _ _ input0 inference0).
  - reflexivity.
  - reflexivity.
  - intros c x. cbn. split; [reflexivity|]. split; discriminate.
  - reflexivity.
  - reflexivity.
  - vm_compute. discriminate.
Defined.

(** X21. The mode and the snapshot stack do not reach the computation of
    [Forward].  Two objects that differ only in the deterministic flag and in
    the content of the stack return the same output (or throw the same
    error), make the same calls of the sub-modules, and end in states that
    again differ only in the flag and the stack: inference computes what
    training computes. *)
Theorem Forward_ignores_mode_and_stack {R A : Type} `{LR : Layer R}
    `{LA : Layer A} (input : mat) (s s' : State R A) :
  without_snapshots s = without_snapshots s' ->
  fst (Forward input s) = fst (Forward input s')
  /\ without_snapshots (snd (Forward input s))
     = without_snapshots (snd (Forward input s'))
  /\ history (snd (Forward input s)) = history (snd (Forward input s')).
Proof.
  intros E.
  pose proof (Forward_without_snapshots input s) as H.
  pose proof (Forward_without_snapshots input s') as H'.
  rewrite E in H. rewrite H' in H.
  pose proof (f_equal fst H) as H1. pose proof (f_equal snd H) as H2.
  cbn [fst snd] in H1, H2.
  split; [congruence|]. split; [congruence|].
  change (history (without_snapshots (snd (Forward input s)))
          = history (without_snapshots (snd (Forward input s')))).
  now rewrite <- H2.
Qed.

Lemma Forward_ignores_mode_and_stack_witness :
  fst (Forward input0 inference0) = fst (Forward input0 layer0)
  /\ history (snd (Forward input0 inference0))
     = history (snd (Forward input0 layer0)).
Proof.
  destruct (@Forward_ignores_mode_and_stack _ _ _ _ input0 inference0 layer0)
    as (H1 & _ & H2).
  - reflexivity.
  - split; [exact H1 | exact H2].
Defined.



End RecurrentAttentionCalls.

(* ===================================================================== *)
(** * RecurrentAttention: invariants of the object *)
(* ===================================================================== *)

Module RecurrentAttentionInvariants.

Import ArmaFacts RecurrentAttention RecurrentAttentionSteps
  RecurrentAttentionBackward RecurrentAttentionLife RecurrentAttentionKeeps
  RecurrentAttentionEdges.
Import Toy.
Local Open Scope ra_scope.

(** X16. The snapshot stack holds whole pairs.  In every state that an
    object can reach from its construction, through calls that return or
    throw and in either mode, the number of snapshots is even: [Forward]
    pushes the two output parameters of a step together, and [Backward] pops
    two or fails on an empty stack. *)
Theorem snapshots_come_in_pairs {R A : Type} `{LR : Layer R}
    `{LA : Layer A} (s : State R A) :
  reachable s -> Nat.even (length (moduleOutputParameter s)) = true.
Proof.
  change (reachable s -> stack_paired s).
  induction 1 as [o r a k|s s' _ IH Hstep]; [reflexivity|].
  destruct Hstep.
  - now apply Forward_keeps_paired.
  - now apply Backward_keeps_paired.
  - now apply Gradient_keeps_paired.
  - exact IH.
Qed.

Lemma snapshots_come_in_pairs_witness :
  Nat.even (length (moduleOutputParameter backpropagated0)) = true
  /\ Nat.even (length (moduleOutputParameter trained0)) = true.
Proof.
  assert (Ht : reachable trained0).
  { unfold trained0. eapply reachable_step; [|apply step_Forward].
    unfold layer0. apply reachable_new. }
  split.
  - apply (@snapshots_come_in_pairs _ _ _ _ backpropagated0).
    unfold backpropagated0. eapply reachable_step; [exact Ht|].
    apply step_Backward.
  - apply (@snapshots_come_in_pairs _ _ _ _ trained0). exact Ht.
Defined.

(** X17. The action module never receives an error signal through this
    layer.  In every reachable state the error that [Backward] hands to the
    action module is a matrix of zeros, and so was the error of every call of
    the action module's [Backward] that the history records: [actionError] is
    written by the allocation in [Backward] only ([IntermediateGradient]
    reads it). *)
Theorem action_module_error_is_zero {R A : Type} `{LR : Layer R}
    `{LA : Layer A} (s : State R A) :
  reachable s ->
  is_zeros (actionError s)
  /\ forall x e d, In (EvBackward Action x e d) (history s) -> is_zeros e.
Proof.
  intros Hr.
  assert (H : action_error_zero s).
  { induction Hr as [o r a k|s s' _ IH Hstep].
    - split; [now exists 0%N, 0%N | constructor].
    - destruct Hstep.
      + now apply Forward_keeps_zero.
      + now apply Backward_keeps_zero.
      + now apply Gradient_keeps_zero.
      + exact IH. }
  destruct H as [Ha Hh]. split; [exact Ha|].
  intros x e d Hin. rewrite Forall_forall in Hh. apply Hh.
  unfold action_errors. apply in_flat_map.
  exists (EvBackward Action x e d). split; [exact Hin | now left].
Qed.

Lemma action_module_error_is_zero_witness :
  is_zeros (actionError backpropagated0).
Proof.
  destruct (@action_module_error_is_zero _ _ _ _ backpropagated0) as [H _];
    [|exact H].
  unfold backpropagated0. eapply reachable_step; [|apply step_Backward].
  unfold trained0. eapply reachable_step; [|apply step_Forward].
  unfold layer0. apply reachable_new.
Defined.

(** X18. The first action input of every [Forward] is a matrix of zeros:
    [initialInput] is empty or zero in every reachable state, because the
    only write to it is the allocation at the start of [Forward]. *)
Theorem initial_input_is_zero {R A : Type} `{LR : Layer R}
    `{LA : Layer A} (s : State R A) :
  reachable s ->
  is_zeros (initialInput s)
  /\ forall input, is_zeros (initialInput (Forward_entry input s)).
Proof.
  intros Hr.
  assert (H : is_zeros (initialInput s)).
  { induction Hr as [o r a k|s s' _ IH Hstep].
    - now exists 0%N, 0%N.
    - destruct Hstep as [x s|x gy g s|x e g s|v s].
      + now apply (@Forward_keeps_initialInput R A LR LA x s).
      + now apply (@Backward_keeps_initialInput R A LR LA x gy g s).
      + now apply (@Gradient_keeps_initialInput R A LR LA x e g s).
      + exact IH. }
  split; [exact H|].
  intros input. unfold Forward_entry.
  destruct (is_empty (initialInput s)); cbn [initialInput set_forwardStep
    set_initialInput]; [apply zeros_is_zeros | exact H].
Qed.

Lemma initial_input_is_zero_witness :
  is_zeros (initialInput backpropagated0).
Proof.
  destruct (@initial_input_is_zero _ _ _ _ backpropagated0) as [H _];
    [|exact H].
  unfold backpropagated0. eapply reachable_step; [|apply step_Backward].
  unfold trained0. eapply reachable_step; [|apply step_Forward].
  unfold layer0. apply reachable_new.
Defined.

(** X19. The two cursors never pass rho: in every reachable state
    forwardStep <= rho and backwardStep <= rho, whether the calls returned or
    threw. *)
Theorem cursors_stay_in_range {R A : Type} `{LR : Layer R}
    `{LA : Layer A} (s : State R A) :
  reachable s -> (forwardStep s <= rho s)%N /\ (backwardStep s <= rho s)%N.
Proof.
  induction 1 as [o r a k|s s' _ [IHf IHb] Hstep].
  - cbn. lia.
  - destruct Hstep as [x s|x gy g s|x e g s|v s].
    + split; [now apply Forward_keeps_forwardStep_bound
             | now apply Forward_keeps_backwardStep_bound].
    + split; [now apply Backward_keeps_forwardStep_bound
             | now apply Backward_keeps_backwardStep_bound].
    + pose proof (@Gradient_keeps_cursors R A LR LA x e g _ s eq_refl) as Hk.
      injection Hk as -> -> ->. now split.
    + now split.
Qed.

Lemma cursors_stay_in_range_witness :
  (forwardStep backpropagated0 <= rho backpropagated0)%N
  /\ (backwardStep backpropagated0 <= rho backpropagated0)%N.
Proof.
  refine (@cursors_stay_in_range _ _ _ _ backpropagated0 _).
  unfold backpropagated0. eapply reachable_step; [|apply step_Backward].
  unfold trained0. eapply reachable_step; [|apply step_Forward].
  unfold layer0. apply reachable_new.
Defined.

(** X27. What the methods never write.  [Forward] leaves the gradient
    buffers, the errors, the deltas and the gradients of the two modules as
    they are; [Backward] leaves outSize, rho, forwardStep, the mode and the
    initial action input; [Gradient] assigns to the gradients of the two
    modules only, which [Backward] bound to the memory of
    [intermediateGradient]: every other member, [attentionGradient] that it
    reads among them, is left as it is.  This holds whether the call returns
    or throws. *)
Theorem methods_leave_the_rest {R A : Type} `{LR : Layer R}
    `{LA : Layer A} (s : State R A) :
  (forall input, gradient_side (snd (Forward input s)) = gradient_side s)
  /\ (forall input gy g,
        forward_side (snd (Backward input gy g s)) = forward_side s)
  /\ (forall input e g,
        all_but_gradients (snd (Gradient input e g s)) = all_but_gradients s).
Proof.
  split; [|split].
  - intros input.
    assert (H : keeps (fun t : State R A => gradient_side t = gradient_side s)
                      (Forward input)).
    { unfold Forward, forward_body, ForwardStep, action_Forward, rnn_Forward,
        push_back.
      keeps_walk; keeps_write. }
    now apply H.
  - intros input gy g.
    assert (H : keeps (fun t : State R A => forward_side t = forward_side s)
                      (Backward input gy g)).
    { unfold Backward. keeps_walk; keeps_write.
      apply keeps_BackwardLoop; [|intros; assumption].
      unfold BackwardStep, restore_snapshots, action_Backward, rnn_Backward,
        input_gradient, IntermediateGradient.
      keeps_walk; keeps_write. }
    now apply H.
  - intros input e g.
    assert (H : keeps (fun t : State R A =>
                         all_but_gradients t = all_but_gradients s)
                      (Gradient input e g)).
    { unfold Gradient. keeps_walk; keeps_write. }
    now apply H.
Qed.

End RecurrentAttentionInvariants.

(* ===================================================================== *)
(** * RecurrentAttention: the gradient buffers *)
(* ===================================================================== *)

Module RecurrentAttentionBuffers.

Import ArmaFacts RecurrentAttention RecurrentAttentionSteps
  RecurrentAttentionBackward RecurrentAttentionLife RecurrentAttentionKeeps
  RecurrentAttentionEdges.
Import Toy.
Local Open Scope ra_scope.

Section Buffers.

Context {R A : Type} `{LR : Layer R} `{LA : Layer A}.

#[local] Abbreviation State := (State R A).

Hypothesis stable_rnn : stable_parameters R.
Hypothesis stable_action : stable_parameters A.

Variables nr na : N.

Lemma action_Backward_shape (x : mat) :
  keeps (@gradient_shape R A LR LA nr na) (action_Backward x).
Proof.
  apply keeps_modify. intros s (Hr & Ha & Hg). cbv zeta.
  pose proof (proj1 (stable_action (core (actionModule s)) x (actionError s)))
    as Hst.
  destruct (layer_backward (core (actionModule s)) x (actionError s))
    as [c d].
  cbn [fst] in Hst. unfold gradient_shape, Parameters in *.
  cbn [rnnModule actionModule attentionGradient log set_actionDelta
       set_actionModule core].
  rewrite Hst. now split.
Qed.

Lemma rnn_Backward_shape (x : mat) :
  keeps (@gradient_shape R A LR LA nr na) (rnn_Backward x).
Proof.
  apply keeps_modify. intros s (Hr & Ha & Hg). cbv zeta.
  pose proof (proj1 (stable_rnn (core (rnnModule s)) x (recurrentError s)))
    as Hst.
  destruct (layer_backward (core (rnnModule s)) x (recurrentError s))
    as [c d].
  cbn [fst] in Hst. unfold gradient_shape, Parameters in *.
  cbn [rnnModule actionModule attentionGradient log set_rnnDelta
       set_rnnModule core].
  rewrite Hst. now split.
Qed.

Lemma IntermediateGradient_shape :
  keeps (@gradient_shape R A LR LA nr na) IntermediateGradient.
Proof.
  apply keeps_modify. intros s (Hr & Ha & Hg). cbv zeta.
  pose proof (proj2 (stable_action (core (actionModule s))
                       (outputParameter (actionModule s)) (actionError s)))
    as Hsa.
  pose proof (proj2 (stable_rnn (core (rnnModule s))
                       (outputParameter (rnnModule s)) (recurrentError s)))
    as Hsr.
  destruct (layer_gradient (core (actionModule s))
              (outputParameter (actionModule s)) (actionError s)) as [ca ga].
  destruct (layer_gradient (core (rnnModule s))
              (outputParameter (rnnModule s)) (recurrentError s)) as [cr gr].
  cbn [fst] in Hsa, Hsr. unfold gradient_shape, Parameters in *.
  cbn [rnnModule actionModule attentionGradient set_attentionGradient
       set_intermediateGradient set_rnnModule set_actionModule core
       n_rows n_cols].
  rewrite Hsa, Hsr. now split.
Qed.

Lemma restore_snapshots_shape :
  keeps (@gradient_shape R A LR LA nr na) restore_snapshots.
Proof.
  unfold restore_snapshots. apply keeps_for_each. intros l.
  apply keeps_bind; [apply keeps_back|]. intros m.
  apply keeps_bind; [|intros _; apply keeps_pop_back; intros; assumption].
  intros s Hs. unfold network_load.
  destruct (_ =? 0)%N; [exact Hs|]. destruct (_ =? 1)%N; exact Hs.
Qed.

Lemma BackwardLoop_shape (gy : mat) (fuel : nat) (g : mat) :
  keeps (@gradient_shape R A LR LA nr na) (BackwardLoop fuel gy g).
Proof.
  pose proof action_Backward_shape. pose proof rnn_Backward_shape.
  pose proof IntermediateGradient_shape.
  pose proof restore_snapshots_shape.
  apply keeps_BackwardLoop; [|intros; assumption].
  unfold BackwardStep, input_gradient.
  keeps_walk; keeps_write.
Qed.

(** The first [Backward] of an object allocates the buffers. *)
Lemma Backward_entry_shape (s : State) :
  is_empty (intermediateGradient s) = true -> backwardStep s = 0%N ->
  n_elem (Parameters (rnnModule s)) = nr ->
  n_elem (Parameters (actionModule s)) = na ->
  gradient_shape nr na (Backward_entry s).
Proof.
  intros He Hb Hr Ha. unfold Backward_entry. rewrite He, Hb.
  cbn [andb N.eqb backwardStep set_actionError set_attentionGradient
       set_intermediateGradient].
  rewrite Hb. cbn [N.eqb].
  unfold gradient_shape, Parameters in *.
  cbn [rnnModule actionModule attentionGradient set_actionError
       set_attentionGradient set_intermediateGradient set_actionModule
       set_rnnModule core zeros n_rows n_cols].
  rewrite Hr, Ha. repeat split.
Qed.

End Buffers.

(** X24. The first [Backward] of an object allocates the attention gradient
    as a column with one row per parameter of the two modules, and the
    iterations keep that shape: when it has returned, [Gradient] returns as
    well, and hands the recurrent module the first block and the action
    module the second.  (For modules whose [Backward] and [Gradient] leave
    the number of their parameters as it is.) *)
Theorem Backward_prepares_Gradient {R A : Type} `{LR : Layer R}
    `{LA : Layer A} (input gy g input' error gradient' : mat)
    (s : State R A) (g1 : mat) (s1 : State R A) :
  stable_parameters R -> stable_parameters A ->
  is_empty (intermediateGradient s) = true -> backwardStep s = 0%N ->
  let nr := n_elem (Parameters (rnnModule s)) in
  let na := n_elem (Parameters (actionModule s)) in
  (nr + na <= SIZE_MOD)%N ->
  Backward input gy g s = (Ok g1, s1) ->
  n_rows (attentionGradient s1) = (nr + na)%N
  /\ n_cols (attentionGradient s1) = 1%N
  /\ exists s2,
       Gradient input' error gradient' s1 = (Ok tt, s2)
       /\ gradient (rnnModule s2)
          = (if (nr =? 0)%N then gradient (rnnModule s1)
             else block (attentionGradient s1) 0 nr)
       /\ gradient (actionModule s2)
          = (if (na =? 0)%N then gradient (actionModule s1)
             else block (attentionGradient s1) nr na).
Proof.
  intros SR SA He Hb nr na Hw HB.
  rewrite Backward_unfold in HB.
  pose proof (@Backward_entry_shape R A LR LA nr na s He Hb eq_refl eq_refl)
    as H0.
  pose proof (@BackwardLoop_shape R A LR LA SR SA nr na gy
                (N.to_nat (rho (Backward_entry s))) g (Backward_entry s) H0)
    as H1.
  rewrite HB in H1. cbn [snd] in H1.
  destruct H1 as (Hr & Ha & Hrows & Hcols).
  split; [exact Hrows|]. split; [exact Hcols|].
  destruct (@Gradient_spec R A LR LA input' error gradient' s1)
    as (s2 & E & Gr & Ga & _).
  - rewrite Hr, Ha, Hrows. lia.
  - rewrite Hcols. lia.
  - rewrite Hrows. exact Hw.
  - exists s2. split; [exact E|]. rewrite Hr in Gr. rewrite Hr, Ha in Ga.
    split; assumption.
Qed.

Lemma Backward_prepares_Gradient_witness :
  n_cols (attentionGradient backpropagated0) = 1%N
  /\ exists s2, Gradient input0 gy0 empty_mat backpropagated0 = (Ok tt, s2).
Proof.
  destruct (Backward input0 gy0 empty_mat trained0) as [[g1|e] s1] eqn:E.
  - assert (Es : backpropagated0 = s1)
      by (unfold backpropagated0; now rewrite E).
    rewrite Es.
    destruct (@Backward_prepares_Gradient _ _ _ _ input0 gy0 empty_mat
                input0 gy0 empty_mat trained0 g1 s1)
      as (_ & Hc & s2 & E2 & _).
    + intros c x e'. split; reflexivity.
    + intros c x e'. split; reflexivity.
    + reflexivity.
    + reflexivity.
    + vm_compute. discriminate.
    + exact E.
    + split; [exact Hc|]. exists s2. exact E2.
  - exfalso. vm_compute in E. discriminate E.
Defined.

End RecurrentAttentionBuffers.
